(** * The L20n compiler of src/js/compiler.js

    The compiler turns a parsed syntax tree into JavaScript closures.  The
    closures are modelled first-order: a value of type [evaluator] is the
    closure a constructor of the source returns (named as the source names
    the returned function), holding what that closure captured, and
    [call] runs its body.  State that the source mutates in place -- the
    [dirty] variable of an interpolated string, the [index] array of an
    entity, the [locals] object handed down a call chain -- is threaded
    explicitly. *)

From stdpp Require Import base gmap strings list pretty.
From Stdlib Require Import ZArith.

Set Warnings "-register-all".

Local Open Scope Z_scope.

(** ** Syntax nodes

    The tree the parser hands over.  A node is an object tagged by [type];
    every constructor below other than [NNull] and [NBare] is an object whose
    tag is the one [node_type] gives and whose fields are the constructor's
    arguments, named as the source reads them. *)

Inductive node : Type :=
  | NNull                               (* a falsy child: null or undefined *)
  | NBare (type : string)               (* an object with a tag and no other field *)
  | NIdentifier (name : string)
  | NThis
  | NVariable (name : string)
  | NGlobal (name : string)
  | NNumber (content : Z)
  | NString (content : string)
  | NArray (content : list element)
  | NHash (content : list element)
  | NComplexString (content : list node)
  | NKeyValuePair (value : node)
  | NUnaryExpression (operator : string) (operand : node)
  | NBinaryExpression (left : node) (operator : string) (right : node)
  | NLogicalExpression (left : node) (operator : option string) (right : node)
  | NConditionalExpression (test consequent alternate : node)
  | NCallExpression (callee : node) (arguments : list node)
  | NPropertyExpression (expression : node) (computed : bool) (property : node)
  | NAttributeExpression (expression : node) (computed : bool) (attribute : node)
(** An element of an array or hash literal: the node [elem] together with the
    two marks the literal reads off it, [elem.id] and [elem.default].  Off
    an element that is null nothing can be read, whatever the marks. *)
with element : Type :=
  | Element (id : option string) (default : bool) (elem : node).

Definition elem_id (e : element) : option string :=
  match e with Element id _ _ => id end.
Definition elem_default (e : element) : bool :=
  match e with Element _ default _ => default end.
Definition elem_node (e : element) : node :=
  match e with Element _ _ elem => elem end.

Definition is_null (n : node) : bool :=
  match n with NNull => true | _ => false end.

(** [node.type]; [None] for a falsy node, which has no fields. *)
Definition node_type (n : node) : option string :=
  match n with
  | NNull => None
  | NBare type => Some type
  | NIdentifier _ => Some "identifier"%string
  | NThis => Some "this"%string
  | NVariable _ => Some "variable"%string
  | NGlobal _ => Some "global"%string
  | NNumber _ => Some "number"%string
  | NString _ => Some "string"%string
  | NArray _ => Some "array"%string
  | NHash _ => Some "hash"%string
  | NComplexString _ => Some "complexString"%string
  | NKeyValuePair _ => Some "keyValuePair"%string
  | NUnaryExpression _ _ => Some "unaryExpression"%string
  | NBinaryExpression _ _ _ => Some "binaryExpression"%string
  | NLogicalExpression _ _ _ => Some "logicalExpression"%string
  | NConditionalExpression _ _ _ => Some "conditionalExpression"%string
  | NCallExpression _ _ => Some "callExpression"%string
  | NPropertyExpression _ _ _ => Some "propertyExpression"%string
  | NAttributeExpression _ _ _ => Some "attributeExpression"%string
  end.

(** [node.name]; [None] is [undefined]. *)
Definition node_name (n : node) : option string :=
  match n with
  | NIdentifier name | NVariable name | NGlobal name => Some name
  | _ => None
  end.

(** An attribute definition, and a top-level entry of the sequence
    [compile] walks.  The [args] of a macro entry are the [name]s of the
    nodes of [node.args]. *)
Record attr_node : Type := AttrNode {
  an_id : string;
  an_local : bool;
  an_value : node
}.

Inductive definition : Type :=
  | DFalsy                                (* null, undefined, 0, the empty string *)
  | DOther (type : string) (id : option string)   (* an entry with no further field *)
  | DEntity (id : string) (value : node) (index : list node)
            (attrs : list attr_node) (local : bool)
  | DMacro (id : string) (args : list string) (expression : node).

(** ** Compiled closures *)

Inductive unary_op := negativeOperator | positiveOperator | notOperator.

Inductive binary_op :=
  | equalOperator | notEqualOperator | lessThanOperator | lessThanEqualOperator
  | greaterThanOperator | greaterThanEqualOperator | addOperator
  | substractOperator | multiplyOperator | devideOperator | moduloOperator.

Inductive logical_op := andOperator | orOperator.

(** What [node.content] of a literal holds. *)
Inductive constant := KUndefined | KNumber (z : Z) | KString (s : string).

(** What [new Expression(node)] yields.  [blank] is the object [new] leaves when
    the constructor returns no object (a falsy node): it is truthy and is not
    callable.  For an operator, [None] is that same object, left by
    [new UnaryOperator(token)] and its siblings on a token they do not list. *)
Inductive evaluator : Type :=
  | blank
  | identifier (name : string)
  | thisIdentifier
  | variable (name : string)
  | global (name : string)
  | numberLiteral (content : constant)
  | stringLiteral (content : constant)
  | arrayLiteral (content : list evaluator) (defaultKey : nat)
  | hashLiteral (content : list (string * evaluator)) (defaultKey : string)
  | complexString (dirty : nat) (content : list evaluator)
  | unaryExpression (operator : option unary_op) (operand : evaluator)
  | binaryExpression (left : evaluator) (operator : option binary_op)
                     (right : evaluator)
  | logicalExpression (left : evaluator) (operator : option logical_op)
                      (right : evaluator)
  | conditionalExpression (test consequent alternate : evaluator)
  | callExpression (callee : evaluator) (args : list evaluator)
  | propertyExpression (expression : evaluator) (property : member)
  | attributeExpression (expression : evaluator) (attribute : member)
(** The [property] or [attribute] a member expression captured: a compiled
    expression when [computed], else [node.property.name]. *)
with member : Type :=
  | Computed (e : evaluator)
  | Named (name : option string).

Record Attribute : Type := mkAttribute {
  attr_id : string;
  attr_local : bool;
  attr_value : evaluator
}.

(** [ent_index] is the address of the array [this.index] holds. *)
Record Entity : Type := mkEntity {
  ent_id : string;
  ent_value : evaluator;
  ent_index : nat;
  ent_attributes : list (string * Attribute);
  ent_local : bool
}.

(** The closure [Macro] returns: [mac_args] is [node.args] ([None] when the
    entry has none), read on every invocation. *)
Record Macro : Type := mkMacro {
  mac_args : option (list string);
  mac_expression : evaluator
}.

(** ** Values *)

Inductive value : Type :=
  | VUndef
  | VNull
  | VBool (b : bool)
  | VNum (z : Z)
  | VStr (s : string)
  | VExpr (e : evaluator)
  | VEntity (e : Entity)
  | VAttribute (a : Attribute)
  | VMacro (m : Macro)
  | VObj (o : gmap string value)      (* a plain object *)
  | VBuiltin (name : string).         (* a member inherited from a host prototype *)

(** Truthiness, as [if (v)] and [v && w] test it. *)
Definition truthy (v : value) : bool :=
  match v with
  | VUndef | VNull => false
  | VBool b => b
  | VNum z => negb (z =? 0)
  | VStr s => negb (bool_decide (s = ""%string))
  | _ => true
  end.

Definition value_of_constant (c : constant) : value :=
  match c with
  | KUndefined => VUndef
  | KNumber z => VNum z
  | KString s => VStr s
  end.

(** [typeof v == 'function'] *)
Definition is_function (v : value) : bool :=
  match v with
  | VExpr blank => false
  | VExpr _ | VMacro _ => true
  | VBuiltin name => negb (bool_decide (name = "__proto__"%string))
  | _ => false
  end.

(** The integers a double holds exactly. *)
Definition exact (z : Z) : bool :=
  (- 9007199254740992 <? z) && (z <? 9007199254740992).

(** The string a value names a property by, [o[v]].  A function is named by
    its source text, which the host chooses, and a number off the exact
    integers by a numeral the model does not spell: [None]. *)
Definition to_key (v : value) : option string :=
  match v with
  | VUndef => Some "undefined"%string
  | VNull => Some "null"%string
  | VBool true => Some "true"%string
  | VBool false => Some "false"%string
  | VNum z => if exact z then Some (pretty z) else None
  | VStr s => Some s
  | VExpr blank => Some "[object Object]"%string
  | VEntity _ | VAttribute _ => Some "[object Object]"%string
  | VObj o =>
      match o !! "toString"%string, o !! "valueOf"%string with
      | None, None => Some "[object Object]"%string
      | _, _ => None
      end
  | VExpr _ | VMacro _ | VBuiltin _ => None
  end.

Definition key_of_id (id : option string) : string :=
  match id with Some s => s | None => "undefined"%string end.

(** ** Host prototypes

    The names every object, and every array, inherits on every host
    (ECMAScript 5.1, 15.2.4 and 15.4.4, and the accessors engines add to
    Object.prototype). *)

Definition Object_prototype : list string :=
  [ "constructor"; "toString"; "toLocaleString"; "valueOf"; "hasOwnProperty";
    "isPrototypeOf"; "propertyIsEnumerable"; "__proto__"; "__defineGetter__";
    "__defineSetter__"; "__lookupGetter__"; "__lookupSetter__" ]%string.

Definition Array_prototype : list string :=
  [ "concat"; "join"; "pop"; "push"; "reverse"; "shift"; "slice"; "sort";
    "splice"; "unshift"; "indexOf"; "lastIndexOf"; "every"; "some"; "forEach";
    "map"; "filter"; "reduce"; "reduceRight" ]%string ++ Object_prototype.

(** The names later editions add to Array.prototype (ECMAScript 2015 to
    2025, 23.1.3): an array inherits a function under such a name on a host
    of that edition, and nothing on an earlier one. *)
Definition Array_prototype_later : list string :=
  [ "at"; "copyWithin"; "entries"; "fill"; "find"; "findIndex"; "findLast";
    "findLastIndex"; "flat"; "flatMap"; "includes"; "keys"; "toReversed";
    "toSorted"; "toSpliced"; "values"; "with" ]%string.

Definition inherited (proto : list string) (k : string) : value :=
  if bool_decide (k ∈ proto) then VBuiltin k else VUndef.

(** What an array inherits under [k]; [None] where the host's edition
    decides. *)
Definition array_inherited (k : string) : option value :=
  if bool_decide (k ∈ Array_prototype) then Some (VBuiltin k)
  else if bool_decide (k ∈ Array_prototype_later) then None
  else Some VUndef.

(** [o[k]] on a plain object. *)
Definition obj_get (o : gmap string value) (k : string) : value :=
  match o !! k with
  | Some v => v
  | None => inherited Object_prototype k
  end.

(** ** Array indices among property names *)

Definition digit (c : Ascii.ascii) : option N :=
  let n := Ascii.N_of_ascii c in
  if ((48 <=? n) && (n <=? 57))%N then Some (n - 48)%N else None.

Fixpoint digits (s : string) (acc : N) : option N :=
  match s with
  | EmptyString => Some acc
  | String c r =>
      match digit c with
      | Some d => digits r (10 * acc + d)%N
      | None => None
      end
  end.

(** The array index a property name denotes: a canonical decimal numeral
    below 2^32 - 1. *)
Definition index_of_key (k : string) : option nat :=
  match k with
  | EmptyString => None
  | _ =>
      match digits k 0%N with
      | Some n =>
          if bool_decide (pretty n = k) && (n <? 4294967295)%N
          then Some (N.to_nat n) else None
      | None => None
      end
  end.

(** The index below [n] whose numeral [k] is, searched from [i] on. *)
Fixpoint array_index (k : string) (i n : nat) : option nat :=
  match n with
  | O => None
  | S n' => if bool_decide (pretty i = k) then Some i else array_index k (S i) n'
  end.

(** [content[k]] where [content] is the array an array literal filled by
    [push]: the element whose index [k] spells, else [length], else what
    arrays inherit; [None] where that is the host's to say. *)
Definition array_get (content : list evaluator) (k : string) : option value :=
  match array_index k 0 (length content) with
  | Some i =>
      match content !! i with
      | Some e => Some (VExpr e)
      | None => Some VUndef
      end
  | None =>
      if bool_decide (k = "length"%string)
      then Some (VNum (Z.of_nat (length content)))
      else array_inherited k
  end.

(** The array a hash literal fills by [content[elem.id] = ...]: its own
    properties in insertion order. *)
Fixpoint assoc_get {A} (l : list (string * A)) (k : string) : option A :=
  match l with
  | [] => None
  | (k', a) :: r => if bool_decide (k' = k) then Some a else assoc_get r k
  end.

Fixpoint assoc_set {A} (l : list (string * A)) (k : string) (a : A)
  : list (string * A) :=
  match l with
  | [] => [(k, a)]
  | (k', a') :: r =>
      if bool_decide (k' = k) then (k, a) :: r else (k', a') :: assoc_set r k a
  end.

Definition hash_length (content : list (string * evaluator)) : nat :=
  foldr (fun p n => match index_of_key p.1 with
                    | Some i => Nat.max (S i) n
                    | None => n
                    end) 0%nat content.

Definition hash_get (content : list (string * evaluator)) (k : string)
  : option value :=
  match assoc_get content k with
  | Some e => Some (VExpr e)
  | None =>
      if bool_decide (k = "length"%string)
      then Some (VNum (Z.of_nat (hash_length content)))
      else array_inherited k
  end.

(** ** The store, and outcomes of running code

    [st_dirty] holds the [dirty] variable of every compiled interpolated
    string, [st_arrays] the arrays reached through a reference (the [index]
    array of every entity), both by address; [st_next] is the next free
    address. *)

Record store : Type := mkStore {
  st_dirty : gmap nat bool;
  st_arrays : gmap nat (list value);
  st_next : nat
}.

Definition dirty_of (s : store) (d : nat) : bool :=
  default false (st_dirty s !! d).

Definition set_dirty (d : nat) (b : bool) (s : store) : store :=
  mkStore (<[d := b]> (st_dirty s)) (st_arrays s) (st_next s).

Definition array_of (s : store) (a : nat) : list value :=
  default [] (st_arrays s !! a).

Definition set_array (a : nat) (l : list value) (s : store) : store :=
  mkStore (st_dirty s) (<[a := l]> (st_arrays s)) (st_next s).

Inductive type_error :=
  | NotAConstructor     (* [new f(...)] where f is not a constructor *)
  | NotAFunction        (* [f(...)] where f is not callable *)
  | NoProperties.       (* a property read off undefined or null *)

Inductive error :=
  | RecursiveReference  (* throw "Recursive reference" *)
  | TypeError (why : type_error)
  | RangeError.         (* an array length that is no length *)

(** [Host]: the step is the host's to define (a built-in was called, a
    property was read off an object that is not plain, an array was read
    under a name only some editions give it, arithmetic left the
    integers): the model says nothing about the run.  [Timeout]: the fuel
    ran out. *)
Inductive outcome (A : Type) : Type :=
  | Ok (a : A) (s : store)
  | Throw (e : error) (s : store)
  | Host
  | Timeout.
Arguments Ok {A} a s.
Arguments Throw {A} e s.
Arguments Host {A}.
Arguments Timeout {A}.

Definition M (A : Type) : Type := store -> outcome A.

Definition ret {A} (a : A) : M A := fun s => Ok a s.
Definition throw {A} (e : error) : M A := fun s => Throw e s.
Definition host {A} : M A := fun _ => Host.
Definition timeout {A} : M A := fun _ => Timeout.

Definition bind {A B} (m : M A) (k : A -> M B) : M B :=
  fun s =>
    match m s with
    | Ok a s' => k a s'
    | Throw e s' => Throw e s'
    | Host => Host
    | Timeout => Timeout
    end.

Notation "'do' x <- m ; k" := (bind m (fun x => k))
  (at level 10, x pattern, m at level 100, k at level 200,
   format "'[v' 'do'  x  <-  m ;  '/' k ']'").

Definition of_option {A} (o : option A) : M A :=
  match o with Some a => ret a | None => host end.

(** ** The locals object

    [{}] in [Entity.get] and [Macro], [{ __this__: this }] in
    [getAttribute]; a call expression whose callee yields a compiled closure
    hands it the array of arguments in the place of locals, hence
    [l_array]. *)

Record locals : Type := mkLocals {
  l_props : gmap string value;
  l_array : bool
}.

Definition empty_locals : locals := mkLocals ∅ false.

(** [locals[k]]; [None] where the host's edition decides what an array
    inherits under [k]. *)
Definition locals_get (l : locals) (k : string) : option value :=
  match l_props l !! k with
  | Some v => Some v
  | None =>
      if l_array l then array_inherited k
      else Some (inherited Object_prototype k)
  end.

Definition locals_set (l : locals) (k : string) (v : value) : locals :=
  mkLocals (<[k := v]> (l_props l)) (l_array l).

Definition locals_of_array (args : list value) : locals :=
  mkLocals
    (<["length"%string := VNum (Z.of_nat (length args))]>
       (list_to_map (imap (fun i v => (pretty i, v)) args)))
    true.

(** ** The index cursor: the fourth argument of a closure *)

Inductive cursor : Type :=
  | CRef (a : nat)          (* the array at address a of the store *)
  | COwn (l : list value)   (* an array only this call chain holds *)
  | CVal (v : value).       (* anything else; [CVal VUndef] when omitted *)

Definition cursor_truthy (c : cursor) : bool :=
  match c with
  | CVal v => truthy v
  | _ => true
  end.

(** [index.shift()] *)
Definition shift (index : cursor) : M (value * cursor) :=
  match index with
  | CRef a => fun s =>
      match array_of s a with
      | [] => Ok (VUndef, index) s
      | v :: rest => Ok (v, index) (set_array a rest s)
      end
  | COwn [] => ret (VUndef, index)
  | COwn (v :: rest) => ret (v, COwn rest)
  | CVal VUndef | CVal VNull => throw (TypeError NoProperties)
  | CVal (VObj o) =>
      match o !! "shift"%string with
      | None => throw (TypeError NotAFunction)
      | Some _ => host
      end
  | CVal (VBuiltin _) => host
  | CVal _ => throw (TypeError NotAFunction)
  end.

(** [o[k]] on whatever value [o] is. *)
Definition get_prop (o : value) (k : string) : M value :=
  match o with
  | VUndef | VNull => throw (TypeError NoProperties)
  | VObj props => ret (obj_get props k)
  | _ => host
  end.

(** ** Native operators

    Numbers are the integers a double holds exactly; an operation whose
    operands or result fall outside them, or that coerces, is the host's
    ([None]). *)

Definition number (z : Z) : option value :=
  if exact z then Some (VNum z) else None.

Definition UnaryOperator (token : string) : option unary_op :=
  if bool_decide (token = "-"%string) then Some negativeOperator
  else if bool_decide (token = "+"%string) then Some positiveOperator
  else if bool_decide (token = "!"%string) then Some notOperator
  else None.

Definition BinaryOperator (token : string) : option binary_op :=
  if bool_decide (token = "=="%string) then Some equalOperator
  else if bool_decide (token = "!="%string) then Some notEqualOperator
  else if bool_decide (token = "<"%string) then Some lessThanOperator
  else if bool_decide (token = "<="%string) then Some lessThanEqualOperator
  else if bool_decide (token = ">"%string) then Some greaterThanOperator
  else if bool_decide (token = ">="%string) then Some greaterThanEqualOperator
  else if bool_decide (token = "+"%string) then Some addOperator
  else if bool_decide (token = "-"%string) then Some substractOperator
  else if bool_decide (token = "*"%string) then Some multiplyOperator
  else if bool_decide (token = "/"%string) then Some devideOperator
  else if bool_decide (token = "%"%string) then Some moduloOperator
  else None.

Definition LogicalOperator (token : string) : option logical_op :=
  if bool_decide (token = "&&"%string) then Some andOperator
  else if bool_decide (token = "||"%string) then Some orOperator
  else None.

Definition apply_unary (op : unary_op) (operand : value) : option value :=
  match op, operand with
  | notOperator, v => Some (VBool (negb (truthy v)))
  | negativeOperator, VNum z => if exact z then number (- z) else None
  | positiveOperator, VNum z => number z
  | _, _ => None
  end.

Definition loose_eq (l r : value) : option bool :=
  match l, r with
  | VNum x, VNum y => if exact x && exact y then Some (x =? y) else None
  | VStr x, VStr y => Some (bool_decide (x = y))
  | VBool x, VBool y => Some (bool_decide (x = y))
  | (VUndef | VNull), (VUndef | VNull) => Some true
  | _, _ => None
  end.

Definition compare_with (f : Z -> Z -> bool) (l r : value) : option value :=
  match l, r with
  | VNum x, VNum y => if exact x && exact y then Some (VBool (f x y)) else None
  | _, _ => None
  end.

Definition arith_with (f : Z -> Z -> option Z) (l r : value) : option value :=
  match l, r with
  | VNum x, VNum y =>
      if exact x && exact y
      then match f x y with Some z => number z | None => None end
      else None
  | _, _ => None
  end.

Definition apply_binary (op : binary_op) (l r : value) : option value :=
  match op with
  | equalOperator => VBool <$> loose_eq l r
  | notEqualOperator => (fun b => VBool (negb b)) <$> loose_eq l r
  | lessThanOperator => compare_with Z.ltb l r
  | lessThanEqualOperator => compare_with Z.leb l r
  | greaterThanOperator => compare_with Z.gtb l r
  | greaterThanEqualOperator => compare_with Z.geb l r
  | addOperator =>
      match l, r with
      | VStr x, VStr y => Some (VStr (x +:+ y))
      | _, _ => arith_with (fun x y => Some (x + y)) l r
      end
  | substractOperator => arith_with (fun x y => Some (x - y)) l r
  | multiplyOperator => arith_with (fun x y => Some (x * y)) l r
  | devideOperator =>
      arith_with (fun x y => if (y =? 0) || negb (Z.rem x y =? 0)
                             then None else Some (Z.quot x y)) l r
  | moduloOperator =>
      arith_with (fun x y => if y =? 0 then None else Some (Z.rem x y)) l r
  end.

Definition apply_logical (op : logical_op) (l r : value) : value :=
  match op with
  | andOperator => if truthy l then r else l
  | orOperator => if truthy l then l else r
  end.

(** ** The bodies of the compiled closures

    [call e locals env data index] stands for the invocation
    [e(locals, env, data, index)] of a compiled closure; every body below is
    written over it, and [call] itself ties the knot further down.  A
    closure receives [locals] by reference and may assign to it, so a run
    yields the locals object as it is left next to the value returned. *)

Section Bodies.

Variable call : evaluator -> locals -> value -> value -> cursor -> M (value * locals).

(** The loops of the source ([while (typeof part !== 'string')]) run for
    at most [fuel] rounds. *)
Variable fuel : nat.

Definition undefined : cursor := CVal VUndef.

(** [node.args.forEach(function(arg, i) { locals[arg.name] = args[i]; })];
    a parameter named "__proto__" would set the prototype of [locals]. *)
Fixpoint bind_args (names : list string) (args : locals) (i : nat)
    (locals0 : locals) : M locals :=
  match names with
  | [] => ret locals0
  | name :: rest =>
      if bool_decide (name = "__proto__"%string) then host
      else
        do v <- of_option (locals_get args (pretty i));
        bind_args rest args (S i) (locals_set locals0 name v)
  end.

(** The function [Macro] returns, [function(args, env, data)]; [args] is
    whatever object the caller passes first. *)
Definition macro (m : Macro) (args : locals) (env data : value) : M value :=
  match mac_args m with
  | None => throw (TypeError NoProperties)
  | Some names =>
      do locals0 <- bind_args names args 0 empty_locals;
      match mac_expression m with
      | blank => throw (TypeError NotAFunction)
      | expression =>
          do (v, _) <- call expression locals0 env data undefined;
          ret v
      end
  end.

(** [f(locals, env, data, index)] for whatever value [f] is. *)
Definition invoke (f : value) (l : locals) (env data : value) (index : cursor)
  : M (value * locals) :=
  match f with
  | VExpr blank => throw (TypeError NotAFunction)
  | VExpr e => call e l env data index
  | VMacro m => do v <- macro m l env data; ret (v, l)
  | VBuiltin _ => if is_function f then host else throw (TypeError NotAFunction)
  | _ => throw (TypeError NotAFunction)
  end.

(** *** Entity, the methods a closure reaches *)

Definition Entity__get (this : Entity) (l : locals) (env data : value)
    (index : cursor) : M (value * locals) :=
  let index := match index with
               | CVal VUndef => CRef (ent_index this)
               | _ => index
               end in
  let l := locals_set l "__this__" (VEntity this) in
  invoke (VExpr (ent_value this)) l env data index.

Definition Entity__yield (this : Entity) (l : locals) (env data : value)
    (index : cursor) : M (value * locals) :=
  let l := locals_set l "__resolve__" (VBool false) in
  Entity__get this l env data index.

Definition Entity__resolve (this : Entity) (l : locals) (env data : value)
    (index : cursor) : M (value * locals) :=
  let l := locals_set l "__resolve__" (VBool true) in
  Entity__get this l env data index.

(** *** Attribute *)

Definition Attribute_yield (this : Attribute) (l : locals) (env data : value)
    (key : value) : M (value * locals) :=
  invoke (VExpr (attr_value this)) l env data (CVal key).

(** [o.index], the cursor it makes. *)
Definition index_field (o : value) : M cursor :=
  match o with
  | VEntity e => ret (CRef (ent_index e))
  | VUndef | VNull => throw (TypeError NoProperties)
  | VObj props => ret (CVal (obj_get props "index"))
  | VBuiltin _ => host
  | _ => ret undefined
  end.

Fixpoint Attribute_get_loop (n : nat) (r : value) (l : locals)
    (env data : value) (index : cursor) : M value :=
  match r with
  | VStr _ => ret r
  | _ =>
      match n with
      | O => timeout
      | S n' =>
          do (key, index) <- shift index;
          do (r, l) <- invoke r l env data (CVal key);
          Attribute_get_loop n' r l env data index
      end
  end.

Definition Attribute_get (this : Attribute) (l : locals) (env data : value)
    (index : cursor) : M value :=
  do index <- match index with
              | CVal VUndef =>
                  do this <- of_option (locals_get l "__this__");
                  index_field this
              | _ => ret index
              end;
  do (key, index) <- shift index;
  do (r, l) <- Attribute_yield this l env data key;
  Attribute_get_loop fuel r l env data index.

Definition this_locals (this : Entity) : locals :=
  locals_set empty_locals "__this__" (VEntity this).

Definition Entity_getAttribute (this : Entity) (name : value)
    (env data : value) : M value :=
  do k <- of_option (to_key name);
  match assoc_get (ent_attributes this) k with
  | Some attr => Attribute_get attr (this_locals this) env data undefined
  | None =>
      match inherited Object_prototype k with
      | VUndef => throw (TypeError NoProperties)
      | _ => throw (TypeError NotAFunction)
      end
  end.

(** *** Primary expressions *)

Definition identifier_body (name : string) (l : locals) (env data : value)
  : M (value * locals) :=
  do v <- get_prop env name; ret (v, l).

Definition thisIdentifier_body (l : locals) : M (value * locals) :=
  do v <- of_option (locals_get l "__this__"); ret (v, l).

Definition variable_body (name : string) (l : locals) (env data : value)
  : M (value * locals) :=
  do value <- of_option (locals_get l name);
  match value with
  | VUndef => do v <- get_prop data name; ret (v, l)
  | v => ret (v, l)
  end.

Definition global_body (name : string) (l : locals) (env data : value)
  : M (value * locals) :=
  do globals <- get_prop env "GLOBALS";
  do v <- get_prop globals name;
  ret (v, l).

(** [if (typeof key == 'function') key = key(locals, env, data);] *)
Definition force_key (key : value) (l : locals) (env data : value)
  : M (value * locals) :=
  if is_function key then invoke key l env data undefined else ret (key, l).

(** [if (key && content[key]) member = content[key];
     else member = content[defaultKey];] over the lookup [get]. *)
Definition select (get : string -> option value) (key : value)
    (defaultKey : string) : M value :=
  if truthy key then
    do k <- of_option (to_key key);
    do member <- of_option (get k);
    if truthy member then ret member else of_option (get defaultKey)
  else of_option (get defaultKey).

(** [if (locals.__resolve__) return member(locals, env, data, index);
     else return member;] *)
Definition resolve_or_yield (member : value) (l : locals) (env data : value)
    (index : cursor) : M (value * locals) :=
  do flag <- of_option (locals_get l "__resolve__");
  if truthy flag
  then invoke member l env data index
  else ret (member, l).

Definition arrayLiteral_body (content : list evaluator) (defaultKey : nat)
    (l : locals) (env data : value) (index : cursor) : M (value * locals) :=
  do (key, index) <- shift index;
  do (key, l) <- force_key key l env data;
  do member <- select (array_get content) key (pretty defaultKey);
  resolve_or_yield member l env data index.

Definition hashLiteral_body (content : list (string * evaluator))
    (defaultKey : string) (l : locals) (env data : value) (index : cursor)
  : M (value * locals) :=
  let index := if cursor_truthy index then index else COwn [] in
  do (key, index) <- shift index;
  do (key, l) <- force_key key l env data;
  do member <- select (hash_get content) key defaultKey;
  resolve_or_yield member l env data index.

(** [while (typeof part !== 'string') ...] *)
Fixpoint drive (n : nat) (part : value) (l : locals) (env data : value)
  : M (string * locals) :=
  match part with
  | VStr s => ret (s, l)
  | _ =>
      match n with
      | O => timeout
      | S n' =>
          do (part, l) <- match part with
                           | VEntity e => Entity__resolve e l env data undefined
                           | _ => invoke part l env data undefined
                           end;
          drive n' part l env data
      end
  end.

(** [content.forEach(function(elem) { ... parts.push(part); })] *)
Fixpoint parts_of (content : list evaluator) (l : locals) (env data : value)
  : M (list string * locals) :=
  match content with
  | [] => ret ([], l)
  | elem :: rest =>
      do (part, l) <- invoke (VExpr elem) l env data undefined;
      do (part, l) <- drive fuel part l env data;
      do (parts, l) <- parts_of rest l env data;
      ret (part :: parts, l)
  end.

Definition join (parts : list string) : string :=
  foldr String.append ""%string parts.

Definition complexString_body (dirty : nat) (content : list evaluator)
    (l : locals) (env data : value) : M (value * locals) :=
  fun s =>
    if dirty_of s dirty then Throw RecursiveReference s
    else
      (do (parts, l) <- parts_of content l env data;
       fun s' => Ok (VStr (join parts), l) (set_dirty dirty false s'))
        (set_dirty dirty true s).

(** *** Logical expressions *)

Definition unaryExpression_body (operator : option unary_op)
    (operand : evaluator) (l : locals) (env data : value)
  : M (value * locals) :=
  do (v, l) <- invoke (VExpr operand) l env data undefined;
  match operator with
  | None => throw (TypeError NotAFunction)
  | Some op => do r <- of_option (apply_unary op v); ret (r, l)
  end.

Definition binaryExpression_body (left : evaluator)
    (operator : option binary_op) (right : evaluator)
    (l : locals) (env data : value) : M (value * locals) :=
  do (x, l) <- invoke (VExpr left) l env data undefined;
  do (y, l) <- invoke (VExpr right) l env data undefined;
  match operator with
  | None => throw (TypeError NotAFunction)
  | Some op => do r <- of_option (apply_binary op x y); ret (r, l)
  end.

Definition logicalExpression_body (left : evaluator)
    (operator : option logical_op) (right : evaluator)
    (l : locals) (env data : value) : M (value * locals) :=
  do (x, l) <- invoke (VExpr left) l env data undefined;
  do (y, l) <- invoke (VExpr right) l env data undefined;
  match operator with
  | None => throw (TypeError NotAFunction)
  | Some op => let _ := apply_logical op x y in ret (VUndef, l)
  end.

Definition conditionalExpression_body (test consequent alternate : evaluator)
    (l : locals) (env data : value) : M (value * locals) :=
  do (t, l) <- invoke (VExpr test) l env data undefined;
  if truthy t
  then invoke (VExpr consequent) l env data undefined
  else invoke (VExpr alternate) l env data undefined.

(** *** Member expressions *)

Fixpoint resolve_args (args : list evaluator) (l : locals) (env data : value)
  : M (list value * locals) :=
  match args with
  | [] => ret ([], l)
  | arg :: rest =>
      do (v, l) <- invoke (VExpr arg) l env data undefined;
      do (vs, l) <- resolve_args rest l env data;
      ret (v :: vs, l)
  end.

Definition callExpression_body (callee : evaluator) (args : list evaluator)
    (l : locals) (env data : value) : M (value * locals) :=
  do (resolved_args, l) <- resolve_args args l env data;
  do (f, l) <- invoke (VExpr callee) l env data undefined;
  do (v, _) <- invoke f (locals_of_array resolved_args) env data undefined;
  ret (v, l).

Definition value_of_member (m : member) : value :=
  match m with
  | Computed e => VExpr e
  | Named (Some name) => VStr name
  | Named None => VUndef
  end.

Definition propertyExpression_body (expression : evaluator)
    (property : member) (l : locals) (env data : value)
  : M (value * locals) :=
  do (r, l) <- invoke (VExpr expression) l env data undefined;
  match r with
  | VEntity e => Entity__yield e l env data (COwn [value_of_member property])
  | VAttribute _ => throw (TypeError NotAFunction)
  | _ => invoke r l env data (COwn [value_of_member property])
  end.

Definition attributeExpression_body (expression : evaluator)
    (attribute : member) (l : locals) (env data : value)
  : M (value * locals) :=
  do (entity, l) <- invoke (VExpr expression) l env data undefined;
  match entity with
  | VEntity e =>
      do v <- Entity_getAttribute e (value_of_member attribute) env data;
      ret (v, l)
  | VUndef | VNull => throw (TypeError NoProperties)
  | VObj props =>
      match props !! "getAttribute"%string with
      | None => throw (TypeError NotAFunction)
      | Some _ => host
      end
  | VBuiltin _ => host
  | _ => throw (TypeError NotAFunction)
  end.

(** The body of each compiled closure. *)
Definition body (e : evaluator) (l : locals) (env data : value)
    (index : cursor) : M (value * locals) :=
  match e with
  | blank => throw (TypeError NotAFunction)
  | identifier name => identifier_body name l env data
  | thisIdentifier => thisIdentifier_body l
  | variable name => variable_body name l env data
  | global name => global_body name l env data
  | numberLiteral content => ret (value_of_constant content, l)
  | stringLiteral content => ret (value_of_constant content, l)
  | arrayLiteral content defaultKey =>
      arrayLiteral_body content defaultKey l env data index
  | hashLiteral content defaultKey =>
      hashLiteral_body content defaultKey l env data index
  | complexString dirty content => complexString_body dirty content l env data
  | unaryExpression operator operand =>
      unaryExpression_body operator operand l env data
  | binaryExpression lhs operator rhs =>
      binaryExpression_body lhs operator rhs l env data
  | logicalExpression lhs operator rhs =>
      logicalExpression_body lhs operator rhs l env data
  | conditionalExpression test consequent alternate =>
      conditionalExpression_body test consequent alternate l env data
  | callExpression callee args => callExpression_body callee args l env data
  | propertyExpression expression property =>
      propertyExpression_body expression property l env data
  | attributeExpression expression attribute =>
      attributeExpression_body expression attribute l env data
  end.

(** *** Entity, the public methods *)

Definition Entity_get (this : Entity) (env data : value) (index : cursor)
  : M value :=
  do (v, _) <- Entity__resolve this empty_locals env data index;
  ret v.

(** The keys of an object in the order [for (var i in o)] visits them
    (ECMAScript 2020, OrdinaryOwnPropertyKeys and
    EnumerateObjectProperties): the keys that are array indices,
    ascending, then the others as they were created. *)
Fixpoint insert_index {A} (n : nat) (p : string * A)
    (l : list (nat * (string * A))) : list (nat * (string * A)) :=
  match l with
  | [] => [(n, p)]
  | (m, q) :: r =>
      if (n <=? m)%nat then (n, p) :: l else (m, q) :: insert_index n p r
  end.

Definition index_keys {A} (o : list (string * A)) : list (nat * (string * A)) :=
  foldr (fun p acc => match index_of_key p.1 with
                      | Some n => insert_index n p acc
                      | None => acc
                      end) [] o.

Definition for_in {A} (o : list (string * A)) : list (string * A) :=
  (index_keys o).*2
  ++ filter (fun p => index_of_key p.1 = None) o.

(** The body of [for (var i in this.attributes)], over the keys still to
    visit. *)
Fixpoint each_attribute (this : Entity) (todo : list (string * Attribute))
    (env data : value) (attrs : gmap string value) : M (gmap string value) :=
  match todo with
  | [] => ret attrs
  | (_, attr) :: rest =>
      do v <- Attribute_get attr (this_locals this) env data undefined;
      each_attribute this rest env data (<[attr_id attr := v]> attrs)
  end.

Definition Entity_getAttributes (this : Entity) (env data : value)
  : M (gmap string value) :=
  each_attribute this (for_in (ent_attributes this)) env data ∅.

Definition Entity_getEntity (this : Entity) (env data : value) : M value :=
  do v <- Entity_get this env data undefined;
  do attrs <- Entity_getAttributes this env data;
  ret (VObj (<["value"%string := v]> {["attributes"%string := VObj attrs]})).

End Bodies.

(** [call fuel e locals env data index]: the invocation of a compiled
    closure, nested at most [fuel] calls deep. *)
Fixpoint call (fuel : nat) (e : evaluator) (l : locals) (env data : value)
    (index : cursor) : M (value * locals) :=
  match fuel with
  | O => timeout
  | S n => body (call n) n e l env data index
  end.
Arguments call : simpl never.

(** The public operations of an entity, and a macro invoked from outside. *)
Definition get (fuel : nat) := Entity_get (call fuel).
Definition getAttribute (fuel : nat) := Entity_getAttribute (call fuel) fuel.
Definition getAttributes (fuel : nat) := Entity_getAttributes (call fuel) fuel.
Definition getEntity (fuel : nat) := Entity_getEntity (call fuel) fuel.
Definition Macro_call (fuel : nat) := macro (call fuel).

(** ** Compilation

    The constructors of the source, run in [M] because they allocate: a
    [dirty] variable for each interpolated string, an [index] array for each
    entity. *)

Definition alloc_dirty : M nat := fun s =>
  Ok (st_next s)
     (mkStore (<[st_next s := false]> (st_dirty s)) (st_arrays s) (S (st_next s))).

Definition alloc_array : M nat := fun s =>
  Ok (st_next s)
     (mkStore (st_dirty s) (<[st_next s := []]> (st_arrays s)) (S (st_next s))).

Definition push (a : nat) (v : value) : M unit := fun s =>
  Ok tt (set_array a (array_of s a ++ [v]) s).

(** The keys of the dispatch table. *)
Definition EXPRESSION_TYPES : list string :=
  [ "identifier"; "this"; "variable"; "global"; "number"; "string"; "array";
    "hash"; "complexString"; "keyValuePair"; "unaryExpression";
    "binaryExpression"; "logicalExpression"; "conditionalExpression";
    "callExpression"; "propertyExpression"; "attributeExpression" ]%string.

(** [new EXPRESSION_TYPES[type](node)] on a node with no field but its tag:
    every field the constructor reads is undefined.  Off the table, the
    lookup finds what an object literal inherits: [Object] under
    "constructor", and [new Object(node)] is the node itself, an object that
    is not callable, which [blank] stands for; a built-in that is no
    constructor under the other inherited names; nothing elsewhere. *)
Definition Expression_bare (type : string) : M evaluator :=
  if bool_decide (type ∈ EXPRESSION_TYPES) then
    if bool_decide (type = "identifier"%string) then ret (identifier "undefined")
    else if bool_decide (type = "this"%string) then ret thisIdentifier
    else if bool_decide (type = "variable"%string) then ret (variable "undefined")
    else if bool_decide (type = "global"%string) then ret (global "undefined")
    else if bool_decide (type = "number"%string) then ret (numberLiteral KUndefined)
    else if bool_decide (type = "string"%string) then ret (stringLiteral KUndefined)
    else if bool_decide (type = "keyValuePair"%string) then ret blank
    else if bool_decide (type = "unaryExpression"%string)
      then ret (unaryExpression None blank)
    else if bool_decide (type = "binaryExpression"%string)
      then ret (binaryExpression blank None blank)
    else if bool_decide (type = "logicalExpression"%string) then ret blank
    else if bool_decide (type = "conditionalExpression"%string)
      then ret (conditionalExpression blank blank blank)
    else throw (TypeError NoProperties)
  else if bool_decide (type = "constructor"%string) then ret blank
  else throw (TypeError NotAConstructor).

(** [node.operator] is truthy. *)
Definition operator_given (operator : option string) : option string :=
  match operator with
  | Some token => if bool_decide (token = ""%string) then None else Some token
  | None => None
  end.

(** [content[id] = e] on the array a hash literal fills. *)
Definition hash_set (content : list (string * evaluator)) (id : string)
    (e : evaluator) : M (list (string * evaluator)) :=
  if bool_decide (id = "length"%string) then throw RangeError
  else if bool_decide (id = "__proto__"%string) then host
  else ret (assoc_set content id e).

(** The loops of the constructors, over the compiler [Expression] they call
    back into. *)
Section Constructors.

Variable Expression : node -> M evaluator.

(** [elem.default] and [elem.id]: a TypeError off an element that is
    null. *)
Definition read_default (elem : element) : M bool :=
  if is_null (elem_node elem) then throw (TypeError NoProperties)
  else ret (elem_default elem).

Definition read_id (elem : element) : M string :=
  if is_null (elem_node elem) then throw (TypeError NoProperties)
  else ret (key_of_id (elem_id elem)).

(** [node.content.forEach(function(elem, i) { content.push(new
    Expression(elem)); if (elem.default) defaultKey = i; })] *)
Fixpoint ArrayLiteral_each (elems : list element) (i : nat)
    (content : list evaluator) (defaultKey : nat) : M evaluator :=
  match elems with
  | [] => ret (arrayLiteral content defaultKey)
  | elem :: rest =>
      do e <- Expression (elem_node elem);
      do marked <- read_default elem;
      ArrayLiteral_each rest (S i) (content ++ [e])
        (if marked then i else defaultKey)
  end.

(** [node.content.forEach(function(elem, i) { content[elem.id] = new
    Expression(elem); if (i == 0 || elem.default) defaultKey = elem.id; })] *)
Fixpoint HashLiteral_each (elems : list element) (i : nat)
    (content : list (string * evaluator)) (defaultKey : string)
  : M evaluator :=
  match elems with
  | [] => ret (hashLiteral content defaultKey)
  | elem :: rest =>
      do id <- read_id elem;
      do e <- Expression (elem_node elem);
      do content <- hash_set content id e;
      HashLiteral_each rest (S i) content
        (if (i =? 0)%nat || elem_default elem then id else defaultKey)
  end.

(** [elems.forEach(function(elem) { content.push(new Expression(elem)); })] *)
Fixpoint Expression_each (elems : list node) : M (list evaluator) :=
  match elems with
  | [] => ret []
  | elem :: rest =>
      do e <- Expression elem;
      do es <- Expression_each rest;
      ret (e :: es)
  end.

(** [function ArrayLiteral(node)] and its siblings, on the fields of the
    node. *)
Definition ArrayLiteral (content : list element) : M evaluator :=
  ArrayLiteral_each content 0%nat [] 0%nat.

Definition HashLiteral (content : list element) : M evaluator :=
  HashLiteral_each content 0%nat [] "null"%string.

Definition ComplexString (content : list node) : M evaluator :=
  do dirty <- alloc_dirty;
  do content <- Expression_each content;
  ret (complexString dirty content).

Definition KeyValuePair (value : node) : M evaluator := Expression value.

Definition UnaryExpression (operator : string) (operand : node) : M evaluator :=
  do operand <- Expression operand;
  ret (unaryExpression (UnaryOperator operator) operand).

Definition BinaryExpression (lhs : node) (operator : string) (rhs : node)
  : M evaluator :=
  do lhs <- Expression lhs;
  do rhs <- Expression rhs;
  ret (binaryExpression lhs (BinaryOperator operator) rhs).

Definition LogicalExpression (lhs : node) (operator : option string)
    (rhs : node) : M evaluator :=
  do lhs <- Expression lhs;
  match operator_given operator with
  | Some token =>
      do rhs <- Expression rhs;
      ret (logicalExpression lhs (LogicalOperator token) rhs)
  | None => ret lhs
  end.

Definition ConditionalExpression (test consequent alternate : node)
  : M evaluator :=
  do test <- Expression test;
  do consequent <- Expression consequent;
  do alternate <- Expression alternate;
  ret (conditionalExpression test consequent alternate).

Definition CallExpression (callee : node) (arguments : list node)
  : M evaluator :=
  do callee <- Expression callee;
  do args <- Expression_each arguments;
  ret (callExpression callee args).

(** [if (computed) var property = new Expression(node.property);
     else var property = node.property.name;] *)
Definition member_of (computed : bool) (property : node) : M member :=
  if computed then
    do property <- Expression property;
    ret (Computed property)
  else
    match property with
    | NNull => throw (TypeError NoProperties)
    | _ => ret (Named (node_name property))
    end.

Definition PropertyExpression (expression : node) (computed : bool)
    (property : node) : M evaluator :=
  do expression <- Expression expression;
  do property <- member_of computed property;
  ret (propertyExpression expression property).

Definition AttributeExpression (expression : node) (computed : bool)
    (attribute : node) : M evaluator :=
  do expression <- Expression expression;
  do attribute <- member_of computed attribute;
  ret (attributeExpression expression attribute).

End Constructors.

(** [function Expression(node)], called through [new]: the dispatch on
    [node.type].  The primary expressions, whose constructors only close
    over the node, are written in place. *)
Fixpoint Expression (n : node) : M evaluator :=
  match n with
  | NNull => ret blank
  | NBare type => Expression_bare type
  | NIdentifier name => ret (identifier name)
  | NThis => ret thisIdentifier
  | NVariable name => ret (variable name)
  | NGlobal name => ret (global name)
  | NNumber content => ret (numberLiteral (KNumber content))
  | NString content => ret (stringLiteral (KString content))
  | NArray content => ArrayLiteral Expression content
  | NHash content => HashLiteral Expression content
  | NComplexString content => ComplexString Expression content
  | NKeyValuePair value => KeyValuePair Expression value
  | NUnaryExpression operator operand =>
      UnaryExpression Expression operator operand
  | NBinaryExpression lhs operator rhs =>
      BinaryExpression Expression lhs operator rhs
  | NLogicalExpression lhs operator rhs =>
      LogicalExpression Expression lhs operator rhs
  | NConditionalExpression test consequent alternate =>
      ConditionalExpression Expression test consequent alternate
  | NCallExpression callee arguments =>
      CallExpression Expression callee arguments
  | NPropertyExpression expression computed property =>
      PropertyExpression Expression expression computed property
  | NAttributeExpression expression computed attribute =>
      AttributeExpression Expression expression computed attribute
  end.

Definition new_Attribute (n : attr_node) : M Attribute :=
  do v <- Expression (an_value n);
  ret (mkAttribute (an_id n) (an_local n) v).

Fixpoint push_index (a : nat) (index : list node) : M unit :=
  match index with
  | [] => ret tt
  | ind :: rest =>
      do e <- Expression ind;
      do _ <- push a (VExpr e);
      push_index a rest
  end.

Fixpoint set_attributes (attrs : list attr_node)
    (attributes : list (string * Attribute)) : M (list (string * Attribute)) :=
  match attrs with
  | [] => ret attributes
  | attr :: rest =>
      do a <- new_Attribute attr;
      if bool_decide (an_id attr = "__proto__"%string) then host
      else set_attributes rest (assoc_set attributes (an_id attr) a)
  end.

Definition new_Entity (id : string) (value : node) (index : list node)
    (attrs : list attr_node) (local : bool) : M Entity :=
  do v <- Expression value;
  do a <- alloc_array;
  do _ <- push_index a index;
  do attributes <- set_attributes attrs [];
  ret (mkEntity id v a attributes local).

Definition new_Macro (args : list string) (expression : node) : M Macro :=
  do e <- Expression expression;
  ret (mkMacro (Some args) e).

(** [obj[id] = v] on the caller's object. *)
Definition obj_set (obj : gmap string value) (id : string) (v : value)
  : M (gmap string value) :=
  if bool_decide (id = "__proto__"%string) then host
  else ret (<[id := v]> obj).

(** [compile(ast, obj)]: the object [obj] as the loop leaves it. *)
Fixpoint compile (ast : list definition) (obj : gmap string value)
  : M (gmap string value) :=
  match ast with
  | [] => ret obj
  | DFalsy :: _ => ret obj
  | DEntity id value index attrs local :: rest =>
      do e <- new_Entity id value index attrs local;
      do obj <- obj_set obj id (VEntity e);
      compile rest obj
  | DMacro id args expression :: rest =>
      do m <- new_Macro args expression;
      do obj <- obj_set obj id (VMacro m);
      compile rest obj
  | DOther type id :: rest =>
      if bool_decide (type = "entity"%string) then throw (TypeError NoProperties)
      else if bool_decide (type = "macro"%string) then
        do obj <- obj_set obj (key_of_id id) (VMacro (mkMacro None blank));
        compile rest obj
      else compile rest obj
  end.

Definition empty_store : store := mkStore ∅ ∅ 0.

(** ** Notions the statements use *)

(** The member a compiled array or hash literal selects under a forced
    key; nothing else selects. *)
Definition selected (e : evaluator) (key : value) : M value :=
  match e with
  | arrayLiteral content defaultKey =>
      select (array_get content) key (pretty defaultKey)
  | hashLiteral content defaultKey => select (hash_get content) key defaultKey
  | _ => host
  end.

(** The cursor a literal shifts: a hash literal first replaces a falsy
    [index] by a fresh empty array. *)
Definition entry_index (e : evaluator) (index : cursor) : cursor :=
  match e with
  | hashLiteral _ _ => if cursor_truthy index then index else COwn []
  | _ => index
  end.

(** The property name [elem.id] stores a branch under. *)
Definition elem_key (e : element) : string := key_of_id (elem_id e).

(** An element with no [default] mark. *)
Definition unmarked (e : element) : Prop := elem_default e = false.

(** [e] is what [new Expression(elem)] built in some store. *)
Definition compiled_from (E : node -> M evaluator) (el : element) (e : evaluator)
  : Prop :=
  exists s s', E (elem_node el) s = Ok e s'.

(** A part of an interpolated string that is a literal span. *)
Definition is_text (e : evaluator) : Prop :=
  exists s, e = stringLiteral (KString s).

(** A property name that starts with a decimal digit. *)
Definition head_is_digit (k : string) : Prop :=
  match k with
  | String c _ => digit c <> None
  | EmptyString => False
  end.

(** The key [compile] stores a top-level entry under, if it stores it: the
    [id] of an entity or macro entry. *)
Definition definition_key (d : definition) : option string :=
  match d with
  | DFalsy => None
  | DOther type id =>
      if bool_decide (type = "macro"%string) then Some (key_of_id id) else None
  | DEntity id _ _ _ _ => Some id
  | DMacro id _ _ => Some id
  end.

(** What [compile] builds from one entry: [new Entity(elem)] or
    [new Macro(elem)], nothing for any other entry. *)
Definition new_definition (d : definition) : M (option value) :=
  match d with
  | DFalsy => ret None
  | DOther type id =>
      if bool_decide (type = "entity"%string) then throw (TypeError NoProperties)
      else if bool_decide (type = "macro"%string)
      then ret (Some (VMacro (mkMacro None blank)))
      else ret None
  | DEntity id value index attrs local =>
      do e <- new_Entity id value index attrs local; ret (Some (VEntity e))
  | DMacro id args expression =>
      do m <- new_Macro args expression; ret (Some (VMacro m))
  end.

(** One round of the loop of [compile]. *)
Definition insert_definition (d : definition) (obj : gmap string value)
  : M (gmap string value) :=
  do v <- new_definition d;
  match v, definition_key d with
  | Some v, Some id => obj_set obj id v
  | _, _ => ret obj
  end.

(** An id a hash literal can store a branch under as an ordinary property
    of its content array. *)
Definition storable (id : option string) : bool :=
  negb (bool_decide (key_of_id id = "length"%string))
  && negb (bool_decide (key_of_id id = "__proto__"%string)).

(** A tree every node of which carries the fields of its kind: no bare
    node, no element of an array or hash literal that is null, no branch
    of a hash literal under an id that is not [storable], and a property or
    attribute node wherever a member expression that is not computed reads
    its name.  Any other child may be absent. *)
Fixpoint well_formed (n : node) : bool :=
  match n with
  | NNull => true
  | NBare _ => false
  | NIdentifier _ | NThis | NVariable _ | NGlobal _ | NNumber _ | NString _ => true
  | NArray content =>
      forallb (fun e => well_formed (elem_node e)
                        && negb (is_null (elem_node e))) content
  | NHash content =>
      forallb (fun e => well_formed (elem_node e)
                        && negb (is_null (elem_node e))
                        && storable (elem_id e)) content
  | NComplexString content => forallb well_formed content
  | NKeyValuePair value => well_formed value
  | NUnaryExpression _ operand => well_formed operand
  | NBinaryExpression lhs _ rhs => well_formed lhs && well_formed rhs
  | NLogicalExpression lhs operator rhs =>
      well_formed lhs
      && match operator_given operator with
         | Some _ => well_formed rhs
         | None => true
         end
  | NConditionalExpression test consequent alternate =>
      well_formed test && well_formed consequent && well_formed alternate
  | NCallExpression callee arguments =>
      well_formed callee && forallb well_formed arguments
  | NPropertyExpression expression computed property =>
      well_formed expression
      && (if computed then well_formed property else negb (is_null property))
  | NAttributeExpression expression computed attribute =>
      well_formed expression
      && (if computed then well_formed attribute else negb (is_null attribute))
  end.

(** Induction over nodes that reaches the nodes nested in lists. *)
Section node_induction.
Variable P : node -> Prop.
Hypothesis HNull : P NNull.
Hypothesis HBare : forall type, P (NBare type).
Hypothesis HIdentifier : forall name, P (NIdentifier name).
Hypothesis HThis : P NThis.
Hypothesis HVariable : forall name, P (NVariable name).
Hypothesis HGlobal : forall name, P (NGlobal name).
Hypothesis HNumber : forall content, P (NNumber content).
Hypothesis HString : forall content, P (NString content).
Hypothesis HArray : forall content,
  Forall (fun e => P (elem_node e)) content -> P (NArray content).
Hypothesis HHash : forall content,
  Forall (fun e => P (elem_node e)) content -> P (NHash content).
Hypothesis HComplexString : forall content,
  Forall P content -> P (NComplexString content).
Hypothesis HKeyValuePair : forall value, P value -> P (NKeyValuePair value).
Hypothesis HUnary : forall operator operand,
  P operand -> P (NUnaryExpression operator operand).
Hypothesis HBinary : forall lhs operator rhs,
  P lhs -> P rhs -> P (NBinaryExpression lhs operator rhs).
Hypothesis HLogical : forall lhs operator rhs,
  P lhs -> P rhs -> P (NLogicalExpression lhs operator rhs).
Hypothesis HConditional : forall test consequent alternate,
  P test -> P consequent -> P alternate ->
  P (NConditionalExpression test consequent alternate).
Hypothesis HCall : forall callee arguments,
  P callee -> Forall P arguments -> P (NCallExpression callee arguments).
Hypothesis HProperty : forall expression computed property,
  P expression -> P property ->
  P (NPropertyExpression expression computed property).
Hypothesis HAttribute : forall expression computed attribute,
  P expression -> P attribute ->
  P (NAttributeExpression expression computed attribute).

Fixpoint node_induction (n : node) : P n :=
  match n with
  | NNull => HNull
  | NBare type => HBare type
  | NIdentifier name => HIdentifier name
  | NThis => HThis
  | NVariable name => HVariable name
  | NGlobal name => HGlobal name
  | NNumber content => HNumber content
  | NString content => HString content
  | NArray content =>
      HArray content
        ((fix each (l : list element) : Forall (fun e => P (elem_node e)) l :=
            match l with
            | [] => List.Forall_nil _
            | e :: r =>
                @List.Forall_cons _ (fun e => P (elem_node e)) e r
                  (match e return P (elem_node e) with
                   | Element _ _ elem => node_induction elem
                   end) (each r)
            end) content)
  | NHash content =>
      HHash content
        ((fix each (l : list element) : Forall (fun e => P (elem_node e)) l :=
            match l with
            | [] => List.Forall_nil _
            | e :: r =>
                @List.Forall_cons _ (fun e => P (elem_node e)) e r
                  (match e return P (elem_node e) with
                   | Element _ _ elem => node_induction elem
                   end) (each r)
            end) content)
  | NComplexString content =>
      HComplexString content
        ((fix each (l : list node) : Forall P l :=
            match l with
            | [] => List.Forall_nil _
            | e :: r => @List.Forall_cons _ P e r (node_induction e) (each r)
            end) content)
  | NKeyValuePair value => HKeyValuePair value (node_induction value)
  | NUnaryExpression operator operand =>
      HUnary operator operand (node_induction operand)
  | NBinaryExpression lhs operator rhs =>
      HBinary lhs operator rhs (node_induction lhs) (node_induction rhs)
  | NLogicalExpression lhs operator rhs =>
      HLogical lhs operator rhs (node_induction lhs) (node_induction rhs)
  | NConditionalExpression test consequent alternate =>
      HConditional test consequent alternate (node_induction test)
        (node_induction consequent) (node_induction alternate)
  | NCallExpression callee arguments =>
      HCall callee arguments (node_induction callee)
        ((fix each (l : list node) : Forall P l :=
            match l with
            | [] => List.Forall_nil _
            | e :: r => @List.Forall_cons _ P e r (node_induction e) (each r)
            end) arguments)
  | NPropertyExpression expression computed property =>
      HProperty expression computed property (node_induction expression)
        (node_induction property)
  | NAttributeExpression expression computed attribute =>
      HAttribute expression computed attribute (node_induction expression)
        (node_induction attribute)
  end.

End node_induction.

(** A value resolution can end in: neither an entity or an attribute
    still to be resolved nor a function still to be called. *)
Definition final (v : value) : bool :=
  match v with
  | VExpr _ | VEntity _ | VAttribute _ | VMacro _ | VBuiltin _ => false
  | _ => true
  end.

(** [new Expression(n)] throws nothing, whatever the store. *)
Definition compiles (E : node -> M evaluator) (n : node) : Prop :=
  forall s, exists e s', E n s = Ok e s'.

(** ** Programs the statements below run *)

(** The elements of the array literal ["one", "many"], and the literal
    compiled. *)
Definition plural_elems : list element :=
  [ Element None false (NString "one"); Element None false (NString "many") ].

Definition plural : evaluator :=
  arrayLiteral [ stringLiteral (KString "one");
                 stringLiteral (KString "many") ] 0.

(** An entity whose value is that literal, whose default index is [1], and
    which has one attribute, title: "Items". *)
Definition items_ast : list definition :=
  [ DEntity "items" (NArray plural_elems) [NNumber 1]
      [AttrNode "title" false (NString "Items")] false ]%string.

Definition items : Entity :=
  mkEntity "items" plural 0
    [("title"%string, mkAttribute "title" false (stringLiteral (KString "Items")))]
    false.

Definition items_store : store :=
  mkStore ∅ {[ 0%nat := [VExpr (numberLiteral (KNumber 1))] ]} 1.

(** The elements of the hash literal { one: "A" }. *)
Definition one_branch : list element :=
  [ Element (Some "one"%string) false (NKeyValuePair (NString "A")) ].

(** An entity whose value interpolates a variable: "Hello, { $name }". *)
Definition greeting_ast : list definition :=
  [ DEntity "greeting"
      (NComplexString [NString "Hello, "; NVariable "name"]) [] [] false ]%string.

Definition greeting : Entity :=
  mkEntity "greeting"
    (complexString 0 [stringLiteral (KString "Hello, "); variable "name"])
    1 [] false.

Definition greeting_store : store := mkStore {[ 0%nat := false ]} {[ 1%nat := [] ]} 2.

(** An entity whose value interpolates itself: "x{ self }". *)
Definition narcissus : Entity :=
  mkEntity "self"
    (complexString 0 [stringLiteral (KString "x"); identifier "self"])
    1 [] false.

Definition narcissus_store : store := mkStore {[ 0%nat := false ]} {[ 1%nat := [] ]} 2.

(** The logical expression ["a" || "b"]. *)
Definition either_ast : node :=
  NLogicalExpression (NString "a") (Some "||"%string) (NString "b").

Definition either : evaluator :=
  logicalExpression (stringLiteral (KString "a")) (Some orOperator)
                    (stringLiteral (KString "b")).

(** A unary expression whose operand is of no known kind. *)
Definition minus_bogus : node := NUnaryExpression "-" (NBare "bogus").

(** A macro of two parameters whose body is its second parameter:
    [macro(a, b) { $b }]. *)
Definition second_of_two : Macro :=
  mkMacro (Some ["a"; "b"]%string) (variable "b").

(** Two entities under one id, an entry of another kind between them; and
    the entity that follows the falsy entry the statements put after
    them. *)
Definition early : list definition :=
  [ DEntity "a" (NString "first") [] [] false;
    DOther "comment" None;
    DEntity "a" (NString "second") [] [] false ]%string.

Definition late : list definition :=
  [ DEntity "b" (NString "never") [] [] false ]%string.

Definition second_a : Entity :=
  mkEntity "a" (stringLiteral (KString "second")) 1 [] false.

Definition early_store : store := mkStore ∅ {[ 0%nat := []; 1%nat := [] ]} 2.

(** Locals as [_resolve] and [_yield] leave them on entry. *)
Definition resolving : locals := locals_set empty_locals "__resolve__" (VBool true).
Definition yielding : locals := locals_set empty_locals "__resolve__" (VBool false).

(** The empty object, for an [env] or [data] nothing is read from. *)
Definition no_data : value := VObj ∅.

(** ** Relations between the store before and after a run *)

(** [m] relates the store it starts in to the store it leaves: by [Rok]
    when it returns, by [Rthrow] when it throws. *)
Definition respects (Rok Rthrow : store -> store -> Prop) {A} (m : M A) : Prop :=
  forall s,
    match m s with
    | Ok _ s' => Rok s s'
    | Throw _ s' => Rthrow s s'
    | _ => True
    end.

(** Every [dirty] variable holds what it held. *)
Definition markers_kept (s s' : store) : Prop :=
  forall d, dirty_of s' d = dirty_of s d.

(** Every [dirty] variable that was set is still set. *)
Definition markers_grow (s s' : store) : Prop :=
  forall d, dirty_of s d = true -> dirty_of s' d = true.

(** Nothing was allocated, and every array is what is left of itself after
    some elements were shifted off its front. *)
Definition consumed (s s' : store) : Prop :=
  st_next s' = st_next s /\
  forall a, array_of s' a `suffix_of` array_of s a.

(** What a pair of relations must satisfy for every run to respect it:
    both hold of a store and itself, [Rok] composes with itself and with
    [Rthrow], [shift] is within [Rok], and so is the bracket
    [dirty = true; ...; dirty = false] around a run within [Rok], whereas a
    throw between the two assignments is within [Rthrow]. *)
Definition store_laws (Rok Rthrow : store -> store -> Prop) : Prop :=
  (forall s, Rok s s) /\
  (forall s, Rthrow s s) /\
  (forall s1 s2 s3, Rok s1 s2 -> Rok s2 s3 -> Rok s1 s3) /\
  (forall s1 s2 s3, Rok s1 s2 -> Rthrow s2 s3 -> Rthrow s1 s3) /\
  (forall a v rest s, array_of s a = v :: rest -> Rok s (set_array a rest s)) /\
  (forall d s s1, dirty_of s d = false ->
     (Rok (set_dirty d true s) s1 -> Rok s (set_dirty d false s1)) /\
     (Rthrow (set_dirty d true s) s1 -> Rthrow s s1)).

(** The run ended, by a return or by a throw, in the store [s']. *)
Definition leaves (A : Type) (o : outcome A) (s' : store) : Prop :=
  (exists a, o = Ok a s') \/ (exists e, o = Throw e s').
Arguments leaves {A} o s'.

(** The closure [e] returns the string [t] in whatever store it runs, and
    touches neither the store nor its locals. *)
Definition yields_text (fuel : nat) (l : locals) (env data : value)
    (e : evaluator) (t : string) : Prop :=
  forall s, call fuel e l env data undefined s = Ok (VStr t, l) s.

(** The literal [lit] holds the branch [e] under the property name [k]: at
    the position [k] spells, for an array; under the id [k], for a hash. *)
Definition declares (lit : evaluator) (k : string) (e : evaluator) : Prop :=
  match lit with
  | arrayLiteral content _ => exists i : nat, k = pretty i /\ content !! i = Some e
  | hashLiteral content _ => assoc_get content k = Some e
  | _ => False
  end.

(** A closure that selects among branches. *)
Definition is_selector (e : evaluator) : Prop :=
  match e with
  | arrayLiteral _ _ | hashLiteral _ _ => True
  | _ => False
  end.

(** The store after [shift] on the array at [a]. *)
Definition shifted (a : nat) (s : store) : store :=
  match array_of s a with
  | [] => s
  | _ :: rest => set_array a rest s
  end.

(** The store [s'] is [s] with fresh [dirty] variables, all clear, and
    nothing else: what compiling an expression does to the store. *)
Definition extends (s s' : store) : Prop :=
  (st_next s <= st_next s')%nat /\
  st_arrays s' = st_arrays s /\
  (forall d, (d < st_next s)%nat -> dirty_of s' d = dirty_of s d) /\
  (forall d, (st_next s <= d < st_next s')%nat -> dirty_of s' d = false).

(** The store [s'] agrees with [s] below the first free address of [s]:
    what compiling entries does to the store. *)
Definition grows (s s' : store) : Prop :=
  (st_next s <= st_next s')%nat /\
  (forall d, (d < st_next s)%nat -> dirty_of s' d = dirty_of s d) /\
  (forall a, (a < st_next s)%nat -> array_of s' a = array_of s a).

(** The store [s'] is [s] but for the array at [a], fresh [dirty]
    variables, and what lies at or above the first free address of [s]. *)
Definition pushes (a : nat) (s s' : store) : Prop :=
  (st_next s <= st_next s')%nat /\
  (forall d, (d < st_next s)%nat -> dirty_of s' d = dirty_of s d) /\
  (forall a', a' ≠ a -> array_of s' a' = array_of s a').

(** [e] is what [new Expression(n)] built in some store. *)
Definition built_from (n : node) (e : evaluator) : Prop :=
  exists s s', Expression n s = Ok e s'.

(** ** Further programs *)

(** The hash literal { one: "A", *other: "B" }. *)
Definition one_or_other : evaluator :=
  hashLiteral [ ("one"%string, stringLiteral (KString "A"));
                ("other"%string, stringLiteral (KString "B")) ] "other".

(** An entity with two attributes whose values select: title: ["one",
    "many"] and kind: { one: "A", *other: "B" }. *)
Definition titled : Entity :=
  mkEntity "titled" (stringLiteral (KString "x")) 0
    [ ("title"%string, mkAttribute "title" false plural);
      ("kind"%string, mkAttribute "kind" false one_or_other) ]
    false.

(** The store of an entity compiled with no index. *)
Definition bare_store : store := mkStore ∅ {[ 0%nat := [] ]} 1.

(** An entity whose value is that hash literal, compiled with no index. *)
Definition kinds : Entity := mkEntity "kinds" one_or_other 0 [] false.

(** Three entities: [a], the text "second"; [kinds], the hash literal
    { one: "A", *other: "B" }; and [pointer], the array literal
    [a, kinds.one].  Then what [compile] builds from them: the entities,
    the object that holds them, and the store. *)
Definition pointer_ast : list definition :=
  [ DEntity "a" (NString "second") [] [] false;
    DEntity "kinds"
      (NHash [ Element (Some "one"%string) false (NKeyValuePair (NString "A"));
               Element (Some "other"%string) true (NKeyValuePair (NString "B")) ])
      [] [] false;
    DEntity "pointer"
      (NArray [ Element None false (NIdentifier "a");
                Element None false
                  (NPropertyExpression (NIdentifier "kinds") false
                     (NIdentifier "one")) ])
      [] [] false ]%string.

Definition pointed : Entity :=
  mkEntity "a" (stringLiteral (KString "second")) 0 [] false.

Definition pointed_kinds : Entity := mkEntity "kinds" one_or_other 1 [] false.

Definition pointer : Entity :=
  mkEntity "pointer"
    (arrayLiteral
       [ identifier "a";
         propertyExpression (identifier "kinds") (Named (Some "one"%string)) ] 0)
    2 [] false.

Definition pointer_obj : gmap string value :=
  {[ "a"%string := VEntity pointed; "kinds"%string := VEntity pointed_kinds;
     "pointer"%string := VEntity pointer ]}.

Definition pointer_store : store :=
  mkStore ∅ {[ 0%nat := []; 1%nat := []; 2%nat := [] ]} 3.

(** * Properties *)

(** ** Specimen runs *)

Lemma items_compiled :
  compile items_ast ∅ empty_store
  = Ok {[ "items"%string := VEntity items ]} items_store.
Proof. vm_compute. reflexivity. Qed.

Lemma greeting_compiled :
  compile greeting_ast ∅ empty_store
  = Ok {[ "greeting"%string := VEntity greeting ]} greeting_store.
Proof. vm_compute. reflexivity. Qed.

Lemma greeting_resolves (n : nat) :
  get (2 + n) greeting no_data (VObj {[ "name"%string := VStr "World" ]})
      undefined greeting_store
  = Ok (VStr "Hello, World") greeting_store.
Proof. vm_compute. reflexivity. Qed.

Lemma items_by_index (n : nat) :
  get (2 + n) items no_data no_data (COwn [VNum 0]) items_store
    = Ok (VStr "one") items_store /\
  get (2 + n) items no_data no_data (COwn [VNum 1]) items_store
    = Ok (VStr "many") items_store.
Proof. split; vm_compute; reflexivity. Qed.

Lemma items_snapshot (n : nat) :
  getEntity (3 + n) items no_data no_data items_store
  = Ok (VObj {[ "value"%string := VStr "many";
                "attributes"%string := VObj {[ "title"%string := VStr "Items" ]} ]})
       (set_array (ent_index items) [] items_store).
Proof. vm_compute. reflexivity. Qed.

(** C3.  A compiled logical expression evaluates both operands, in order,
    and returns [undefined] whatever they are: the closure has no return
    statement, so the combined value is dropped.  The compiled ["a" || "b"]
    returns [undefined] where the operator gives ["a"]. *)
Theorem logicalExpression_returns_undefined (n : nat) (l : locals)
    (env data : value) (index : cursor) (s : store) :
  (forall lhs op rhs,
     call (S n) (logicalExpression lhs (Some op) rhs) l env data index s
     = (do (x, l1) <- invoke (call n) (VExpr lhs) l env data undefined;
        do (y, l2) <- invoke (call n) (VExpr rhs) l1 env data undefined;
        ret (VUndef, l2)) s) /\
  Expression either_ast s = Ok either s /\
  call (2 + n) either l env data index s = Ok (VUndef, l) s /\
  apply_logical orOperator (VStr "a") (VStr "b") = VStr "a".
Proof.
  split; [intros lhs op rhs; reflexivity|].
  split; [reflexivity | split; reflexivity].
Qed.

(** C4.  [get] with no index hands the entity's own [index] array to the
    array literal, whose [shift] empties it: the stored default index is
    consumed by the first call, and the second call resolves another
    branch.  An attribute lookup shifts the same array itself, whatever the
    attribute is. *)
Theorem get_consumes_default_index (n : nat) :
  let consumed := set_array (ent_index items) [] items_store in
  array_of items_store (ent_index items) = [VExpr (numberLiteral (KNumber 1))] /\
  array_of consumed (ent_index items) = [] /\
  get (3 + n) items no_data no_data undefined items_store
    = Ok (VStr "many") consumed /\
  get (3 + n) items no_data no_data undefined consumed
    = Ok (VStr "one") consumed /\
  getAttribute (3 + n) items (VStr "title") no_data no_data items_store
    = Ok (VStr "Items") consumed.
Proof. repeat split; vm_compute; reflexivity. Qed.

(** C5.  A [get] that fails inside an interpolated string leaves its marker
    set: nothing clears [dirty] when a part throws.  The same call made
    again fails otherwise, with "Recursive reference", and so does a call
    that would have succeeded. *)
Theorem failed_get_leaves_marker (n : nat) :
  let data := VObj {[ "name"%string := VNum 5 ]} in
  let stuck := set_dirty 0 true greeting_store in
  get (3 + n) greeting no_data data undefined greeting_store
    = Throw (TypeError NotAFunction) stuck /\
  dirty_of greeting_store 0 = false /\
  dirty_of stuck 0 = true /\
  get (3 + n) greeting no_data data undefined stuck
    = Throw RecursiveReference stuck /\
  get (3 + n) greeting no_data (VObj {[ "name"%string := VStr "World" ]})
      undefined stuck
    = Throw RecursiveReference stuck.
Proof. repeat split; vm_compute; reflexivity. Qed.

(** ** The outcome monad *)

Lemma bind_Ok {A B} (m : M A) (k : A -> M B) s a s' :
  m s = Ok a s' -> bind m k s = k a s'.
Proof. intros H. unfold bind. rewrite H. reflexivity. Qed.

Lemma bind_Throw {A B} (m : M A) (k : A -> M B) s e s' :
  m s = Throw e s' -> bind m k s = Throw e s'.
Proof. intros H. unfold bind. rewrite H. reflexivity. Qed.

Lemma bind_inv_Ok {A B} (m : M A) (k : A -> M B) s b s' :
  bind m k s = Ok b s' -> exists a s1, m s = Ok a s1 /\ k a s1 = Ok b s'.
Proof.
  unfold bind. destruct (m s) as [a s1| | |]; try discriminate.
  intros H. exists a, s1. split; [reflexivity | exact H].
Qed.

Lemma call_S (n : nat) (e : evaluator) (l : locals) (env data : value)
    (index : cursor) :
  call (S n) e l env data index = body (call n) n e l env data index.
Proof. reflexivity. Qed.

(** ** Array and hash literals *)

(** C6, as the code has it.  A compiled array or hash literal shifts its
    cursor, forces the key, selects a member, and then looks at
    [locals.__resolve__]: when the flag is clear the run ends there,
    yielding the selected member itself in the store the key left, so no
    branch has run; when the flag is set the run is one invocation of the
    selected member, and of that member only, on the rest of the cursor,
    and what that invocation returns is returned as it is. *)
Theorem resolve_mode_split (fuel : nat) (lit : evaluator) (l : locals)
    (env data : value) (index : cursor) (s : store) (key : value)
    (rest : cursor) (s1 : store) (key' : value) (l' : locals) (s2 : store)
    (member flag : value) :
  shift (entry_index lit index) s = Ok (key, rest) s1 ->
  force_key (call fuel) key l env data s1 = Ok (key', l') s2 ->
  selected lit key' s2 = Ok member s2 ->
  locals_get l' "__resolve__" = Some flag ->
  (truthy flag = false ->
     call (S fuel) lit l env data index s = Ok (member, l') s2) /\
  (truthy flag = true ->
     call (S fuel) lit l env data index s
     = invoke (call fuel) member l' env data rest s2).
Proof.
  intros Hshift Hkey Hmember Hflag.
  assert (call (S fuel) lit l env data index s
          = resolve_or_yield (call fuel) member l' env data rest s2) as ->.
  { rewrite call_S.
    destruct lit; try discriminate Hmember; simpl in Hmember, Hshift; simpl;
      [unfold arrayLiteral_body | unfold hashLiteral_body];
      rewrite (bind_Ok _ _ _ _ _ Hshift); simpl;
      rewrite (bind_Ok _ _ _ _ _ Hkey); simpl;
      rewrite (bind_Ok _ _ _ _ _ Hmember); reflexivity. }
  unfold resolve_or_yield. rewrite Hflag. cbn [of_option]. unfold bind, ret.
  split; intros ->; reflexivity.
Qed.

(** The array literal ["one", "many"] on the cursor [1]: yield mode returns
    the closure of "many", resolve mode its text. *)
Lemma resolve_mode_split_witness :
  shift (entry_index plural (COwn [VNum 1])) empty_store
    = Ok (VNum 1, COwn []) empty_store /\
  selected plural (VNum 1) empty_store
    = Ok (VExpr (stringLiteral (KString "many"))) empty_store /\
  (force_key (call 1) (VNum 1) yielding no_data no_data empty_store
     = Ok (VNum 1, yielding) empty_store /\
   locals_get yielding "__resolve__" = Some (VBool false) /\
   call 2 plural yielding no_data no_data (COwn [VNum 1]) empty_store
     = Ok (VExpr (stringLiteral (KString "many")), yielding) empty_store) /\
  (force_key (call 1) (VNum 1) resolving no_data no_data empty_store
     = Ok (VNum 1, resolving) empty_store /\
   locals_get resolving "__resolve__" = Some (VBool true) /\
   call 2 plural resolving no_data no_data (COwn [VNum 1]) empty_store
     = Ok (VStr "many", resolving) empty_store).
Proof.
  assert (Hshift : shift (entry_index plural (COwn [VNum 1])) empty_store
                   = Ok (VNum 1, COwn []) empty_store) by reflexivity.
  assert (Hmember : selected plural (VNum 1) empty_store
                    = Ok (VExpr (stringLiteral (KString "many"))) empty_store)
    by (vm_compute; reflexivity).
  assert (Hkey1 : force_key (call 1) (VNum 1) yielding no_data no_data
                    empty_store = Ok (VNum 1, yielding) empty_store)
    by reflexivity.
  assert (Hflag1 : locals_get yielding "__resolve__" = Some (VBool false))
    by (vm_compute; reflexivity).
  assert (Hkey2 : force_key (call 1) (VNum 1) resolving no_data no_data
                    empty_store = Ok (VNum 1, resolving) empty_store)
    by reflexivity.
  assert (Hflag2 : locals_get resolving "__resolve__" = Some (VBool true))
    by (vm_compute; reflexivity).
  split; [exact Hshift|]. split; [exact Hmember|]. split.
  - split; [exact Hkey1|]. split; [exact Hflag1|].
    exact (proj1 (resolve_mode_split 1 plural yielding no_data no_data
                    (COwn [VNum 1]) empty_store (VNum 1) (COwn []) empty_store
                    (VNum 1) yielding empty_store _ (VBool false)
                    Hshift Hkey1 Hmember Hflag1) eq_refl).
  - split; [exact Hkey2|]. split; [exact Hflag2|].
    rewrite (proj2 (resolve_mode_split 1 plural resolving no_data no_data
                      (COwn [VNum 1]) empty_store (VNum 1) (COwn []) empty_store
                      (VNum 1) resolving empty_store _ (VBool true)
                      Hshift Hkey2 Hmember Hflag2) eq_refl).
    reflexivity.
Defined.

(** C6 as stated fails: the flag set does not give a final value.  On
    the entity [pointer], whose value is the array literal of a reference
    to the entity [a] and of the property [one] of the entity [kinds],
    [get] selects a branch, invokes it once, and returns what the branch
    returned: the entity [a] itself, not its text, for the first branch;
    for the second, whose [_yield] clears the flag on the locals it shares,
    the closure of the branch "A" of [kinds], not called. *)
Lemma resolved_branch_not_final :
  compile pointer_ast ∅ empty_store = Ok pointer_obj pointer_store /\
  get 3 pointer (VObj pointer_obj) no_data undefined pointer_store
    = Ok (VEntity pointed) pointer_store /\
  final (VEntity pointed) = false /\
  get 4 pointer (VObj pointer_obj) no_data (COwn [VNum 1]) pointer_store
    = Ok (VExpr (stringLiteral (KString "A"))) pointer_store /\
  final (VExpr (stringLiteral (KString "A"))) = false.
Proof.
  split; [vm_compute; reflexivity|].
  split; [vm_compute; reflexivity|]. split; [reflexivity|].
  split; [vm_compute; reflexivity | reflexivity].
Qed.

(** ** Interpolated strings *)

Lemma dirty_of_set_dirty (d : nat) (b : bool) (s : store) :
  dirty_of (set_dirty d b s) d = b.
Proof. unfold dirty_of, set_dirty. simpl. rewrite lookup_insert_eq. reflexivity. Qed.

(** Literal spans ahead of a part that throws do not stop the throw. *)
Lemma parts_of_text_prefix (fuel k : nat) (pre rest : list evaluator)
    (l : locals) (env data : value) (s : store) (e : error) (s' : store) :
  Forall is_text pre ->
  parts_of (call (S fuel)) k rest l env data s = Throw e s' ->
  parts_of (call (S fuel)) k (pre ++ rest) l env data s = Throw e s'.
Proof.
  intros Hpre Hrest. induction Hpre as [|x pre [c ->] _ IH]; [exact Hrest|].
  simpl. unfold bind. rewrite call_S. simpl.
  destruct k; simpl; rewrite IH; reflexivity.
Qed.

(** C2.  An interpolated string guards its own evaluation with the [dirty]
    marker of its compiled node.  Entered with the marker set, it throws
    "Recursive reference" and touches nothing.  Entered with the marker
    clear, it runs its parts in the store where the marker is set, and
    clears the marker once they have all produced their text.  So an
    interpolated string one of whose parts resolves back to the entity it
    is the value of fails with "Recursive reference" at every fuel: it
    neither loops nor returns the text gathered so far. *)
Theorem complexString_reentrancy :
  (forall fuel d content l env data index s,
     dirty_of s d = true ->
     call (S fuel) (complexString d content) l env data index s
     = Throw RecursiveReference s) /\
  (forall fuel d content l env data index s,
     dirty_of s d = false ->
     dirty_of (set_dirty d true s) d = true /\
     call (S fuel) (complexString d content) l env data index s
     = match parts_of (call fuel) fuel content l env data (set_dirty d true s) with
       | Ok (parts, l') s' => Ok (VStr (join parts), l') (set_dirty d false s')
       | Throw e s' => Throw e s'
       | Host => Host
       | Timeout => Timeout
       end /\
     forall s', dirty_of (set_dirty d false s') d = false) /\
  (forall fuel this d pre name post o data index s,
     ent_value this = complexString d (pre ++ identifier name :: post) ->
     Forall is_text pre ->
     o !! name = Some (VEntity this) ->
     dirty_of s d = false ->
     get (S (S fuel)) this (VObj o) data index s
     = Throw RecursiveReference (set_dirty d true s)).
Proof.
  split; [|split].
  - intros fuel d content l env data index s Hd. rewrite call_S. simpl.
    unfold complexString_body. rewrite Hd. reflexivity.
  - intros fuel d content l env data index s Hd.
    split; [apply dirty_of_set_dirty|]. split; [|intros; apply dirty_of_set_dirty].
    rewrite call_S. simpl. unfold complexString_body. rewrite Hd. unfold bind.
    destruct (parts_of (call fuel) fuel content l env data (set_dirty d true s))
      as [[parts l'] s'| | |]; reflexivity.
  - intros fuel this d pre name post o data index s Hvalue Hpre Hname Hd.
    assert (Hin : forall l idx,
               call (S (S fuel)) (complexString d (pre ++ identifier name :: post))
                 l (VObj o) data idx s
               = Throw RecursiveReference (set_dirty d true s)).
    { intros l idx. rewrite call_S. simpl.
      unfold complexString_body. rewrite Hd. unfold bind.
      rewrite (parts_of_text_prefix fuel (S fuel) pre _ l (VObj o) data _
                 RecursiveReference (set_dirty d true s) Hpre); [reflexivity|].
      simpl. unfold bind. rewrite call_S. simpl.
      unfold identifier_body, bind, get_prop, ret, obj_get.
      rewrite Hname. simpl. unfold Entity__resolve, Entity__get, invoke.
      rewrite Hvalue. rewrite call_S. simpl. unfold complexString_body.
      rewrite dirty_of_set_dirty. reflexivity. }
    unfold get, Entity_get, Entity__resolve, Entity__get, bind, invoke.
    rewrite Hvalue.
    destruct index as [a|vs|[]]; rewrite Hin; reflexivity.
Qed.

(** The entity "x{ self }" resolved with itself in [env]. *)
Lemma complexString_reentrancy_witness :
  ent_value narcissus
    = complexString 0 ([stringLiteral (KString "x")] ++ identifier "self" :: []) /\
  Forall is_text [stringLiteral (KString "x")] /\
  ({[ "self"%string := VEntity narcissus ]} : gmap string value) !! "self"%string
    = Some (VEntity narcissus) /\
  dirty_of narcissus_store 0 = false /\
  get 2 narcissus (VObj {[ "self"%string := VEntity narcissus ]}) no_data
      undefined narcissus_store
  = Throw RecursiveReference (set_dirty 0 true narcissus_store).
Proof.
  assert (H1 : ent_value narcissus
    = complexString 0 ([stringLiteral (KString "x")] ++ identifier "self" :: []))
    by reflexivity.
  assert (H2 : Forall is_text [stringLiteral (KString "x")]).
  { constructor; [exists "x"%string; reflexivity | constructor]. }
  assert (H3 : ({[ "self"%string := VEntity narcissus ]} : gmap string value)
               !! "self"%string = Some (VEntity narcissus))
    by (vm_compute; reflexivity).
  assert (H4 : dirty_of narcissus_store 0 = false) by (vm_compute; reflexivity).
  split; [exact H1|]. split; [exact H2|]. split; [exact H3|]. split; [exact H4|].
  exact (proj2 (proj2 complexString_reentrancy) 0%nat narcissus 0%nat
           [stringLiteral (KString "x")] "self"%string [] _ no_data undefined
           narcissus_store H1 H2 H3 H4).
Defined.

(** ** Numerals as property names *)

Lemma pretty_N_char_digit (x : N) : digit (pretty_N_char x) <> None.
Proof. unfold pretty_N_char. repeat case_match; vm_compute; discriminate. Qed.

Lemma pretty_N_go_head (x : N) (s : string) :
  head_is_digit s -> head_is_digit (pretty_N_go x s).
Proof.
  revert s. induction (N.lt_wf_0 x) as [x _ IH]. intros s Hs.
  destruct (decide (x = 0)%N) as [->|Hx]; [exact Hs|].
  rewrite pretty_N_go_step by lia.
  apply IH; [apply N.div_lt; lia|]. simpl. apply pretty_N_char_digit.
Qed.

Lemma pretty_nat_head (n : nat) : head_is_digit (pretty n).
Proof.
  unfold pretty, pretty_nat, pretty, pretty_N.
  case_decide; [vm_compute; discriminate|].
  rewrite pretty_N_go_step by lia.
  apply pretty_N_go_head. simpl. apply pretty_N_char_digit.
Qed.

Lemma numeral_not_inherited (n : nat) :
  pretty n ≠ "length"%string /\ array_inherited (pretty n) = Some VUndef.
Proof.
  pose proof (pretty_nat_head n) as Hd.
  assert (Hall : Forall (fun k => ~ head_is_digit k)
                   ("length"%string :: Array_prototype ++ Array_prototype_later)).
  { repeat constructor; vm_compute; intros H; apply H; reflexivity. }
  rewrite Forall_forall in Hall.
  split.
  - intros E. apply (Hall (pretty n)); [rewrite E; left|exact Hd].
  - unfold array_inherited. case_bool_decide as Hin.
    { exfalso. apply (Hall (pretty n)); [|exact Hd].
      right. apply elem_of_app. left. exact Hin. }
    case_bool_decide as Hlater; [|reflexivity].
    exfalso. apply (Hall (pretty n)); [|exact Hd].
    right. apply elem_of_app. right. exact Hlater.
Qed.

Lemma list_to_map_numerals (args : list value) (k i : nat) :
  (list_to_map (imap (fun j v => (pretty (k + j)%nat, v)) args) : gmap string value)
    !! pretty (k + i)%nat = args !! i.
Proof.
  revert k i. induction args as [|a args IH]; intros k i; [reflexivity|].
  simpl. destruct i as [|i].
  - rewrite lookup_insert_eq. reflexivity.
  - rewrite lookup_insert_ne.
    + etrans; [|apply (IH (S k) i)].
      replace (S k + i)%nat with (k + S i)%nat by lia.
      f_equal. f_equal. apply imap_ext. intros j x _. simpl.
      replace (k + S j)%nat with (S (k + j)) by lia. reflexivity.
    + intros E. apply (inj pretty) in E. lia.
Qed.

Lemma locals_of_array_get (args : list value) (i : nat) :
  locals_get (locals_of_array args) (pretty i)
  = Some (default VUndef (args !! i)).
Proof.
  destruct (numeral_not_inherited i) as [Hlen Hinh].
  unfold locals_get, locals_of_array. simpl.
  rewrite lookup_insert_ne by (intros E; apply Hlen; symmetry; exact E).
  pose proof (list_to_map_numerals args 0 i) as Hget.
  cbn [Nat.add] in Hget. rewrite Hget.
  destruct (args !! i); [reflexivity | exact Hinh].
Qed.

(** Under a numeral every locals object holds a value: no edition gives
    arrays or objects a member under one. *)
Lemma locals_get_numeral (args : locals) (i : nat) :
  exists v, locals_get args (pretty i) = Some v.
Proof.
  unfold locals_get. destruct (l_props args !! pretty i) as [v|]; [eauto|].
  destruct (l_array args); [|eauto].
  exists VUndef. exact (proj2 (numeral_not_inherited i)).
Qed.

Lemma bind_args_lookup (names : list string) (args : locals) (i : nat)
    (l0 : locals) (s : store) :
  "__proto__"%string ∉ names ->
  exists fresh,
    bind_args names args i l0 s = Ok fresh s /\
    l_array fresh = l_array l0 /\
    (forall k, k ∉ names -> l_props fresh !! k = l_props l0 !! k) /\
    (forall k, k ∈ names ->
       exists j, names !! j = Some k /\
         (forall j', (j < j')%nat -> names !! j' ≠ Some k) /\
         l_props fresh !! k = locals_get args (pretty (i + j)%nat)).
Proof.
  revert i l0. induction names as [|name names IH]; intros i l0 Hproto.
  - exists l0. split; [reflexivity|]. split; [reflexivity|].
    split; [intros; reflexivity|]. intros k Hk. inversion Hk.
  - apply not_elem_of_cons in Hproto as [Hne Hproto].
    destruct (locals_get_numeral args i) as (v & Hv).
    destruct (IH (S i) (locals_set l0 name v) Hproto)
      as (fresh & Hrun & Harr & Hout & Hin).
    exists fresh. simpl. rewrite bool_decide_eq_false_2 by congruence.
    rewrite Hv. cbn [of_option]. unfold bind at 1. cbn [ret].
    split; [exact Hrun|]. split; [exact Harr|]. split.
    + intros k Hk. apply not_elem_of_cons in Hk as [Hk1 Hk2].
      rewrite (Hout k Hk2). simpl. apply lookup_insert_ne. congruence.
    + intros k Hk. destruct (decide (k ∈ names)) as [Hk'|Hk'].
      * destruct (Hin k Hk') as (j & Hj & Hlast & Hval).
        exists (S j). split; [exact Hj|]. split.
        -- intros [|j'] Hlt; [lia|]. simpl. apply Hlast. lia.
        -- rewrite Hval. do 2 f_equal. lia.
      * apply elem_of_cons in Hk as [->|Hk]; [|contradiction].
        exists 0%nat. split; [reflexivity|]. split.
        -- intros [|j'] Hlt; [lia|]. simpl. intros Hj'.
           apply Hk'. apply list_elem_of_lookup. exists j'. exact Hj'.
        -- rewrite (Hout name Hk'). simpl. rewrite lookup_insert_eq.
           rewrite <- Hv. do 2 f_equal. lia.
Qed.

(** ** Variables and macros *)

(** C9.  [variable] returns the local binding unless it is [undefined], and
    then reads [data]: a local bound to [undefined] is passed over as if it
    were absent.  So inside a macro invoked with too few arguments, a
    parameter left without an argument reads as the caller's data of the
    same name. *)
Theorem undefined_local_falls_through :
  (forall fuel name l env data index s,
     l_props l !! name = Some VUndef ->
     call (S fuel) (variable name) l env data index s
     = (do v <- get_prop data name; ret (v, l)) s) /\
  (forall fuel m names b (args : list value) j env d v s,
     mac_args m = Some names ->
     "__proto__"%string ∉ names ->
     mac_expression m = variable b ->
     names !! j = Some b ->
     (length args <= j)%nat ->
     d !! b = Some v ->
     Macro_call (S fuel) m (locals_of_array args) env (VObj d) s = Ok v s).
Proof.
  assert (Hvar : forall fuel name l env data index s,
     l_props l !! name = Some VUndef ->
     call (S fuel) (variable name) l env data index s
     = (do v <- get_prop data name; ret (v, l)) s).
  { intros fuel name l env data index s Hl. rewrite call_S. simpl.
    unfold variable_body, locals_get. rewrite Hl. reflexivity. }
  split; [exact Hvar|].
  intros fuel m names b args j env d v s Hargs Hproto Hbody Hj Hshort Hd.
  destruct (bind_args_lookup names (locals_of_array args) 0 empty_locals s Hproto)
    as (fresh & Hrun & _ & _ & Hin).
  destruct (Hin b) as (j' & Hj' & Hlast & Hval).
  { apply list_elem_of_lookup. exists j. exact Hj. }
  assert (Hle : (j <= j')%nat).
  { destruct (decide (j <= j')%nat) as [?|Hgt]; [assumption|].
    exfalso. apply (Hlast j); [lia | exact Hj]. }
  rewrite locals_of_array_get in Hval.
  rewrite (lookup_ge_None_2 args (0 + j')) in Hval by (simpl; lia).
  unfold Macro_call, macro. rewrite Hargs, Hbody.
  rewrite (bind_Ok _ _ _ _ _ Hrun).
  unfold bind. rewrite (Hvar fuel b fresh env (VObj d) undefined s Hval).
  unfold bind, get_prop, ret, obj_get. rewrite Hd. reflexivity.
Qed.

(** [macro(a, b) { $b }] invoked with one argument where [data] has a
    [b]. *)
Lemma undefined_local_falls_through_witness :
  mac_args second_of_two = Some ["a"; "b"]%string /\
  ("__proto__"%string ∉ ["a"; "b"]%string) /\
  mac_expression second_of_two = variable "b" /\
  (["a"; "b"]%string : list string) !! 1%nat = Some "b"%string /\
  (length [VStr "q"] <= 1)%nat /\
  ({[ "b"%string := VStr "from data" ]} : gmap string value) !! "b"%string
    = Some (VStr "from data") /\
  Macro_call 1 second_of_two (locals_of_array [VStr "q"]) no_data
    (VObj {[ "b"%string := VStr "from data" ]}) empty_store
  = Ok (VStr "from data") empty_store.
Proof.
  assert (H1 : mac_args second_of_two = Some ["a"; "b"]%string) by reflexivity.
  assert (H2 : "__proto__"%string ∉ ["a"; "b"]%string).
  { apply (bool_decide_unpack _). vm_compute. exact I. }
  assert (H3 : mac_expression second_of_two = variable "b") by reflexivity.
  assert (H4 : (["a"; "b"]%string : list string) !! 1%nat = Some "b"%string) by reflexivity.
  assert (H5 : (length [VStr "q"] <= 1)%nat) by (simpl; lia).
  assert (H6 : ({[ "b"%string := VStr "from data" ]} : gmap string value)
               !! "b"%string = Some (VStr "from data"))
    by (vm_compute; reflexivity).
  split; [exact H1|]. split; [exact H2|]. split; [exact H3|]. split; [exact H4|].
  split; [exact H5|]. split; [exact H6|].
  exact (proj2 undefined_local_falls_through 0%nat second_of_two _ _ _ _ no_data
           _ _ empty_store H1 H2 H3 H4 H5 H6).
Defined.

(** C7.  A macro invoked with fewer arguments than it has parameters throws
    no arity error: it builds a fresh locals object that holds exactly its
    parameter names, each bound to the argument at its position and to
    [undefined] where the arguments have run out, and its result is the
    result of its body on that object, [env] and [data].  Reached through a
    call expression, the body runs on that same fresh object whatever the
    caller's locals are, and the caller's locals come back as they were
    when the callee was evaluated. *)
Theorem macro_under_application (fuel : nat) (m : Macro) (names : list string)
    (args : list value) (env data : value) :
  mac_args m = Some names ->
  "__proto__"%string ∉ names ->
  mac_expression m ≠ blank ->
  (length args < length names)%nat ->
  exists fresh : locals,
    l_array fresh = false /\
    (forall k, k ∉ names -> l_props fresh !! k = None) /\
    (forall j k, names !! j = Some k ->
       (forall j', (j < j')%nat -> names !! j' ≠ Some k) ->
       l_props fresh !! k = Some (default VUndef (args !! j))) /\
    (forall j k, names !! j = Some k -> (length args <= j)%nat ->
       l_props fresh !! k = Some VUndef) /\
    (forall s,
       Macro_call fuel m (locals_of_array args) env data s
       = (do (v, _) <- call fuel (mac_expression m) fresh env data undefined;
          ret v) s) /\
    (forall callee argsE l index s0 l1 s1 l2 s2,
       resolve_args (call fuel) argsE l env data s0 = Ok (args, l1) s1 ->
       invoke (call fuel) (VExpr callee) l1 env data undefined s1
         = Ok (VMacro m, l2) s2 ->
       call (S fuel) (callExpression callee argsE) l env data index s0
       = (do (v, _) <- call fuel (mac_expression m) fresh env data undefined;
          ret (v, l2)) s2).
Proof.
  intros Hargs Hproto Hbody Hshort.
  destruct (bind_args_lookup names (locals_of_array args) 0 empty_locals
              empty_store Hproto) as (fresh & _ & Harr & Hout & Hin).
  assert (Hrun : forall s, bind_args names (locals_of_array args) 0 empty_locals s
                           = Ok fresh s).
  { intros s.
    destruct (bind_args_lookup names (locals_of_array args) 0 empty_locals s Hproto)
      as (fresh' & Hrun' & Harr' & Hout' & Hin').
    rewrite Hrun'. f_equal. destruct fresh as [p a], fresh' as [p' a'].
    simpl in *. f_equal; [|congruence]. apply map_eq. intros k.
    destruct (decide (k ∈ names)) as [Hk|Hk].
    - destruct (Hin k Hk) as (j & Hj & Hlast & ->).
      destruct (Hin' k Hk) as (j' & Hj' & Hlast' & ->).
      assert (j = j') as ->; [|reflexivity].
      destruct (Nat.lt_trichotomy j j') as [Hlt|[?|Hlt]]; [|assumption|].
      + exfalso. exact (Hlast j' Hlt Hj').
      + exfalso. exact (Hlast' j Hlt Hj).
    - rewrite (Hout k Hk), (Hout' k Hk). reflexivity. }
  assert (Hlast_value : forall j k, names !! j = Some k ->
            (forall j', (j < j')%nat -> names !! j' ≠ Some k) ->
            l_props fresh !! k = Some (default VUndef (args !! j))).
  { intros j k Hj Hlast. destruct (Hin k) as (j' & Hj' & Hlast' & ->).
    { apply list_elem_of_lookup. exists j. exact Hj. }
    rewrite locals_of_array_get. simpl.
    assert (j = j') as ->; [|reflexivity].
    destruct (Nat.lt_trichotomy j j') as [Hlt|[?|Hlt]]; [|assumption|].
    + exfalso. exact (Hlast j' Hlt Hj').
    + exfalso. exact (Hlast' j Hlt Hj). }
  assert (Hmacro : forall s,
       macro (call fuel) m (locals_of_array args) env data s
       = (do (v, _) <- call fuel (mac_expression m) fresh env data undefined;
          ret v) s).
  { intros s. unfold macro. rewrite Hargs. rewrite (bind_Ok _ _ _ _ _ (Hrun s)).
    destruct (mac_expression m); [contradiction|reflexivity..]. }
  exists fresh. split; [exact Harr|]. split.
  { intros k Hk. rewrite (Hout k Hk). apply lookup_empty. }
  split; [exact Hlast_value|]. split.
  { intros j k Hj Hlen. destruct (Hin k) as (j' & Hj' & Hlast' & ->).
    { apply list_elem_of_lookup. exists j. exact Hj. }
    rewrite locals_of_array_get. simpl.
    rewrite (lookup_ge_None_2 args j'); [reflexivity|].
    destruct (decide (j <= j')%nat) as [?|Hgt]; [lia|].
    exfalso. apply (Hlast' j); [lia | exact Hj]. }
  split; [exact Hmacro|].
  intros callee argsE l index s0 l1 s1 l2 s2 Hres Hcallee.
  rewrite call_S. simpl. unfold callExpression_body.
  rewrite (bind_Ok _ _ _ _ _ Hres). simpl.
  rewrite (bind_Ok _ _ _ _ _ Hcallee). simpl.
  unfold bind at 1 2. rewrite Hmacro. unfold bind.
  destruct (call fuel (mac_expression m) fresh env data undefined s2)
    as [[v l'] s'| | |]; reflexivity.
Qed.

(** [macro(a, b) { $b }] invoked with the one argument "q". *)
Lemma macro_under_application_witness :
  mac_args second_of_two = Some ["a"; "b"]%string /\
  ("__proto__"%string ∉ ["a"; "b"]%string) /\
  mac_expression second_of_two ≠ blank /\
  (length [VStr "q"] < length ["a"; "b"]%string)%nat /\
  exists fresh : locals,
    l_array fresh = false /\
    (forall k, k ∉ ["a"; "b"]%string -> l_props fresh !! k = None) /\
    (forall j k, (["a"; "b"]%string : list string) !! j = Some k ->
       (forall j', (j < j')%nat -> (["a"; "b"]%string : list string) !! j' ≠ Some k) ->
       l_props fresh !! k = Some (default VUndef ([VStr "q"] !! j))) /\
    (forall j k, (["a"; "b"]%string : list string) !! j = Some k ->
       (length [VStr "q"] <= j)%nat ->
       l_props fresh !! k = Some VUndef) /\
    (forall s,
       Macro_call 1 second_of_two (locals_of_array [VStr "q"]) no_data no_data s
       = (do (v, _) <- call 1 (mac_expression second_of_two) fresh no_data
                         no_data undefined;
          ret v) s) /\
    (forall callee argsE l index s0 l1 s1 l2 s2,
       resolve_args (call 1) argsE l no_data no_data s0 = Ok ([VStr "q"], l1) s1 ->
       invoke (call 1) (VExpr callee) l1 no_data no_data undefined s1
         = Ok (VMacro second_of_two, l2) s2 ->
       call 2 (callExpression callee argsE) l no_data no_data index s0
       = (do (v, _) <- call 1 (mac_expression second_of_two) fresh no_data
                         no_data undefined;
          ret (v, l2)) s2).
Proof.
  assert (H1 : mac_args second_of_two = Some ["a"; "b"]%string) by reflexivity.
  assert (H2 : "__proto__"%string ∉ ["a"; "b"]%string).
  { apply (bool_decide_unpack _). vm_compute. exact I. }
  assert (H3 : mac_expression second_of_two ≠ blank) by discriminate.
  assert (H4 : (length [VStr "q"] < length ["a"; "b"]%string)%nat)
    by (simpl; lia).
  split; [exact H1|]. split; [exact H2|]. split; [exact H3|]. split; [exact H4|].
  exact (macro_under_application 1 second_of_two ["a"; "b"]%string [VStr "q"]
           no_data no_data H1 H2 H3 H4).
Defined.

(** ** The top-level loop *)

Lemma obj_set_Ok obj id v obj' s s' :
  obj_set obj id v s = Ok obj' s' -> obj' = <[id := v]> obj /\ s' = s.
Proof.
  unfold obj_set. case_bool_decide; [discriminate|].
  unfold ret. intros [= <- <-]. split; reflexivity.
Qed.

Lemma compile_cons (d : definition) (rest : list definition)
    (obj : gmap string value) (s : store) :
  d ≠ DFalsy ->
  compile (d :: rest) obj s
  = (do obj1 <- insert_definition d obj; compile rest obj1) s.
Proof.
  intros Hd.
  destruct d as [|type id|id value index attrs local|id args expression];
    [contradiction|..]; simpl; unfold insert_definition, bind; simpl.
  - repeat case_bool_decide; subst; try discriminate; reflexivity.
  - unfold bind. destruct (new_Entity id value index attrs local s); reflexivity.
  - unfold bind. destruct (new_Macro args expression s); reflexivity.
Qed.

Lemma insert_definition_Ok (d : definition) (obj obj' : gmap string value)
    (s s' : store) :
  insert_definition d obj s = Ok obj' s' ->
  (definition_key d = None /\ obj' = obj) \/
  (exists id v, definition_key d = Some id /\
     new_definition d s = Ok (Some v) s' /\ obj' = <[id := v]> obj).
Proof.
  unfold insert_definition. intros Hrun.
  apply bind_inv_Ok in Hrun as (ov & s1 & Hnew & Hset).
  destruct (definition_key d) as [id|] eqn:Hkey.
  - destruct ov as [v|].
    + apply obj_set_Ok in Hset as [-> ->]. right. exists id, v. auto.
    + exfalso. destruct d; simpl in Hkey, Hnew; try discriminate.
      * repeat case_bool_decide; discriminate.
      * apply bind_inv_Ok in Hnew as (? & ? & _ & ?). discriminate.
      * apply bind_inv_Ok in Hnew as (? & ? & _ & ?). discriminate.
  - left. split; [reflexivity|]. destruct ov; injection Hset as <- _; reflexivity.
Qed.

Lemma compile_keeps (ast : list definition) (obj obj' : gmap string value)
    (s s' : store) (id : string) :
  compile ast obj s = Ok obj' s' ->
  Forall (fun d => definition_key d ≠ Some id) ast ->
  obj' !! id = obj !! id.
Proof.
  revert obj s. induction ast as [|d rest IH]; intros obj s Hrun Hkeys.
  - simpl in Hrun. injection Hrun as <- _. reflexivity.
  - inversion Hkeys as [|? ? Hd Hrest]; subst.
    destruct d as [|type id'|id' value index attrs local|id' args expression] eqn:Ed.
    { simpl in Hrun. injection Hrun as <- _. reflexivity. }
    all: rewrite compile_cons in Hrun by discriminate;
      apply bind_inv_Ok in Hrun as (obj1 & s1 & Hins & Hgo);
      rewrite (IH _ _ Hgo Hrest);
      apply insert_definition_Ok in Hins as [[_ ->]|(k & v & Hk & _ & ->)];
      [reflexivity | apply lookup_insert_ne; congruence].
Qed.

Lemma compile_prefix (pre : list definition) (rest : list definition)
    (obj obj' : gmap string value) (s s' : store) :
  DFalsy ∉ pre ->
  compile (pre ++ rest) obj s = Ok obj' s' ->
  exists obj1 s1,
    compile pre obj s = Ok obj1 s1 /\ compile rest obj1 s1 = Ok obj' s'.
Proof.
  revert obj s. induction pre as [|x pre IH]; intros obj s Hpre Hrun.
  - exists obj, s. split; [reflexivity | exact Hrun].
  - apply not_elem_of_cons in Hpre as [Hx Hpre].
    assert (Hx' : x ≠ DFalsy) by congruence.
    change ((x :: pre) ++ rest) with (x :: (pre ++ rest)) in Hrun.
    rewrite compile_cons in Hrun by exact Hx'.
    apply bind_inv_Ok in Hrun as (obj0 & s0 & Hins & Hgo).
    destruct (IH _ _ Hpre Hgo) as (obj1 & s1 & Hpre_run & Hrest).
    exists obj1, s1. split; [|exact Hrest].
    rewrite compile_cons by exact Hx'. rewrite (bind_Ok _ _ _ _ _ Hins).
    exact Hpre_run.
Qed.

(** C10.  [compile] stops at the first falsy entry: what it returns, and
    the store it leaves, on a sequence with a falsy entry are what it
    returns and leaves on the entries before that one, so no entry after it
    is compiled or stored.  Of the entries before it, when the loop
    completes: an id no entity or macro entry carries is left as it was in
    [obj], and under the id of an entity or macro entry lies what was built
    from the last entry carrying that id, built in the store its
    predecessors left. *)
Theorem compile_stops_at_falsy (pre post : list definition)
    (obj : gmap string value) (s : store) :
  compile (pre ++ DFalsy :: post) obj s = compile pre obj s /\
  (DFalsy ∉ pre ->
   forall obj' s', compile (pre ++ DFalsy :: post) obj s = Ok obj' s' ->
     (forall id, Forall (fun d => definition_key d ≠ Some id) pre ->
        obj' !! id = obj !! id) /\
     (forall pre1 d pre2 id,
        pre = pre1 ++ d :: pre2 ->
        definition_key d = Some id ->
        Forall (fun d' => definition_key d' ≠ Some id) pre2 ->
        exists obj1 s1 v s2,
          compile pre1 obj s = Ok obj1 s1 /\
          new_definition d s1 = Ok (Some v) s2 /\
          obj' !! id = Some v)).
Proof.
  assert (Hstop : forall obj s,
            compile (pre ++ DFalsy :: post) obj s = compile pre obj s).
  { clear obj s. induction pre as [|d pre IH]; intros obj s; [reflexivity|].
    destruct d as [|type id|id value index attrs local|id args expression];
      [reflexivity|..].
    all: change ((?x :: pre) ++ DFalsy :: post)
           with (x :: (pre ++ DFalsy :: post));
      rewrite !compile_cons by discriminate; unfold bind;
      destruct (insert_definition _ obj s); try reflexivity; apply IH. }
  split; [apply Hstop|].
  intros Hpre obj' s' Hrun. rewrite Hstop in Hrun. split.
  - intros id Hkeys. exact (compile_keeps pre obj obj' s s' id Hrun Hkeys).
  - intros pre1 d pre2 id -> Hkey Hlater.
    apply not_elem_of_app in Hpre as [Hpre1 Hrest].
    apply not_elem_of_cons in Hrest as [Hd _].
    destruct (compile_prefix pre1 (d :: pre2) obj obj' s s' Hpre1 Hrun)
      as (obj1 & s1 & Hpre_run & Hrest_run).
    rewrite compile_cons in Hrest_run by congruence.
    apply bind_inv_Ok in Hrest_run as (obj2 & s2 & Hins & Hgo).
    apply insert_definition_Ok in Hins as [[Hnone _]|(k & v & Hk & Hnew & ->)];
      [congruence|].
    assert (k = id) as -> by congruence.
    exists obj1, s1, v, s2. split; [exact Hpre_run|]. split; [exact Hnew|].
    rewrite (compile_keeps pre2 _ obj' s2 s' id Hgo Hlater).
    apply lookup_insert_eq.
Qed.

(** Two entities "a", a falsy entry, an entity "b": the second "a" is what
    lies under "a", and nothing lies under "b". *)
Lemma compile_stops_at_falsy_witness :
  (DFalsy ∉ early) /\
  compile (early ++ DFalsy :: late) ∅ empty_store = compile early ∅ empty_store /\
  compile (early ++ DFalsy :: late) ∅ empty_store
    = Ok {[ "a"%string := VEntity second_a ]} early_store /\
  ({[ "a"%string := VEntity second_a ]} : gmap string value) !! "b"%string
    = (∅ : gmap string value) !! "b"%string /\
  exists obj1 s1 v s2,
    compile [ DEntity "a" (NString "first") [] [] false; DOther "comment" None ]
      ∅ empty_store = Ok obj1 s1 /\
    new_definition (DEntity "a" (NString "second") [] [] false) s1
      = Ok (Some v) s2 /\
    ({[ "a"%string := VEntity second_a ]} : gmap string value) !! "a"%string
      = Some v.
Proof.
  assert (Hpre : DFalsy ∉ early).
  { intros H. unfold early in H.
    repeat (apply elem_of_cons in H as [H|H]; [discriminate|]). inversion H. }
  assert (Hrun : compile (early ++ DFalsy :: late) ∅ empty_store
                 = Ok {[ "a"%string := VEntity second_a ]} early_store)
    by (vm_compute; reflexivity).
  destruct (compile_stops_at_falsy early late ∅ empty_store) as [Hstop Hlast].
  destruct (Hlast Hpre _ _ Hrun) as [Hkeep Hwins].
  split; [exact Hpre|]. split; [exact Hstop|]. split; [exact Hrun|]. split.
  - apply Hkeep. unfold early. repeat constructor; vm_compute; discriminate.
  - apply (Hwins [ DEntity "a" (NString "first") [] [] false;
                   DOther "comment" None ]
                 (DEntity "a" (NString "second") [] [] false) [] "a"%string).
    + reflexivity.
    + reflexivity.
    + constructor.
Defined.

(** ** The dispatch on node kinds *)

Lemma read_default_Ok (elem : element) (s : store) :
  is_null (elem_node elem) = false ->
  read_default elem s = Ok (elem_default elem) s.
Proof. intros H. unfold read_default. rewrite H. reflexivity. Qed.

Lemma read_id_Ok (elem : element) (s : store) :
  is_null (elem_node elem) = false ->
  read_id elem s = Ok (key_of_id (elem_id elem)) s.
Proof. intros H. unfold read_id. rewrite H. reflexivity. Qed.

Lemma ArrayLiteral_each_total (E : node -> M evaluator) (elems : list element) :
  Forall (fun e => compiles E (elem_node e)) elems ->
  Forall (fun e => is_null (elem_node e) = false) elems ->
  forall i content d s,
    exists ev s', ArrayLiteral_each E elems i content d s = Ok ev s'.
Proof.
  induction 1 as [|elem rest Helem _ IH]; intros Hnull i content d s; simpl.
  - eexists _, _. reflexivity.
  - inversion Hnull as [|? ? Hn Hrest]; subst.
    destruct (Helem s) as (e & s1 & He). rewrite (bind_Ok _ _ _ _ _ He).
    rewrite (bind_Ok _ _ _ _ _ (read_default_Ok elem s1 Hn)).
    apply IH. exact Hrest.
Qed.

Lemma HashLiteral_each_total (E : node -> M evaluator) (elems : list element) :
  Forall (fun e => compiles E (elem_node e)) elems ->
  Forall (fun e => is_null (elem_node e) = false) elems ->
  Forall (fun e => storable (elem_id e) = true) elems ->
  forall i content d s,
    exists ev s', HashLiteral_each E elems i content d s = Ok ev s'.
Proof.
  induction 1 as [|elem rest Helem _ IH]; intros Hnull Hids i content d s; simpl.
  - eexists _, _. reflexivity.
  - inversion Hnull as [|? ? Hn Hnrest]; subst.
    inversion Hids as [|? ? Hid Hrest]; subst.
    rewrite (bind_Ok _ _ _ _ _ (read_id_Ok elem s Hn)).
    destruct (Helem s) as (e & s1 & He). rewrite (bind_Ok _ _ _ _ _ He).
    unfold storable in Hid. apply andb_true_iff in Hid as [Hlen Hproto].
    apply negb_true_iff in Hlen, Hproto.
    unfold bind at 1, hash_set. rewrite Hlen, Hproto. simpl.
    apply IH; assumption.
Qed.

Lemma Expression_each_total (E : node -> M evaluator) (elems : list node) :
  Forall (compiles E) elems ->
  forall s, exists es s', Expression_each E elems s = Ok es s'.
Proof.
  induction 1 as [|elem rest Helem _ IH]; intros s; simpl.
  - eexists _, _. reflexivity.
  - destruct (Helem s) as (e & s1 & He). rewrite (bind_Ok _ _ _ _ _ He).
    destruct (IH s1) as (es & s2 & Hes). rewrite (bind_Ok _ _ _ _ _ Hes).
    eexists _, _. reflexivity.
Qed.

Lemma member_of_total (computed : bool) (property : node) :
  (well_formed property = true -> compiles Expression property) ->
  (if computed then well_formed property else negb (is_null property)) = true ->
  forall s, exists m s', member_of Expression computed property s = Ok m s'.
Proof.
  intros IH Hwf s. unfold member_of. destruct computed.
  - destruct (IH Hwf s) as (e & s' & He). rewrite (bind_Ok _ _ _ _ _ He).
    eexists _, _. reflexivity.
  - destruct property; try discriminate Hwf; eexists _, _; reflexivity.
Qed.

Lemma Forall_well_formed {A} (f : A -> node) (P : node -> Prop) (l : list A) :
  Forall (fun a => well_formed (f a) = true -> P (f a)) l ->
  forallb (fun a => well_formed (f a)) l = true ->
  Forall (fun a => P (f a)) l.
Proof.
  induction 1 as [|a l Ha _ IH]; intros Hwf; constructor;
    simpl in Hwf; apply andb_true_iff in Hwf as [H1 H2]; auto.
Qed.

(** C8, as the code has it.  A node whose kind tag is not a key of the
    dispatch table (and is not "constructor", which the table inherits)
    makes [new Expression(node)] throw a TypeError, the lookup having found
    nothing to construct with, and no evaluator is produced.  A node every
    node of which carries the fields of its kind, no element of an array
    or hash literal being null, compiles: the recursion into its children
    throws nothing. *)
Theorem Expression_fails_or_succeeds :
  (forall n type s,
     node_type n = Some type ->
     type ∉ EXPRESSION_TYPES ->
     type ≠ "constructor"%string ->
     Expression n s = Throw (TypeError NotAConstructor) s) /\
  (forall n s, well_formed n = true -> exists e s', Expression n s = Ok e s').
Proof.
  split.
  - intros n type s Htype Hout Hctor.
    destruct n; simpl in Htype; try discriminate; injection Htype as <-;
      try (exfalso; apply Hout; apply (bool_decide_unpack _); vm_compute; exact I).
    simpl. unfold Expression_bare.
    rewrite (bool_decide_eq_false_2 _ Hout), (bool_decide_eq_false_2 _ Hctor).
    reflexivity.
  - intros n s Hwf. revert n Hwf s.
    refine (node_induction (fun n => well_formed n = true -> compiles Expression n)
              _ _ _ _ _ _ _ _ _ _ _ _ _ _ _ _ _ _ _); unfold compiles; simpl.
    + intros _ s. eexists _, _. reflexivity.
    + discriminate.
    + intros name _ s. eexists _, _. reflexivity.
    + intros _ s. eexists _, _. reflexivity.
    + intros name _ s. eexists _, _. reflexivity.
    + intros name _ s. eexists _, _. reflexivity.
    + intros content _ s. eexists _, _. reflexivity.
    + intros content _ s. eexists _, _. reflexivity.
    + intros content IH Hwf s. apply ArrayLiteral_each_total.
      * apply (Forall_well_formed elem_node (compiles Expression) content IH).
        clear IH. induction content as [|e r IHr]; [reflexivity|].
        simpl in Hwf |- *. apply andb_true_iff in Hwf as [He Hr].
        apply andb_true_iff in He as [He _]. rewrite He. exact (IHr Hr).
      * clear IH. induction content as [|e r IHr]; constructor;
          simpl in Hwf; apply andb_true_iff in Hwf as [He Hr].
        -- apply andb_true_iff in He as [_ He]. apply negb_true_iff. exact He.
        -- exact (IHr Hr).
    + intros content IH Hwf s. apply HashLiteral_each_total.
      * apply (Forall_well_formed elem_node (compiles Expression) content IH).
        clear IH. induction content as [|e r IHr]; [reflexivity|].
        simpl in Hwf |- *. apply andb_true_iff in Hwf as [He Hr].
        apply andb_true_iff in He as [He _].
        apply andb_true_iff in He as [He _]. rewrite He. exact (IHr Hr).
      * clear IH. induction content as [|e r IHr]; constructor;
          simpl in Hwf; apply andb_true_iff in Hwf as [He Hr].
        -- apply andb_true_iff in He as [He _].
           apply andb_true_iff in He as [_ He]. apply negb_true_iff. exact He.
        -- exact (IHr Hr).
      * clear IH. induction content as [|e r IHr]; constructor;
          simpl in Hwf; apply andb_true_iff in Hwf as [He Hr].
        -- apply andb_true_iff in He as [_ He]. exact He.
        -- exact (IHr Hr).
    + intros content IH Hwf s. unfold ComplexString.
      destruct (Expression_each_total Expression content
                  (Forall_well_formed (fun n => n) (compiles Expression)
                     content IH Hwf)
                  (mkStore (<[st_next s:=false]> (st_dirty s)) (st_arrays s)
                     (S (st_next s)))) as (es & s' & Hes).
      unfold bind at 1. simpl. rewrite (bind_Ok _ _ _ _ _ Hes).
      eexists _, _. reflexivity.
    + intros value IH Hwf s. exact (IH Hwf s).
    + intros operator operand IH Hwf s. unfold UnaryExpression.
      destruct (IH Hwf s) as (e & s' & He).
      rewrite (bind_Ok _ _ _ _ _ He). eexists _, _. reflexivity.
    + intros lhs operator rhs IHl IHr Hwf s. unfold BinaryExpression.
      apply andb_true_iff in Hwf as [Hl Hr].
      destruct (IHl Hl s) as (e1 & s1 & He1). rewrite (bind_Ok _ _ _ _ _ He1).
      destruct (IHr Hr s1) as (e2 & s2 & He2). rewrite (bind_Ok _ _ _ _ _ He2).
      eexists _, _. reflexivity.
    + intros lhs operator rhs IHl IHr Hwf s. unfold LogicalExpression.
      apply andb_true_iff in Hwf as [Hl Hr].
      destruct (IHl Hl s) as (e1 & s1 & He1). rewrite (bind_Ok _ _ _ _ _ He1).
      destruct (operator_given operator).
      * destruct (IHr Hr s1) as (e2 & s2 & He2). rewrite (bind_Ok _ _ _ _ _ He2).
        eexists _, _. reflexivity.
      * eexists _, _. reflexivity.
    + intros test consequent alternate IHt IHc IHa Hwf s.
      unfold ConditionalExpression.
      apply andb_true_iff in Hwf as [Hwf Ha].
      apply andb_true_iff in Hwf as [Ht Hc].
      destruct (IHt Ht s) as (e1 & s1 & He1). rewrite (bind_Ok _ _ _ _ _ He1).
      destruct (IHc Hc s1) as (e2 & s2 & He2). rewrite (bind_Ok _ _ _ _ _ He2).
      destruct (IHa Ha s2) as (e3 & s3 & He3). rewrite (bind_Ok _ _ _ _ _ He3).
      eexists _, _. reflexivity.
    + intros callee arguments IHc IHa Hwf s. unfold CallExpression.
      apply andb_true_iff in Hwf as [Hc Ha].
      destruct (IHc Hc s) as (e1 & s1 & He1). rewrite (bind_Ok _ _ _ _ _ He1).
      destruct (Expression_each_total Expression arguments
                  (Forall_well_formed (fun n => n) (compiles Expression)
                     arguments IHa Ha) s1)
        as (es & s' & Hes).
      rewrite (bind_Ok _ _ _ _ _ Hes). eexists _, _. reflexivity.
    + intros expression computed property IHe IHp Hwf s.
      unfold PropertyExpression.
      apply andb_true_iff in Hwf as [He Hp].
      destruct (IHe He s) as (e1 & s1 & He1). rewrite (bind_Ok _ _ _ _ _ He1).
      destruct (member_of_total computed property IHp Hp s1) as (m & s2 & Hm).
      rewrite (bind_Ok _ _ _ _ _ Hm). eexists _, _. reflexivity.
    + intros expression computed attribute IHe IHp Hwf s.
      unfold AttributeExpression.
      apply andb_true_iff in Hwf as [He Hp].
      destruct (IHe He s) as (e1 & s1 & He1). rewrite (bind_Ok _ _ _ _ _ He1).
      destruct (member_of_total computed attribute IHp Hp s1) as (m & s2 & Hm).
      rewrite (bind_Ok _ _ _ _ _ Hm). eexists _, _. reflexivity.
Qed.

(** ** Default branches *)

Lemma array_index_numeral (i n j : nat) :
  (j < n)%nat -> array_index (pretty (i + j)%nat) i n = Some (i + j)%nat.
Proof.
  revert i j. induction n as [|n IH]; intros i j Hj; [lia|]. simpl.
  destruct j as [|j].
  - rewrite Nat.add_0_r. rewrite bool_decide_eq_true_2 by reflexivity. reflexivity.
  - rewrite bool_decide_eq_false_2.
    + replace (i + S j)%nat with (S i + j)%nat by lia. apply IH. lia.
    + intros E. apply (inj pretty) in E. lia.
Qed.

Lemma array_get_numeral (content : list evaluator) (d : nat) (branch : evaluator) :
  content !! d = Some branch ->
  array_get content (pretty d) = Some (VExpr branch).
Proof.
  intros Hd. unfold array_get.
  pose proof (array_index_numeral 0 (length content) d
                (proj1 (lookup_lt_is_Some content d) (ex_intro _ branch Hd))) as Hi.
  cbn [Nat.add] in Hi. rewrite Hi, Hd. reflexivity.
Qed.

Lemma select_default (get : string -> option value) (key : value)
    (dkey : string) (v : value) (s : store) :
  truthy key = false \/ (exists k, to_key key = Some k /\ get k = Some VUndef) ->
  get dkey = Some v ->
  select get key dkey s = Ok v s.
Proof.
  intros [Hfalsy|(k & Hk & Habsent)] Hdefault; unfold select.
  - rewrite Hfalsy, Hdefault. reflexivity.
  - destruct (truthy key); [|rewrite Hdefault; reflexivity].
    rewrite Hk. simpl. unfold bind. simpl. rewrite Habsent. simpl.
    rewrite Hdefault. reflexivity.
Qed.

Lemma select_declared (get : string -> option value) (key : value)
    (dkey k : string) (v : value) (s : store) :
  truthy key = true -> to_key key = Some k ->
  get k = Some v -> truthy v = true ->
  select get key dkey s = Ok v s.
Proof.
  intros Hkey Hk Hget Hv. unfold select. rewrite Hkey, Hk. simpl.
  unfold bind. simpl. rewrite Hget. simpl. rewrite Hv. reflexivity.
Qed.

Lemma hash_get_declared (content : list (string * evaluator)) (k : string)
    (e : evaluator) :
  assoc_get content k = Some e -> hash_get content k = Some (VExpr e).
Proof. intros H. unfold hash_get. rewrite H. reflexivity. Qed.

Lemma read_default_inv (elem : element) (s : store) (marked : bool) (s' : store) :
  read_default elem s = Ok marked s' ->
  marked = elem_default elem /\ s' = s.
Proof.
  unfold read_default. destruct (is_null (elem_node elem)); [discriminate|].
  intros [= <- <-]. split; reflexivity.
Qed.

Lemma read_id_inv (elem : element) (s : store) (id : string) (s' : store) :
  read_id elem s = Ok id s' ->
  id = key_of_id (elem_id elem) /\ s' = s.
Proof.
  unfold read_id. destruct (is_null (elem_node elem)); [discriminate|].
  intros [= <- <-]. split; reflexivity.
Qed.

Lemma assoc_get_set_eq {A} (l : list (string * A)) (k : string) (a : A) :
  assoc_get (assoc_set l k a) k = Some a.
Proof.
  induction l as [|[k' a'] l IH]; simpl.
  - rewrite bool_decide_eq_true_2 by reflexivity. reflexivity.
  - case_bool_decide as Hk; simpl.
    + rewrite bool_decide_eq_true_2 by reflexivity. reflexivity.
    + rewrite bool_decide_eq_false_2 by exact Hk. exact IH.
Qed.

Lemma assoc_get_set_ne {A} (l : list (string * A)) (k k' : string) (a : A) :
  k ≠ k' -> assoc_get (assoc_set l k a) k' = assoc_get l k'.
Proof.
  intros Hne. induction l as [|[k0 a0] l IH]; simpl.
  - rewrite bool_decide_eq_false_2 by exact Hne. reflexivity.
  - case_bool_decide as Hk; simpl.
    + subst k0. rewrite !bool_decide_eq_false_2 by exact Hne. reflexivity.
    + case_bool_decide; [reflexivity | exact IH].
Qed.

Lemma ArrayLiteral_each_spec (E : node -> M evaluator) (elems : list element) :
  forall i content d s ev s',
    ArrayLiteral_each E elems i content d s = Ok ev s' ->
    exists es d',
      ev = arrayLiteral (content ++ es) d' /\
      Forall2 (compiled_from E) elems es /\
      ((Forall unmarked elems /\ d' = d) \/
       (exists j el, elems !! j = Some el /\ elem_default el = true /\
          Forall unmarked (drop (S j) elems) /\ d' = (i + j)%nat)).
Proof.
  induction elems as [|elem rest IH]; intros i content d s ev s' Hrun; simpl in Hrun.
  - injection Hrun as <- _. exists [], d. rewrite app_nil_r.
    split; [reflexivity|]. split; [constructor|]. left. split; [constructor|reflexivity].
  - apply bind_inv_Ok in Hrun as (e & s1 & He & Hrun).
    apply bind_inv_Ok in Hrun as (marked & s2 & Hmark & Hrun).
    apply read_default_inv in Hmark as [-> ->].
    destruct (IH _ _ _ _ _ _ Hrun) as (es & d' & -> & Hes & Hd).
    exists (e :: es), d'. rewrite <- app_assoc. split; [reflexivity|].
    split; [constructor; [exists s, s1; exact He | exact Hes]|].
    destruct Hd as [[Hnone ->]|(j & el & Hj & Hel & Hlater & ->)].
    + destruct (elem_default elem) eqn:Hdef.
      * right. exists 0%nat, elem. split; [reflexivity|]. split; [exact Hdef|].
        split; [exact Hnone | lia].
      * left. split; [constructor; assumption | reflexivity].
    + right. exists (S j), el. split; [exact Hj|]. split; [exact Hel|].
      split; [exact Hlater | lia].
Qed.

Lemma hash_set_Ok content id e s c s' :
  hash_set content id e s = Ok c s' -> c = assoc_set content id e /\ s' = s.
Proof.
  unfold hash_set. repeat case_bool_decide; try discriminate.
  unfold ret. intros [= <- <-]. split; reflexivity.
Qed.

Lemma HashLiteral_each_spec (E : node -> M evaluator) (elems : list element) :
  forall i content dk s ev s',
    HashLiteral_each E elems i content dk s = Ok ev s' ->
    exists content' dk',
      ev = hashLiteral content' dk' /\
      (forall k, Forall (fun e => elem_key e ≠ k) elems ->
         assoc_get content' k = assoc_get content k) /\
      (forall el, el ∈ elems ->
         exists el' branch, el' ∈ elems /\ elem_key el' = elem_key el /\
           compiled_from E el' branch /\
           assoc_get content' (elem_key el) = Some branch) /\
      ((Forall unmarked elems /\ ((0 < i)%nat \/ elems = []) /\ dk' = dk) \/
       (exists j el, elems !! j = Some el /\
          ((i + j = 0)%nat \/ elem_default el = true) /\
          Forall unmarked (drop (S j) elems) /\ dk' = elem_key el)).
Proof.
  induction elems as [|elem rest IH]; intros i content dk s ev s' Hrun;
    simpl in Hrun.
  - injection Hrun as <- _. exists content, dk. split; [reflexivity|].
    split; [reflexivity|]. split; [intros el Hel; inversion Hel|].
    left. split; [constructor|]. split; [right; reflexivity | reflexivity].
  - apply bind_inv_Ok in Hrun as (id & s0 & Hid & Hrun).
    apply read_id_inv in Hid as [-> ->].
    apply bind_inv_Ok in Hrun as (e & s1 & He & Hrun).
    apply bind_inv_Ok in Hrun as (content1 & s2 & Hset & Hrun).
    apply hash_set_Ok in Hset as [-> ->].
    destruct (IH _ _ _ _ _ _ Hrun) as (content' & dk' & -> & Hout & Hin & Hdk).
    exists content', dk'. split; [reflexivity|]. split; [|split].
    + intros k Hk. inversion Hk as [|? ? Hk1 Hk2]; subst.
      rewrite (Hout k Hk2). apply assoc_get_set_ne. exact Hk1.
    + intros el Hel.
      destruct (decide (Exists (fun e' => elem_key e' = elem_key el) rest))
        as [Hex|Hno].
      * apply Exists_exists in Hex as (el2 & Hel2 & Hkey2).
        destruct (Hin el2 Hel2) as (el' & branch & Hel' & Hkey' & Hcomp & Hget).
        exists el', branch. split; [right; exact Hel'|].
        split; [congruence|]. split; [exact Hcomp|]. rewrite <- Hkey2. exact Hget.
      * apply not_Exists_Forall in Hno; [|intros ?; apply _].
        assert (Hsame : elem_key elem = elem_key el).
        { apply elem_of_cons in Hel as [->|Hel]; [reflexivity|].
          exfalso. rewrite Forall_forall in Hno. exact (Hno el Hel eq_refl). }
        exists elem, e. split; [left|]. split; [exact Hsame|].
        split; [exists s, s1; exact He|].
        rewrite (Hout (elem_key el) Hno). rewrite <- Hsame.
        apply assoc_get_set_eq.
    + destruct Hdk as [(Hnone & _ & ->)|(j & el & Hj & Hset & Hlater & ->)].
      * destruct ((i =? 0)%nat || elem_default elem) eqn:Hsets.
        -- right. exists 0%nat, elem. split; [reflexivity|]. split.
           ++ apply orb_true_iff in Hsets as [Hi|Hd]; [left|right; exact Hd].
              apply Nat.eqb_eq in Hi. lia.
           ++ split; [exact Hnone | reflexivity].
        -- apply orb_false_iff in Hsets as [Hi Hd]. apply Nat.eqb_neq in Hi.
           left. split; [constructor; assumption|]. split; [left; lia | reflexivity].
      * right. exists (S j), el. split; [exact Hj|]. split.
        -- right. destruct Hset as [?|?]; [lia | assumption].
        -- split; [exact Hlater | reflexivity].
Qed.

(** X23.  A compiled array or hash literal with at least one branch has a
    default branch: the branch at the position of the last element marked
    default, else the first, for an array; the branch stored under the id
    of the last element marked default, else of the first, for a hash.
    Evaluated on a cursor whose head key, once forced, is falsy or names
    nothing the content array holds or inherits on any host, the literal
    selects that branch: the run goes on as the resolve-or-yield step on
    it. *)
Theorem selector_default :
  (forall elems s0 ev s1,
     elems ≠ [] ->
     Expression (NArray elems) s0 = Ok ev s1 ->
     exists content d branch,
       ev = arrayLiteral content d /\
       ((Forall unmarked elems /\ d = 0%nat) \/
        (exists el, elems !! d = Some el /\ elem_default el = true /\
           Forall unmarked (drop (S d) elems))) /\
       content !! d = Some branch /\
       (exists el, elems !! d = Some el /\ compiled_from Expression el branch) /\
       forall fuel l env data index s key rest s' key' l' s'',
         shift index s = Ok (key, rest) s' ->
         force_key (call fuel) key l env data s' = Ok (key', l') s'' ->
         (truthy key' = false \/
          exists k, to_key key' = Some k /\ array_get content k = Some VUndef) ->
         call (S fuel) ev l env data index s
         = resolve_or_yield (call fuel) (VExpr branch) l' env data rest s'') /\
  (forall elems s0 ev s1,
     elems ≠ [] ->
     Expression (NHash elems) s0 = Ok ev s1 ->
     exists content dkey branch,
       ev = hashLiteral content dkey /\
       ((Forall unmarked elems /\
         exists first, head elems = Some first /\ dkey = elem_key first) \/
        (exists j el, elems !! j = Some el /\ elem_default el = true /\
           Forall unmarked (drop (S j) elems) /\ dkey = elem_key el)) /\
       assoc_get content dkey = Some branch /\
       (exists el, el ∈ elems /\ elem_key el = dkey /\
          compiled_from Expression el branch) /\
       forall fuel l env data index s key rest s' key' l' s'',
         shift (if cursor_truthy index then index else COwn []) s
           = Ok (key, rest) s' ->
         force_key (call fuel) key l env data s' = Ok (key', l') s'' ->
         (truthy key' = false \/
          exists k, to_key key' = Some k /\ hash_get content k = Some VUndef) ->
         call (S fuel) ev l env data index s
         = resolve_or_yield (call fuel) (VExpr branch) l' env data rest s'').
Proof.
  split.
  - intros elems s0 ev s1 Hne Hrun. simpl in Hrun.
    destruct (ArrayLiteral_each_spec Expression elems _ _ _ _ _ _ Hrun)
      as (content & d & -> & Hcontent & Hd). simpl.
    assert (Hel : exists el, elems !! d = Some el).
    { destruct Hd as [[_ ->]|(j & el & Hj & _ & _ & ->)].
      - destruct elems as [|first ?]; [contradiction|]. exists first. reflexivity.
      - exists el. exact Hj. }
    destruct Hel as (el & Hel).
    destruct (Forall2_lookup_l _ _ _ _ _ Hcontent Hel) as (branch & Hbranch & Hcomp).
    exists content, d, branch. split; [reflexivity|]. split.
    { destruct Hd as [[Hnone ->]|(j & el' & Hj & Hmark & Hlater & ->)];
        [left; split; [exact Hnone | reflexivity]|].
      right. exists el'. auto. }
    split; [exact Hbranch|]. split; [exists el; split; assumption|].
    intros fuel l env data index s key rest s' key' l' s'' Hshift Hkey Habsent.
    rewrite call_S. simpl. unfold arrayLiteral_body.
    rewrite (bind_Ok _ _ _ _ _ Hshift). simpl.
    rewrite (bind_Ok _ _ _ _ _ Hkey). simpl.
    rewrite (bind_Ok _ _ _ _ _
               (select_default _ _ _ _ _ Habsent
                  (array_get_numeral content d branch Hbranch))).
    reflexivity.
  - intros elems s0 ev s1 Hne Hrun. simpl in Hrun.
    destruct (HashLiteral_each_spec Expression elems _ _ _ _ _ _ Hrun)
      as (content & dkey & -> & _ & Hin & Hd).
    assert (Hdefault :
      (Forall unmarked elems /\
       exists first, head elems = Some first /\ dkey = elem_key first) \/
      (exists j el, elems !! j = Some el /\ elem_default el = true /\
         Forall unmarked (drop (S j) elems) /\ dkey = elem_key el)).
    { destruct Hd as [(_ & [Hi|He] & _)|(j & el & Hj & Hset & Hlater & ->)];
        [lia | contradiction |].
      destruct (elem_default el) eqn:Hmark.
      - right. exists j, el. auto.
      - left. destruct Hset as [Hj0|?]; [|discriminate].
        assert (j = 0)%nat as -> by lia.
        destruct elems as [|first tail]; [discriminate|].
        injection Hj as ->. split; [constructor; assumption|].
        exists el. split; reflexivity. }
    assert (Hel : exists el, el ∈ elems /\ elem_key el = dkey).
    { destruct Hdefault as [(_ & first & Hfirst & ->)|(j & el & Hj & _ & _ & ->)].
      - exists first. split; [|reflexivity].
        destruct elems as [|? ?]; [discriminate|]. injection Hfirst as ->. left.
      - exists el. split; [|reflexivity]. apply list_elem_of_lookup. exists j. exact Hj. }
    destruct Hel as (el & Hel & Hkey).
    destruct (Hin el Hel) as (el' & branch & Hel' & Hkey' & Hcomp & Hget).
    rewrite Hkey in Hget, Hkey'.
    exists content, dkey, branch. split; [reflexivity|]. split; [exact Hdefault|].
    split; [exact Hget|]. split; [exists el'; auto|].
    intros fuel l env data index s key rest s' key' l' s'' Hshift Hforce Habsent.
    rewrite call_S. simpl. unfold hashLiteral_body.
    rewrite (bind_Ok _ _ _ _ _ Hshift). simpl.
    rewrite (bind_Ok _ _ _ _ _ Hforce). simpl.
    rewrite (bind_Ok _ _ _ _ _
               (select_default _ _ _ _ _ Habsent
                  (hash_get_declared content dkey branch Hget))).
    reflexivity.
Qed.

(** C1.  [content[key]] is a plain property read, with no test that the
    key is one of the branches: on the key "length" every array literal
    with a branch selects the length of its content array, a number that
    is no branch of it, where the claim has it fall back on the default
    branch as it does on a key that names nothing.  Yield mode returns the
    number; resolve mode fails to call it. *)
Theorem length_is_no_branch :
  (forall elems s0 ev s1 fuel l env data rest s,
     elems ≠ [] ->
     Expression (NArray elems) s0 = Ok ev s1 ->
     (forall e, ~ declares ev "length" e) /\
     call (S fuel) ev l env data (COwn (VStr "length" :: rest)) s
     = resolve_or_yield (call fuel) (VNum (Z.of_nat (length elems))) l env data
         (COwn rest) s) /\
  Expression (NArray plural_elems) empty_store = Ok plural empty_store /\
  call 2 plural yielding no_data no_data (COwn [VStr "length"]) empty_store
    = Ok (VNum 2, yielding) empty_store /\
  call 2 plural resolving no_data no_data (COwn [VStr "length"]) empty_store
    = Throw (TypeError NotAFunction) empty_store /\
  call 2 plural resolving no_data no_data (COwn [VStr "other"]) empty_store
    = Ok (VStr "one", resolving) empty_store.
Proof.
  split; [|repeat split; vm_compute; reflexivity].
  intros elems s0 ev s1 fuel l env data rest s Hne Hrun. simpl in Hrun.
  destruct (ArrayLiteral_each_spec Expression elems _ _ _ _ _ _ Hrun)
    as (content & d & -> & Hcontent & _). simpl.
  assert (Hname : forall i : nat, "length"%string ≠ pretty i).
  { intros i E. exact (proj1 (numeral_not_inherited i) (eq_sym E)). }
  split.
  { intros e (i & Hi & _). exact (Hname i Hi). }
  assert (Hindex : forall i n, array_index "length" i n = None).
  { intros i n. revert i. induction n as [|n IH]; intros i; [reflexivity|].
    simpl. rewrite bool_decide_eq_false_2 by (intros E; exact (Hname i (eq_sym E))).
    apply IH. }
  assert (Hlength : array_get content "length"
                    = Some (VNum (Z.of_nat (length elems)))).
  { unfold array_get. rewrite Hindex.
    rewrite bool_decide_eq_true_2 by reflexivity.
    rewrite (Forall2_length _ _ _ Hcontent). reflexivity. }
  assert (Htruthy : truthy (VNum (Z.of_nat (length elems))) = true).
  { simpl. apply negb_true_iff, Z.eqb_neq.
    destruct elems; [contradiction | simpl; lia]. }
  assert (Hshift : shift (COwn (VStr "length" :: rest)) s
                   = Ok (VStr "length", COwn rest) s) by reflexivity.
  assert (Hkey : force_key (call fuel) (VStr "length") l env data s
                 = Ok (VStr "length", l) s) by reflexivity.
  rewrite call_S. cbn [body]. unfold arrayLiteral_body.
  rewrite (bind_Ok _ _ _ _ _ Hshift). cbn beta iota.
  rewrite (bind_Ok _ _ _ _ _ Hkey). cbn beta iota.
  rewrite (bind_Ok _ _ _ _ _
             (select_declared _ (VStr "length") (pretty d) "length" _ s
                eq_refl eq_refl Hlength Htruthy)).
  reflexivity.
Qed.

(** The array literal ["one", "many"] under the key "length". *)
Lemma length_is_no_branch_witness :
  plural_elems ≠ [] /\
  Expression (NArray plural_elems) empty_store = Ok plural empty_store /\
  (forall e, ~ declares plural "length" e) /\
  call 2 plural resolving no_data no_data (COwn [VStr "length"]) empty_store
  = resolve_or_yield (call 1) (VNum (Z.of_nat (length plural_elems))) resolving
      no_data no_data (COwn []) empty_store.
Proof.
  assert (H1 : plural_elems ≠ []) by discriminate.
  assert (H2 : Expression (NArray plural_elems) empty_store
               = Ok plural empty_store) by reflexivity.
  split; [exact H1|]. split; [exact H2|].
  exact (proj1 length_is_no_branch plural_elems empty_store plural empty_store
           1%nat resolving no_data no_data [] empty_store H1 H2).
Defined.

(** The key "other" on the array literal ["one", "many"] and on the hash
    literal { one: "A" }, in resolve mode. *)
Lemma selector_default_witness :
  (plural_elems ≠ [] /\
   Expression (NArray plural_elems) empty_store = Ok plural empty_store /\
   call 2 plural resolving no_data no_data (COwn [VStr "other"]) empty_store
     = Ok (VStr "one", resolving) empty_store) /\
  (one_branch ≠ [] /\
   Expression (NHash one_branch) empty_store
     = Ok (hashLiteral [("one"%string, stringLiteral (KString "A"))] "one")
          empty_store /\
   call 2 (hashLiteral [("one"%string, stringLiteral (KString "A"))] "one")
     resolving no_data no_data (COwn [VStr "other"]) empty_store
     = Ok (VStr "A", resolving) empty_store).
Proof.
  split.
  - assert (H1 : plural_elems ≠ []) by discriminate.
    assert (H2 : Expression (NArray plural_elems) empty_store
                 = Ok plural empty_store) by reflexivity.
    split; [exact H1|]. split; [exact H2|].
    destruct (proj1 selector_default plural_elems empty_store plural empty_store
                H1 H2) as (content & d & branch & Hev & _ & Hbranch & _ & Hrun).
    injection Hev as <- <-.
    rewrite (Hrun 1%nat resolving no_data no_data (COwn [VStr "other"])
               empty_store (VStr "other") (COwn []) empty_store (VStr "other")
               resolving empty_store).
    + injection Hbranch as <-. vm_compute. reflexivity.
    + reflexivity.
    + reflexivity.
    + right. exists "other"%string. split; vm_compute; reflexivity.
  - assert (H1 : one_branch ≠ []) by discriminate.
    assert (H2 : Expression (NHash one_branch) empty_store
                 = Ok (hashLiteral [("one"%string, stringLiteral (KString "A"))]
                         "one") empty_store) by reflexivity.
    split; [exact H1|]. split; [exact H2|].
    destruct (proj2 selector_default one_branch empty_store _ empty_store
                H1 H2) as (content & dkey & branch & Hev & _ & Hbranch & _ & Hrun).
    injection Hev as <- <-.
    rewrite (Hrun 1%nat resolving no_data no_data (COwn [VStr "other"])
               empty_store (VStr "other") (COwn []) empty_store (VStr "other")
               resolving empty_store).
    + vm_compute in Hbranch. injection Hbranch as <-. vm_compute. reflexivity.
    + reflexivity.
    + reflexivity.
    + right. exists "other"%string. split; vm_compute; reflexivity.
Defined.

(** An element that is null stops its literal: the array literal compiles
    it and then reads [elem.default] off it, the hash literal reads
    [elem.id] off it first. *)
Lemma null_element_throws (id : option string) (marked : bool) (s : store) :
  Expression (NArray [Element id marked NNull]) s
    = Throw (TypeError NoProperties) s /\
  Expression (NHash [Element id marked NNull]) s
    = Throw (TypeError NoProperties) s /\
  well_formed (NArray [Element id marked NNull]) = false /\
  well_formed (NHash [Element id marked NNull]) = false.
Proof. repeat split; reflexivity. Qed.

(** The kind tag "constructor" is no key of the dispatch table, and a node so
    tagged compiles: the table inherits [Object] under that name. *)
Lemma constructor_kind_compiles (s : store) :
  ("constructor"%string ∉ EXPRESSION_TYPES) /\
  Expression (NBare "constructor") s = Ok blank s.
Proof.
  split; [|reflexivity]. apply (bool_decide_unpack _). vm_compute. exact I.
Qed.

(** C8 as stated fails.  A unary expression is of a recognized kind, and
    yet compiling it fails when its operand is not. *)
Lemma recognized_kind_unknown_operand :
  node_type minus_bogus = Some "unaryExpression"%string /\
  ("unaryExpression"%string ∈ EXPRESSION_TYPES) /\
  Expression minus_bogus empty_store
    = Throw (TypeError NotAConstructor) empty_store.
Proof.
  split; [reflexivity|]. split; [|vm_compute; reflexivity].
  apply (bool_decide_unpack _). vm_compute. exact I.
Qed.

(** A node tagged "bogus" does not compile; the node of ["a" || "b"]
    does. *)
Lemma Expression_fails_or_succeeds_witness :
  (node_type (NBare "bogus") = Some "bogus"%string /\
   ("bogus"%string ∉ EXPRESSION_TYPES) /\
   "bogus"%string ≠ "constructor"%string /\
   Expression (NBare "bogus") empty_store
     = Throw (TypeError NotAConstructor) empty_store) /\
  (well_formed either_ast = true /\
   exists e s', Expression either_ast empty_store = Ok e s').
Proof.
  assert (H1 : node_type (NBare "bogus") = Some "bogus"%string) by reflexivity.
  assert (H2 : "bogus"%string ∉ EXPRESSION_TYPES).
  { apply (bool_decide_unpack _). vm_compute. exact I. }
  assert (H3 : "bogus"%string ≠ "constructor"%string) by discriminate.
  assert (H4 : well_formed either_ast = true) by reflexivity.
  split.
  - split; [exact H1|]. split; [exact H2|]. split; [exact H3|].
    exact (proj1 Expression_fails_or_succeeds (NBare "bogus") "bogus"%string
             empty_store H1 H2 H3).
  - split; [exact H4|].
    exact (proj2 Expression_fails_or_succeeds either_ast empty_store H4).
Defined.

(** ** What every run leaves in the store *)

Section Respects.

Variables Rok Rthrow : store -> store -> Prop.
Hypothesis Rok_refl : forall s, Rok s s.
Hypothesis Rthrow_refl : forall s, Rthrow s s.
Hypothesis Rok_trans : forall s1 s2 s3, Rok s1 s2 -> Rok s2 s3 -> Rok s1 s3.
Hypothesis Rok_Rthrow : forall s1 s2 s3, Rok s1 s2 -> Rthrow s2 s3 -> Rthrow s1 s3.
Hypothesis R_shift : forall a v rest s,
  array_of s a = v :: rest -> Rok s (set_array a rest s).
Hypothesis R_bracket : forall d s s1,
  dirty_of s d = false ->
  (Rok (set_dirty d true s) s1 -> Rok s (set_dirty d false s1)) /\
  (Rthrow (set_dirty d true s) s1 -> Rthrow s s1).

Lemma respects_ret {A} (a : A) : respects Rok Rthrow (ret a).
Proof. intros s. apply Rok_refl. Qed.

Lemma respects_throw {A} (e : error) : respects Rok Rthrow (@throw A e).
Proof. intros s. apply Rthrow_refl. Qed.

Lemma respects_host {A} : respects Rok Rthrow (@host A).
Proof. intros s. exact I. Qed.

Lemma respects_timeout {A} : respects Rok Rthrow (@timeout A).
Proof. intros s. exact I. Qed.

Lemma respects_bind {A B} (m : M A) (k : A -> M B) :
  respects Rok Rthrow m -> (forall a, respects Rok Rthrow (k a)) -> respects Rok Rthrow (bind m k).
Proof.
  intros Hm Hk s. unfold bind. specialize (Hm s).
  destruct (m s) as [a s1|e s1| |]; try exact I; [|exact Hm].
  specialize (Hk a s1). destruct (k a s1) as [b s2|e s2| |]; try exact I.
  - exact (Rok_trans _ _ _ Hm Hk).
  - exact (Rok_Rthrow _ _ _ Hm Hk).
Qed.

Lemma respects_shift (index : cursor) : respects Rok Rthrow (shift index).
Proof.
  intros s. destruct index as [a|[|v rest]|v]; simpl.
  - destruct (array_of s a) as [|v rest] eqn:Ha; [apply Rok_refl|].
    exact (R_shift a v rest s Ha).
  - apply Rok_refl.
  - apply Rok_refl.
  - destruct v; simpl; try apply Rthrow_refl; try exact I.
    destruct (o !! "shift"%string); [exact I | apply Rthrow_refl].
Qed.

Ltac resp_step :=
  first
    [ apply respects_ret | apply respects_throw | apply respects_host
    | apply respects_timeout | apply respects_shift
    | apply respects_bind; [ | intros ? ]
    | match goal with
      | H : forall e l env data index, respects _ _ (?call e l env data index)
        |- respects _ _ (?call _ _ _ _ _) => apply H
      | |- respects _ _ (let '(_, _) := ?p in _) => destruct p
      | |- respects _ _ (match ?x with _ => _ end) => destruct x
      | |- respects _ _ (if ?b then _ else _) => destruct b
      end ].

Ltac resp_auto := repeat resp_step.

Lemma respects_of_option {A} (o : option A) : respects Rok Rthrow (of_option o).
Proof. unfold of_option. resp_auto. Qed.

Lemma respects_get_prop (o : value) (k : string) : respects Rok Rthrow (get_prop o k).
Proof. unfold get_prop. resp_auto. Qed.

Lemma respects_bind_args names args i l0 : respects Rok Rthrow (bind_args names args i l0).
Proof.
  revert i l0. induction names as [|name rest IH]; intros i l0; simpl.
  - apply respects_ret.
  - destruct (bool_decide _); [apply respects_host|].
    apply respects_bind; [apply respects_of_option|]. intros v. apply IH.
Qed.

Section Over_call.

Variable call_ : evaluator -> locals -> value -> value -> cursor -> M (value * locals).
Hypothesis Hcall : forall e l env data index, respects Rok Rthrow (call_ e l env data index).

Lemma respects_macro m args env data : respects Rok Rthrow (macro call_ m args env data).
Proof.
  unfold macro. destruct (mac_args m); [|apply respects_throw].
  apply respects_bind; [apply respects_bind_args|]. intros l0. resp_auto.
Qed.

Lemma respects_invoke f l env data index : respects Rok Rthrow (invoke call_ f l env data index).
Proof.
  unfold invoke. destruct f; try apply respects_throw.
  - destruct e; try apply Hcall. apply respects_throw.
  - apply respects_bind; [apply respects_macro|]. intros v. apply respects_ret.
  - destruct (is_function _); [apply respects_host | apply respects_throw].
Qed.

Lemma respects_Entity__get this l env data index :
  respects Rok Rthrow (Entity__get call_ this l env data index).
Proof. unfold Entity__get. apply respects_invoke. Qed.

Lemma respects_Entity__yield this l env data index :
  respects Rok Rthrow (Entity__yield call_ this l env data index).
Proof. unfold Entity__yield. apply respects_Entity__get. Qed.

Lemma respects_Entity__resolve this l env data index :
  respects Rok Rthrow (Entity__resolve call_ this l env data index).
Proof. unfold Entity__resolve. apply respects_Entity__get. Qed.

Lemma respects_Attribute_get_loop n r l env data index :
  respects Rok Rthrow (Attribute_get_loop call_ n r l env data index).
Proof.
  revert r l index. induction n as [|n IH]; intros r l index.
  - destruct r; cbn [Attribute_get_loop]; try apply respects_timeout.
    apply respects_ret.
  - assert (Hstep : respects Rok Rthrow (do (key, index) <- shift index;
                          do (r, l) <- invoke call_ r l env data (CVal key);
                          Attribute_get_loop call_ n r l env data index)).
    { apply respects_bind; [apply respects_shift|]. intros [key index'].
      apply respects_bind; [apply respects_invoke|]. intros [r' l']. apply IH. }
    destruct r; cbn [Attribute_get_loop]; try exact Hstep. apply respects_ret.
Qed.

Lemma respects_index_field o : respects Rok Rthrow (index_field o).
Proof. unfold index_field. resp_auto. Qed.

Lemma respects_Attribute_get fuel this l env data index :
  respects Rok Rthrow (Attribute_get call_ fuel this l env data index).
Proof.
  unfold Attribute_get, Attribute_yield.
  apply respects_bind.
  { destruct index as [| |[]]; try apply respects_ret.
    apply respects_bind; [apply respects_of_option|]. intros this'.
    apply respects_index_field. }
  intros index'. apply respects_bind; [apply respects_shift|]. intros [key index''].
  apply respects_bind; [apply respects_invoke|]. intros [r l'].
  apply respects_Attribute_get_loop.
Qed.

Lemma respects_Entity_getAttribute fuel this name env data :
  respects Rok Rthrow (Entity_getAttribute call_ fuel this name env data).
Proof.
  unfold Entity_getAttribute. apply respects_bind; [apply respects_of_option|].
  intros k. destruct (assoc_get _ k); [apply respects_Attribute_get|].
  destruct (inherited _ k); apply respects_throw.
Qed.

Lemma respects_force_key key l env data : respects Rok Rthrow (force_key call_ key l env data).
Proof.
  unfold force_key. destruct (is_function key);
    [apply respects_invoke | apply respects_ret].
Qed.

Lemma respects_select get key dkey : respects Rok Rthrow (select get key dkey).
Proof.
  unfold select. destruct (truthy key); [|apply respects_of_option].
  apply respects_bind; [apply respects_of_option|]. intros k.
  apply respects_bind; [apply respects_of_option|]. intros member.
  destruct (truthy member); [apply respects_ret | apply respects_of_option].
Qed.

Lemma respects_resolve_or_yield member l env data index :
  respects Rok Rthrow (resolve_or_yield call_ member l env data index).
Proof.
  unfold resolve_or_yield.
  apply respects_bind; [apply respects_of_option|]. intros flag.
  destruct (truthy flag); [apply respects_invoke | apply respects_ret].
Qed.

Lemma respects_drive n part l env data : respects Rok Rthrow (drive call_ n part l env data).
Proof.
  revert part l. induction n as [|n IH]; intros part l.
  - destruct part; cbn [drive]; try apply respects_timeout. apply respects_ret.
  - destruct part; cbn [drive]; try apply respects_ret;
      (apply respects_bind;
       [first [apply respects_invoke | apply respects_Entity__resolve]
       | intros [part' l']; apply IH]).
Qed.

Lemma respects_parts_of fuel content l env data :
  respects Rok Rthrow (parts_of call_ fuel content l env data).
Proof.
  revert l. induction content as [|elem rest IH]; intros l; cbn [parts_of].
  - apply respects_ret.
  - apply respects_bind; [apply respects_invoke|]. intros [part l1].
    apply respects_bind; [apply respects_drive|]. intros [text l2].
    apply respects_bind; [apply IH|]. intros [parts l3]. apply respects_ret.
Qed.

Lemma respects_complexString fuel d content l env data :
  respects Rok Rthrow (complexString_body call_ fuel d content l env data).
Proof.
  intros s. unfold complexString_body.
  destruct (dirty_of s d) eqn:Hd; [apply Rthrow_refl|].
  pose proof (respects_parts_of fuel content l env data (set_dirty d true s)) as Hparts.
  unfold bind.
  destruct (parts_of call_ fuel content l env data (set_dirty d true s))
    as [[parts l'] s1|e s1| |]; try exact I.
  - exact (proj1 (R_bracket d s s1 Hd) Hparts).
  - exact (proj2 (R_bracket d s s1 Hd) Hparts).
Qed.

Lemma respects_resolve_args args l env data :
  respects Rok Rthrow (resolve_args call_ args l env data).
Proof.
  revert l. induction args as [|arg rest IH]; intros l; cbn [resolve_args].
  - apply respects_ret.
  - apply respects_bind; [apply respects_invoke|]. intros [v l1].
    apply respects_bind; [apply IH|]. intros [vs l2]. apply respects_ret.
Qed.

Lemma respects_body fuel e l env data index :
  respects Rok Rthrow (body call_ fuel e l env data index).
Proof.
  destruct e; cbn [body].
  - apply respects_throw.
  - unfold identifier_body. apply respects_bind; [apply respects_get_prop|].
    intros v. apply respects_ret.
  - unfold thisIdentifier_body. apply respects_bind; [apply respects_of_option|].
    intros v. apply respects_ret.
  - unfold variable_body. apply respects_bind; [apply respects_of_option|].
    intros value. destruct value; try apply respects_ret.
    apply respects_bind; [apply respects_get_prop|]. intros v. apply respects_ret.
  - unfold global_body. apply respects_bind; [apply respects_get_prop|].
    intros g. apply respects_bind; [apply respects_get_prop|].
    intros v. apply respects_ret.
  - apply respects_ret.
  - apply respects_ret.
  - unfold arrayLiteral_body.
    apply respects_bind; [apply respects_shift|]. intros [key index'].
    apply respects_bind; [apply respects_force_key|]. intros [key' l'].
    apply respects_bind; [apply respects_select|]. intros member.
    apply respects_resolve_or_yield.
  - unfold hashLiteral_body.
    apply respects_bind; [apply respects_shift|]. intros [key index'].
    apply respects_bind; [apply respects_force_key|]. intros [key' l'].
    apply respects_bind; [apply respects_select|]. intros member.
    apply respects_resolve_or_yield.
  - apply respects_complexString.
  - unfold unaryExpression_body.
    apply respects_bind; [apply respects_invoke|]. intros [v l'].
    destruct operator; [|apply respects_throw].
    apply respects_bind; [apply respects_of_option|]. intros r. apply respects_ret.
  - unfold binaryExpression_body.
    apply respects_bind; [apply respects_invoke|]. intros [x l1].
    apply respects_bind; [apply respects_invoke|]. intros [y l2].
    destruct operator; [|apply respects_throw].
    apply respects_bind; [apply respects_of_option|]. intros r. apply respects_ret.
  - unfold logicalExpression_body.
    apply respects_bind; [apply respects_invoke|]. intros [x l1].
    apply respects_bind; [apply respects_invoke|]. intros [y l2].
    destruct operator; [apply respects_ret | apply respects_throw].
  - unfold conditionalExpression_body.
    apply respects_bind; [apply respects_invoke|]. intros [t l1].
    destruct (truthy t); apply respects_invoke.
  - unfold callExpression_body.
    apply respects_bind; [apply respects_resolve_args|]. intros [vs l1].
    apply respects_bind; [apply respects_invoke|]. intros [f l2].
    apply respects_bind; [apply respects_invoke|]. intros [v l3]. apply respects_ret.
  - unfold propertyExpression_body.
    apply respects_bind; [apply respects_invoke|]. intros [r l1].
    destruct r;
      first [apply respects_Entity__yield | apply respects_throw
            | apply respects_invoke].
  - unfold attributeExpression_body.
    apply respects_bind; [apply respects_invoke|]. intros [entity l1].
    destruct entity; try apply respects_throw; try apply respects_host.
    + apply respects_bind; [apply respects_Entity_getAttribute|].
      intros v. apply respects_ret.
    + destruct (o !! "getAttribute"%string);
        [apply respects_host | apply respects_throw].
Qed.

Lemma respects_each_attribute fuel this todo env data attrs :
  respects Rok Rthrow (each_attribute call_ fuel this todo env data attrs).
Proof.
  revert attrs. induction todo as [|[k attr] rest IH]; intros attrs;
    cbn [each_attribute].
  - apply respects_ret.
  - apply respects_bind; [apply respects_Attribute_get|]. intros v. apply IH.
Qed.

End Over_call.

Lemma respects_call fuel e l env data index : respects Rok Rthrow (call fuel e l env data index).
Proof.
  revert e l env data index. induction fuel as [|n IH]; intros e l env data index.
  - apply respects_timeout.
  - rewrite call_S. apply respects_body. exact IH.
Qed.

Lemma respects_get fuel this env data index : respects Rok Rthrow (get fuel this env data index).
Proof.
  unfold get, Entity_get. apply respects_bind.
  - apply respects_Entity__resolve. apply respects_call.
  - intros [v l]. apply respects_ret.
Qed.

Lemma respects_getAttribute fuel this name env data :
  respects Rok Rthrow (getAttribute fuel this name env data).
Proof. apply respects_Entity_getAttribute. apply respects_call. Qed.

Lemma respects_getAttributes fuel this env data :
  respects Rok Rthrow (getAttributes fuel this env data).
Proof. apply respects_each_attribute. apply respects_call. Qed.

Lemma respects_getEntity fuel this env data : respects Rok Rthrow (getEntity fuel this env data).
Proof.
  unfold getEntity, Entity_getEntity.
  apply respects_bind; [apply respects_get|]. intros v.
  apply respects_bind; [apply respects_getAttributes|]. intros attrs.
  apply respects_ret.
Qed.

Lemma respects_Macro_call fuel m args env data :
  respects Rok Rthrow (Macro_call fuel m args env data).
Proof. apply respects_macro. apply respects_call. Qed.

End Respects.

Lemma dirty_of_set_dirty_ne (d d' : nat) (b : bool) (s : store) :
  d ≠ d' -> dirty_of (set_dirty d b s) d' = dirty_of s d'.
Proof.
  intros Hne. unfold dirty_of, set_dirty. simpl.
  rewrite lookup_insert_ne by exact Hne. reflexivity.
Qed.

Lemma array_of_set_array (a : nat) (l : list value) (s : store) :
  array_of (set_array a l s) a = l.
Proof. unfold array_of, set_array. simpl. rewrite lookup_insert_eq. reflexivity. Qed.

Lemma array_of_set_array_ne (a a' : nat) (l : list value) (s : store) :
  a ≠ a' -> array_of (set_array a l s) a' = array_of s a'.
Proof.
  intros Hne. unfold array_of, set_array. simpl.
  rewrite lookup_insert_ne by exact Hne. reflexivity.
Qed.

Lemma markers_laws : store_laws markers_kept markers_grow.
Proof.
  repeat apply conj.
  - intros s d. reflexivity.
  - intros s d Hd. exact Hd.
  - intros s1 s2 s3 H12 H23 d. rewrite H23. apply H12.
  - intros s1 s2 s3 H12 H23 d Hd. apply H23. rewrite H12. exact Hd.
  - intros a v rest s _ d. reflexivity.
  - intros d s s1 Hd. split.
    + intros Hkept d'. destruct (decide (d = d')) as [<-|Hne].
      * rewrite dirty_of_set_dirty. symmetry. exact Hd.
      * rewrite dirty_of_set_dirty_ne by exact Hne. rewrite Hkept.
        apply dirty_of_set_dirty_ne. exact Hne.
    + intros Hgrow d' Hd'. apply Hgrow.
      destruct (decide (d = d')) as [<-|Hne]; [congruence|].
      rewrite dirty_of_set_dirty_ne by exact Hne. exact Hd'.
Qed.

Lemma consumed_laws : store_laws consumed consumed.
Proof.
  assert (Hrefl : forall s, consumed s s).
  { intros s. split; [reflexivity | intros a; reflexivity]. }
  repeat apply conj; try exact Hrefl.
  - intros s1 s2 s3 [Hn12 H12] [Hn23 H23]. split; [congruence|].
    intros a. etrans; [apply H23 | apply H12].
  - intros s1 s2 s3 [Hn12 H12] [Hn23 H23]. split; [congruence|].
    intros a. etrans; [apply H23 | apply H12].
  - intros a v rest s Ha. split; [reflexivity|]. intros a'.
    destruct (decide (a = a')) as [<-|Hne].
    + rewrite array_of_set_array, Ha. apply suffix_cons_r. reflexivity.
    + rewrite array_of_set_array_ne by exact Hne. reflexivity.
  - intros d s s1 _. split; intros Hc; exact Hc.
Qed.

(** Every run of the interpreter respects a pair of relations that obeys
    the laws. *)
Lemma laws_respected (Rok Rthrow : store -> store -> Prop) :
  store_laws Rok Rthrow ->
  (forall fuel e l env data index,
     respects Rok Rthrow (call fuel e l env data index)) /\
  (forall fuel this env data index,
     respects Rok Rthrow (get fuel this env data index)) /\
  (forall fuel this name env data,
     respects Rok Rthrow (getAttribute fuel this name env data)) /\
  (forall fuel this env data,
     respects Rok Rthrow (getAttributes fuel this env data)) /\
  (forall fuel this env data,
     respects Rok Rthrow (getEntity fuel this env data)).
Proof.
  intros (H1 & H2 & H3 & H4 & H5 & H6).
  split; [|split; [|split; [|split]]].
  - intros. apply respects_call; assumption.
  - intros. apply respects_get; assumption.
  - intros. apply respects_getAttribute; assumption.
  - intros. apply respects_getAttributes; assumption.
  - intros. apply respects_getEntity; assumption.
Qed.

(** X1.  No run clears a [dirty] variable it found set, and a run that
    returns leaves every [dirty] variable as it found it: this holds of
    the call of any compiled closure and of [get], [getAttribute],
    [getAttributes] and [getEntity].  Only a throw can leave a variable
    set that was clear. *)
Theorem markers_survive :
  (forall fuel e l env data index,
     respects markers_kept markers_grow (call fuel e l env data index)) /\
  (forall fuel this env data index,
     respects markers_kept markers_grow (get fuel this env data index)) /\
  (forall fuel this name env data,
     respects markers_kept markers_grow (getAttribute fuel this name env data)) /\
  (forall fuel this env data,
     respects markers_kept markers_grow (getAttributes fuel this env data)) /\
  (forall fuel this env data,
     respects markers_kept markers_grow (getEntity fuel this env data)).
Proof.
  destruct markers_laws as (Hrefl & Hrefl' & Htrans & Htrans' & Hshift & Hbracket).
  split; [|split; [|split; [|split]]]; intros.
  - apply respects_call; assumption.
  - apply respects_get; assumption.
  - apply respects_getAttribute; assumption.
  - apply respects_getAttributes; assumption.
  - apply respects_getEntity; assumption.
Qed.

(** X2.  Resolving allocates nothing and never writes into an [index]
    array: after any call of a compiled closure, [get], [getAttribute],
    [getAttributes] or [getEntity], returned or thrown, every array is a
    suffix of what it was, its front elements having been shifted off. *)
Theorem index_only_consumed :
  (forall fuel e l env data index,
     respects consumed consumed (call fuel e l env data index)) /\
  (forall fuel this env data index,
     respects consumed consumed (get fuel this env data index)) /\
  (forall fuel this name env data,
     respects consumed consumed (getAttribute fuel this name env data)) /\
  (forall fuel this env data,
     respects consumed consumed (getAttributes fuel this env data)) /\
  (forall fuel this env data,
     respects consumed consumed (getEntity fuel this env data)).
Proof.
  destruct consumed_laws as (Hrefl & Hrefl' & Htrans & Htrans' & Hshift & Hbracket).
  split; [|split; [|split; [|split]]]; intros.
  - apply respects_call; assumption.
  - apply respects_get; assumption.
  - apply respects_getAttribute; assumption.
  - apply respects_getAttributes; assumption.
  - apply respects_getEntity; assumption.
Qed.

(** X3.  A [dirty] variable that is set stays set through any [get] on any
    entity, whether that [get] returns or throws, so the interpolated
    string it guards goes on throwing "Recursive reference" afterwards. *)
Theorem stuck_marker_stays_stuck (fuel : nat) (this : Entity) (env data : value)
    (index : cursor) (s s' : store) (d : nat) :
  dirty_of s d = true ->
  leaves (get fuel this env data index s) s' ->
  forall fuel' content l env' data' index',
    call (S fuel') (complexString d content) l env' data' index' s'
    = Throw RecursiveReference s'.
Proof.
  intros Hd Hrun fuel' content l env' data' index'.
  assert (Hd' : dirty_of s' d = true).
  { pose proof (proj1 (proj2 (laws_respected _ _ markers_laws))
                  fuel this env data index s) as Hinv.
    destruct Hrun as [[v Hrun]|[e Hrun]]; rewrite Hrun in Hinv.
    - rewrite Hinv. exact Hd.
    - exact (Hinv d Hd). }
  rewrite call_S. simpl. unfold complexString_body. rewrite Hd'. reflexivity.
Qed.

Lemma stuck_marker_stays_stuck_witness :
  dirty_of (set_dirty 0 true greeting_store) 0 = true /\
  leaves (get 3 greeting no_data (VObj {[ "name"%string := VStr "World" ]})
            undefined (set_dirty 0 true greeting_store))
         (set_dirty 0 true greeting_store) /\
  forall fuel' content l env' data' index',
    call (S fuel') (complexString 0 content) l env' data' index'
      (set_dirty 0 true greeting_store)
    = Throw RecursiveReference (set_dirty 0 true greeting_store).
Proof.
  assert (H1 : dirty_of (set_dirty 0 true greeting_store) 0 = true)
    by (vm_compute; reflexivity).
  assert (H2 : leaves (get 3 greeting no_data
                         (VObj {[ "name"%string := VStr "World" ]})
                         undefined (set_dirty 0 true greeting_store))
                      (set_dirty 0 true greeting_store)).
  { right. exists RecursiveReference. vm_compute. reflexivity. }
  split; [exact H1|]. split; [exact H2|].
  exact (stuck_marker_stays_stuck 3 greeting no_data _ undefined _ _ 0%nat H1 H2).
Defined.

(** ** Interpolated strings *)

Lemma yields_text_not_blank fuel l env data t :
  ~ yields_text fuel l env data blank t.
Proof.
  intros H. specialize (H empty_store). destruct fuel; discriminate H.
Qed.

Lemma parts_of_texts (fuel k : nat) (l : locals) (env data : value)
    (content : list evaluator) (texts : list string) (s : store) :
  Forall2 (yields_text fuel l env data) content texts ->
  parts_of (call fuel) k content l env data s = Ok (texts, l) s.
Proof.
  induction 1 as [|e t content texts He _ IH]; [reflexivity|].
  cbn [parts_of]. unfold bind.
  assert (Hinv : invoke (call fuel) (VExpr e) l env data undefined s
                 = Ok (VStr t, l) s).
  { destruct e; try exact (He s).
    exfalso. exact (yields_text_not_blank _ _ _ _ _ He). }
  rewrite Hinv. destruct k; cbn [drive]; unfold ret; rewrite IH; reflexivity.
Qed.

Lemma set_dirty_twice (d : nat) (b b' : bool) (s : store) :
  set_dirty d b' (set_dirty d b s) = set_dirty d b' s.
Proof. unfold set_dirty. simpl. rewrite insert_insert_eq. reflexivity. Qed.

(** X4.  An interpolated string entered with its [dirty] variable clear,
    each of whose parts returns a string without touching the store or the
    locals, returns the concatenation of those strings in order, and leaves
    its variable clear. *)
Theorem complexString_concatenates (fuel d : nat) (content : list evaluator)
    (texts : list string) (l : locals) (env data : value) (index : cursor)
    (s : store) :
  Forall2 (yields_text fuel l env data) content texts ->
  dirty_of s d = false ->
  call (S fuel) (complexString d content) l env data index s
  = Ok (VStr (join texts), l) (set_dirty d false s).
Proof.
  intros Hparts Hd. rewrite call_S. simpl. unfold complexString_body.
  rewrite Hd. unfold bind. rewrite (parts_of_texts fuel fuel l env data content texts _ Hparts).
  rewrite set_dirty_twice. reflexivity.
Qed.

Lemma complexString_concatenates_witness :
  Forall2 (yields_text 1 empty_locals no_data
             (VObj {[ "name"%string := VStr "World" ]}))
    [stringLiteral (KString "Hello, "); variable "name"]
    ["Hello, "; "World"]%string /\
  dirty_of greeting_store 0 = false /\
  call 2 (complexString 0 [stringLiteral (KString "Hello, "); variable "name"])
    empty_locals no_data (VObj {[ "name"%string := VStr "World" ]}) undefined
    greeting_store
  = Ok (VStr (join ["Hello, "; "World"]%string), empty_locals)
       (set_dirty 0 false greeting_store).
Proof.
  assert (H1 : Forall2 (yields_text 1 empty_locals no_data
                          (VObj {[ "name"%string := VStr "World" ]}))
                 [stringLiteral (KString "Hello, "); variable "name"]
                 ["Hello, "; "World"]%string).
  { constructor; [intros s; reflexivity|].
    constructor; [intros s; reflexivity|]. constructor. }
  assert (H2 : dirty_of greeting_store 0 = false) by (vm_compute; reflexivity).
  split; [exact H1|]. split; [exact H2|].
  exact (complexString_concatenates 1 0 _ _ empty_locals no_data _ undefined
           greeting_store H1 H2).
Defined.

Lemma parts_of_prefix_throw (fuel k : nat) (l : locals) (env data : value)
    (pre : list evaluator) (texts : list string) (e : evaluator)
    (post : list evaluator) (s : store) (err : error) (s' : store) :
  Forall2 (yields_text fuel l env data) pre texts ->
  invoke (call fuel) (VExpr e) l env data undefined s = Throw err s' ->
  parts_of (call fuel) k (pre ++ e :: post) l env data s = Throw err s'.
Proof.
  intros Hpre Hthrow. induction Hpre as [|x t pre texts Hx _ IH].
  - cbn [app parts_of]. rewrite (bind_Throw _ _ _ _ _ Hthrow). reflexivity.
  - cbn [app parts_of]. unfold bind.
    assert (Hinv : invoke (call fuel) (VExpr x) l env data undefined s
                   = Ok (VStr t, l) s).
    { destruct x; try exact (Hx s).
      exfalso. exact (yields_text_not_blank _ _ _ _ _ Hx). }
    rewrite Hinv. destruct k; cbn [drive]; unfold ret; rewrite IH; reflexivity.
Qed.

(** X5.  An array literal placed directly among the parts of an
    interpolated string is called without an index: once the parts before
    it have given their text, [index.shift()] on [undefined] throws a
    TypeError, and the string is left with its [dirty] variable set. *)
Theorem array_part_breaks_string (fuel d : nat) (pre : list evaluator)
    (texts : list string) (content : list evaluator) (defaultKey : nat)
    (post : list evaluator) (l : locals) (env data : value) (index : cursor)
    (s : store) :
  Forall2 (yields_text (S fuel) l env data) pre texts ->
  dirty_of s d = false ->
  call (S (S fuel))
    (complexString d (pre ++ arrayLiteral content defaultKey :: post))
    l env data index s
  = Throw (TypeError NoProperties) (set_dirty d true s).
Proof.
  intros Hpre Hd. rewrite call_S. cbn [body]. unfold complexString_body.
  rewrite Hd.
  rewrite (bind_Throw _ _ _ _ _
             (parts_of_prefix_throw (S fuel) (S fuel) l env data pre texts
                (arrayLiteral content defaultKey) post (set_dirty d true s)
                (TypeError NoProperties) (set_dirty d true s) Hpre eq_refl)).
  reflexivity.
Qed.

Lemma array_part_breaks_string_witness :
  Forall2 (yields_text 1 empty_locals no_data no_data)
    [stringLiteral (KString "You have ")] ["You have "%string] /\
  dirty_of greeting_store 0 = false /\
  call 2
    (complexString 0
       ([stringLiteral (KString "You have ")]
        ++ arrayLiteral [ stringLiteral (KString "one");
                          stringLiteral (KString "many") ] 0
        :: [stringLiteral (KString " items")]))
    empty_locals no_data no_data undefined greeting_store
  = Throw (TypeError NoProperties) (set_dirty 0 true greeting_store).
Proof.
  assert (H1 : Forall2 (yields_text 1 empty_locals no_data no_data)
                 [stringLiteral (KString "You have ")] ["You have "%string]).
  { constructor; [intros s; reflexivity | constructor]. }
  assert (H2 : dirty_of greeting_store 0 = false) by (vm_compute; reflexivity).
  split; [exact H1|]. split; [exact H2|].
  exact (array_part_breaks_string 0 0 _ _ _ 0 [stringLiteral (KString " items")]
           empty_locals no_data no_data undefined greeting_store H1 H2).
Defined.

(** X6.  Whatever makes an interpolated string throw, when it was entered
    with its [dirty] variable clear, the variable is set in the store the
    throw leaves: nothing resets it.  From then on every evaluation of
    that string throws "Recursive reference", whatever its arguments. *)
Theorem failed_string_is_poisoned (fuel d : nat) (content : list evaluator)
    (l : locals) (env data : value) (index : cursor) (s : store) (err : error)
    (s1 : store) :
  dirty_of s d = false ->
  call (S fuel) (complexString d content) l env data index s = Throw err s1 ->
  dirty_of s1 d = true /\
  forall fuel' content' l' env' data' index',
    call (S fuel') (complexString d content') l' env' data' index' s1
    = Throw RecursiveReference s1.
Proof.
  intros Hd Hrun.
  assert (Hd1 : dirty_of s1 d = true).
  { rewrite call_S in Hrun. cbn [body] in Hrun.
    unfold complexString_body in Hrun. rewrite Hd in Hrun. unfold bind in Hrun.
    destruct markers_laws as (L1 & L2 & L3 & L4 & _).
    pose proof (respects_parts_of markers_kept markers_grow L1 L2 L3 L4 (call fuel)
                  (proj1 (laws_respected _ _ markers_laws) fuel)
                  fuel content l env data (set_dirty d true s)) as Hinv.
    destruct (parts_of (call fuel) fuel content l env data (set_dirty d true s))
      as [[parts l1] s2|e s2| |]; try discriminate Hrun.
    injection Hrun as _ <-. apply Hinv. apply dirty_of_set_dirty. }
  split; [exact Hd1|].
  intros fuel' content' l' env' data' index'.
  rewrite call_S. cbn [body]. unfold complexString_body. rewrite Hd1. reflexivity.
Qed.

Lemma failed_string_is_poisoned_witness :
  dirty_of greeting_store 0 = false /\
  call 2 (complexString 0 [stringLiteral (KString "Hello, "); variable "name"])
    empty_locals no_data (VObj {[ "name"%string := VNum 5 ]}) undefined
    greeting_store
    = Throw (TypeError NotAFunction) (set_dirty 0 true greeting_store) /\
  dirty_of (set_dirty 0 true greeting_store) 0 = true /\
  forall fuel' content' l' env' data' index',
    call (S fuel') (complexString 0 content') l' env' data' index'
      (set_dirty 0 true greeting_store)
    = Throw RecursiveReference (set_dirty 0 true greeting_store).
Proof.
  assert (H1 : dirty_of greeting_store 0 = false) by (vm_compute; reflexivity).
  assert (H2 : call 2 (complexString 0 [stringLiteral (KString "Hello, ");
                                        variable "name"])
                 empty_locals no_data (VObj {[ "name"%string := VNum 5 ]})
                 undefined greeting_store
               = Throw (TypeError NotAFunction) (set_dirty 0 true greeting_store))
    by (vm_compute; reflexivity).
  split; [exact H1|]. split; [exact H2|].
  exact (failed_string_is_poisoned 1 0 _ empty_locals no_data _ undefined
           greeting_store _ _ H1 H2).
Defined.

(** X7.  A part of an interpolated string that names another entity is
    resolved through [_resolve] on the very locals of the string, and
    [_get] assigns [locals.__this__]: the parts that follow run with
    [__this__] bound to the entity referred to, and [__resolve__] set, not
    with the locals the string was entered with. *)
Theorem reference_rebinds_this (fuel : nat) (name : string) (other : Entity)
    (t : string) (o : gmap string value) (rest : list evaluator) (l : locals)
    (data : value) (s : store) :
  o !! name = Some (VEntity other) ->
  ent_value other = stringLiteral (KString t) ->
  parts_of (call (S fuel)) (S fuel) (identifier name :: rest) l (VObj o) data s
  = (do (parts, l') <- parts_of (call (S fuel)) (S fuel) rest
                         (locals_set (locals_set l "__resolve__" (VBool true))
                            "__this__" (VEntity other))
                         (VObj o) data;
     ret (t :: parts, l')) s.
Proof.
  intros Hname Hvalue. cbn [parts_of].
  assert (Hpart : invoke (call (S fuel)) (VExpr (identifier name)) l (VObj o) data
                    undefined s
                  = Ok (VEntity other, l) s).
  { cbn [invoke]. rewrite call_S. cbn [body].
    unfold identifier_body, get_prop, obj_get. rewrite Hname. reflexivity. }
  rewrite (bind_Ok _ _ _ _ _ Hpart). cbn beta iota.
  assert (Hdrive : drive (call (S fuel)) (S fuel) (VEntity other) l (VObj o) data s
                   = Ok (t, locals_set (locals_set l "__resolve__" (VBool true))
                              "__this__" (VEntity other)) s).
  { cbn [drive]. unfold Entity__resolve, Entity__get. cbn [undefined].
    rewrite Hvalue. cbn [invoke]. rewrite call_S. cbn [body].
    unfold bind, ret. destruct fuel; reflexivity. }
  rewrite (bind_Ok _ _ _ _ _ Hdrive). reflexivity.
Qed.

Lemma reference_rebinds_this_witness :
  ({[ "a"%string := VEntity second_a ]} : gmap string value) !! "a"%string
    = Some (VEntity second_a) /\
  ent_value second_a = stringLiteral (KString "second") /\
  parts_of (call 1) 1 [identifier "a"; thisIdentifier] empty_locals
    (VObj {[ "a"%string := VEntity second_a ]}) no_data early_store
  = (do (parts, l') <- parts_of (call 1) 1 [thisIdentifier]
                         (locals_set (locals_set empty_locals "__resolve__"
                                        (VBool true))
                            "__this__" (VEntity second_a))
                         (VObj {[ "a"%string := VEntity second_a ]}) no_data;
     ret ("second"%string :: parts, l')) early_store.
Proof.
  assert (H1 : ({[ "a"%string := VEntity second_a ]} : gmap string value)
                 !! "a"%string = Some (VEntity second_a))
    by (vm_compute; reflexivity).
  assert (H2 : ent_value second_a = stringLiteral (KString "second"))
    by reflexivity.
  split; [exact H1|]. split; [exact H2|].
  exact (reference_rebinds_this 0 "a" second_a "second" _ [thisIdentifier]
           empty_locals no_data early_store H1 H2).
Defined.

(** ** Selection by a declared key *)

Lemma arrayLiteral_run call_ content d l env data index s key rest s1 key' l' s2
    member :
  shift index s = Ok (key, rest) s1 ->
  force_key call_ key l env data s1 = Ok (key', l') s2 ->
  select (array_get content) key' (pretty d) s2 = Ok member s2 ->
  arrayLiteral_body call_ content d l env data index s
  = resolve_or_yield call_ member l' env data rest s2.
Proof.
  intros Hshift Hkey Hmember. unfold arrayLiteral_body.
  rewrite (bind_Ok _ _ _ _ _ Hshift). simpl.
  rewrite (bind_Ok _ _ _ _ _ Hkey). simpl.
  rewrite (bind_Ok _ _ _ _ _ Hmember). reflexivity.
Qed.

Lemma hashLiteral_run call_ content dkey l env data index s key rest s1 key' l' s2
    member :
  shift (if cursor_truthy index then index else COwn []) s = Ok (key, rest) s1 ->
  force_key call_ key l env data s1 = Ok (key', l') s2 ->
  select (hash_get content) key' dkey s2 = Ok member s2 ->
  hashLiteral_body call_ content dkey l env data index s
  = resolve_or_yield call_ member l' env data rest s2.
Proof.
  intros Hshift Hkey Hmember. unfold hashLiteral_body.
  rewrite (bind_Ok _ _ _ _ _ Hshift). simpl.
  rewrite (bind_Ok _ _ _ _ _ Hkey). simpl.
  rewrite (bind_Ok _ _ _ _ _ Hmember). reflexivity.
Qed.

Lemma force_key_value call_ key l env data s :
  is_function key = false -> force_key call_ key l env data s = Ok (key, l) s.
Proof. intros H. unfold force_key. rewrite H. reflexivity. Qed.

Lemma declared_selected (lit : evaluator) (key : value) (k : string)
    (e : evaluator) (s : store) :
  truthy key = true ->
  to_key key = Some k ->
  declares lit k e ->
  selected lit key s = Ok (VExpr e) s.
Proof.
  intros Htruthy Hk Hdecl. destruct lit; try contradiction; simpl in Hdecl |- *.
  - destruct Hdecl as (i & -> & Hi).
    exact (select_declared _ _ _ _ _ _ Htruthy Hk
             (array_get_numeral content i e Hi) eq_refl).
  - exact (select_declared _ _ _ _ _ _ Htruthy Hk
             (hash_get_declared content k e Hdecl) eq_refl).
Qed.

(** X8.  A key at the head of the cursor that is not a function, is
    truthy, and names a branch the literal holds (the position it spells,
    for an array; the id, for a hash) selects that branch: the run goes on
    as the resolve-or-yield step on it, with the rest of the cursor. *)
Theorem declared_key_selects (fuel : nat) (lit : evaluator) (key : value)
    (k : string) (e : evaluator) (l : locals) (env data : value)
    (rest : list value) (s : store) :
  is_function key = false ->
  truthy key = true ->
  to_key key = Some k ->
  declares lit k e ->
  call (S fuel) lit l env data (COwn (key :: rest)) s
  = resolve_or_yield (call fuel) (VExpr e) l env data (COwn rest) s.
Proof.
  intros Hfun Htruthy Hk Hdecl.
  pose proof (declared_selected lit key k e s Htruthy Hk Hdecl) as Hsel.
  rewrite call_S. destruct lit; try contradiction; cbn [body].
  - apply (arrayLiteral_run _ _ _ _ _ _ _ _ key (COwn rest) s key l s);
      [reflexivity | apply force_key_value; exact Hfun | exact Hsel].
  - apply (hashLiteral_run _ _ _ _ _ _ _ _ key (COwn rest) s key l s);
      [reflexivity | apply force_key_value; exact Hfun | exact Hsel].
Qed.

Lemma declared_key_selects_witness :
  is_function (VNum 1) = false /\
  truthy (VNum 1) = true /\
  to_key (VNum 1) = Some "1"%string /\
  declares plural "1" (stringLiteral (KString "many")) /\
  call 2 plural resolving no_data no_data (COwn [VNum 1]) items_store
  = resolve_or_yield (call 1) (VExpr (stringLiteral (KString "many"))) resolving
      no_data no_data (COwn []) items_store.
Proof.
  assert (H1 : is_function (VNum 1) = false) by reflexivity.
  assert (H2 : truthy (VNum 1) = true) by reflexivity.
  assert (H3 : to_key (VNum 1) = Some "1"%string) by (vm_compute; reflexivity).
  assert (H4 : declares plural "1" (stringLiteral (KString "many"))).
  { exists 1%nat. split; [vm_compute; reflexivity | reflexivity]. }
  split; [exact H1|]. split; [exact H2|]. split; [exact H3|]. split; [exact H4|].
  exact (declared_key_selects 1 plural (VNum 1) "1" _ resolving no_data no_data
           [] items_store H1 H2 H3 H4).
Defined.

(** ** Attributes *)

Lemma this_locals_this (this : Entity) :
  locals_get (this_locals this) "__this__" = Some (VEntity this).
Proof.
  unfold locals_get, this_locals, locals_set. simpl.
  rewrite lookup_insert_eq. reflexivity.
Qed.

Lemma this_locals_resolve (this : Entity) :
  locals_get (this_locals this) "__resolve__" = Some VUndef.
Proof.
  unfold locals_get, this_locals, locals_set. simpl.
  rewrite lookup_insert_ne by discriminate. rewrite lookup_empty.
  vm_compute. reflexivity.
Qed.

Lemma shift_CRef (a : nat) (s : store) :
  shift (CRef a) s = Ok (default VUndef (head (array_of s a)), CRef a) (shifted a s).
Proof. unfold shifted. simpl. destruct (array_of s a); reflexivity. Qed.

(** [getAttribute] on a declared attribute: the entity's own index array is
    shifted, the attribute's value is called with the key shifted off as
    its cursor, and the loop runs on what it returns. *)
Lemma getAttribute_declared (fuel : nat) (this : Entity) (name : value)
    (k : string) (attr : Attribute) (env data : value) (s : store) :
  to_key name = Some k ->
  assoc_get (ent_attributes this) k = Some attr ->
  getAttribute fuel this name env data s
  = (do (r, l) <- invoke (call fuel) (VExpr (attr_value attr)) (this_locals this)
                    env data (CVal (default VUndef (head (array_of s (ent_index this)))));
     Attribute_get_loop (call fuel) fuel r l env data (CRef (ent_index this)))
      (shifted (ent_index this) s).
Proof.
  intros Hk Hattr. unfold getAttribute, Entity_getAttribute.
  rewrite Hk. cbn [of_option]. unfold bind at 1. cbn [ret]. rewrite Hattr.
  unfold Attribute_get. cbn [undefined]. rewrite this_locals_this.
  cbn [of_option]. unfold bind at 1. unfold bind at 1.
  cbn [ret index_field].
  rewrite (bind_Ok _ _ _ _ _ (shift_CRef (ent_index this) s)). reflexivity.
Qed.

(** X9.  [getAttribute] on an attribute whose value is a string literal
    returns that string, and shifts one element off the entity's own
    [index] array on the way, as [Attribute.get] takes its cursor from
    [locals.__this__.index]. *)
Theorem literal_attribute_shifts_index (fuel : nat) (this : Entity)
    (name : value) (k : string) (attr : Attribute) (t : string)
    (env data : value) (s : store) :
  to_key name = Some k ->
  assoc_get (ent_attributes this) k = Some attr ->
  attr_value attr = stringLiteral (KString t) ->
  getAttribute (S fuel) this name env data s
  = Ok (VStr t) (shifted (ent_index this) s).
Proof.
  intros Hk Hattr Hvalue.
  rewrite (getAttribute_declared _ _ _ _ _ _ _ _ Hk Hattr), Hvalue. reflexivity.
Qed.

Lemma literal_attribute_shifts_index_witness :
  to_key (VStr "title") = Some "title"%string /\
  assoc_get (ent_attributes items) "title"
    = Some (mkAttribute "title" false (stringLiteral (KString "Items"))) /\
  attr_value (mkAttribute "title" false (stringLiteral (KString "Items")))
    = stringLiteral (KString "Items") /\
  getAttribute 1 items (VStr "title") no_data no_data items_store
  = Ok (VStr "Items") (shifted (ent_index items) items_store).
Proof.
  assert (H1 : to_key (VStr "title") = Some "title"%string) by reflexivity.
  assert (H2 : assoc_get (ent_attributes items) "title"
               = Some (mkAttribute "title" false (stringLiteral (KString "Items"))))
    by (vm_compute; reflexivity).
  assert (H3 : attr_value (mkAttribute "title" false
                             (stringLiteral (KString "Items")))
               = stringLiteral (KString "Items")) by reflexivity.
  split; [exact H1|]. split; [exact H2|]. split; [exact H3|].
  exact (literal_attribute_shifts_index 0 items (VStr "title") "title" _ "Items"
           no_data no_data items_store H1 H2 H3).
Defined.

(** X10.  An attribute whose value is an array or hash literal cannot be
    read on an entity whose [index] array starts with a compiled
    expression: [Attribute.yield] hands the literal the key shifted off
    where the literal expects its cursor, [key.shift] is not a function,
    and [getAttribute] throws a TypeError, the entity's array one element
    shorter. *)
Theorem selector_attribute_under_index (fuel : nat) (this : Entity)
    (name : value) (k : string) (attr : Attribute) (key : evaluator)
    (rest : list value) (env data : value) (s : store) :
  to_key name = Some k ->
  assoc_get (ent_attributes this) k = Some attr ->
  is_selector (attr_value attr) ->
  array_of s (ent_index this) = VExpr key :: rest ->
  getAttribute (S fuel) this name env data s
  = Throw (TypeError NotAFunction) (set_array (ent_index this) rest s).
Proof.
  intros Hk Hattr Hsel Hindex.
  rewrite (getAttribute_declared _ _ _ _ _ _ _ _ Hk Hattr).
  unfold shifted. rewrite Hindex. cbn [head default].
  destruct (attr_value attr); try contradiction; reflexivity.
Qed.

Lemma selector_attribute_under_index_witness :
  to_key (VStr "kind") = Some "kind"%string /\
  assoc_get (ent_attributes titled) "kind"
    = Some (mkAttribute "kind" false one_or_other) /\
  is_selector (attr_value (mkAttribute "kind" false one_or_other)) /\
  array_of items_store (ent_index titled) = [VExpr (numberLiteral (KNumber 1))] /\
  getAttribute 1 titled (VStr "kind") no_data no_data items_store
  = Throw (TypeError NotAFunction) (set_array (ent_index titled) [] items_store).
Proof.
  assert (H1 : to_key (VStr "kind") = Some "kind"%string) by reflexivity.
  assert (H2 : assoc_get (ent_attributes titled) "kind"
               = Some (mkAttribute "kind" false one_or_other))
    by (vm_compute; reflexivity).
  assert (H3 : is_selector (attr_value (mkAttribute "kind" false one_or_other)))
    by exact I.
  assert (H4 : array_of items_store (ent_index titled)
               = [VExpr (numberLiteral (KNumber 1))]) by (vm_compute; reflexivity).
  split; [exact H1|]. split; [exact H2|]. split; [exact H3|]. split; [exact H4|].
  exact (selector_attribute_under_index 0 titled (VStr "kind") "kind" _ _ []
           no_data no_data items_store H1 H2 H3 H4).
Defined.

(** X11.  On an entity whose [index] array is empty the key shifted off is
    [undefined], and an attribute whose value is an array literal throws a
    TypeError on [undefined.shift()], the store untouched. *)
Theorem array_attribute_without_index (fuel : nat) (this : Entity)
    (name : value) (k : string) (attr : Attribute)
    (content : list evaluator) (d : nat) (env data : value) (s : store) :
  to_key name = Some k ->
  assoc_get (ent_attributes this) k = Some attr ->
  attr_value attr = arrayLiteral content d ->
  array_of s (ent_index this) = [] ->
  getAttribute (S fuel) this name env data s = Throw (TypeError NoProperties) s.
Proof.
  intros Hk Hattr Hvalue Hindex.
  rewrite (getAttribute_declared _ _ _ _ _ _ _ _ Hk Hattr).
  unfold shifted. rewrite Hindex, Hvalue. reflexivity.
Qed.

Lemma array_attribute_without_index_witness :
  to_key (VStr "title") = Some "title"%string /\
  assoc_get (ent_attributes titled) "title"
    = Some (mkAttribute "title" false plural) /\
  attr_value (mkAttribute "title" false plural)
    = arrayLiteral [ stringLiteral (KString "one");
                     stringLiteral (KString "many") ] 0 /\
  array_of bare_store (ent_index titled) = [] /\
  getAttribute 1 titled (VStr "title") no_data no_data bare_store
  = Throw (TypeError NoProperties) bare_store.
Proof.
  assert (H1 : to_key (VStr "title") = Some "title"%string) by reflexivity.
  assert (H2 : assoc_get (ent_attributes titled) "title"
               = Some (mkAttribute "title" false plural))
    by (vm_compute; reflexivity).
  assert (H3 : attr_value (mkAttribute "title" false plural)
               = arrayLiteral [ stringLiteral (KString "one");
                                stringLiteral (KString "many") ] 0)
    by reflexivity.
  assert (H4 : array_of bare_store (ent_index titled) = [])
    by (vm_compute; reflexivity).
  split; [exact H1|]. split; [exact H2|]. split; [exact H3|]. split; [exact H4|].
  exact (array_attribute_without_index 0 titled (VStr "title") "title" _ _ _
           no_data no_data bare_store H1 H2 H3 H4).
Defined.

(** X12.  On an entity whose [index] array is empty, an attribute whose
    value is a hash literal resolves to its default branch: the literal
    replaces the missing cursor by an empty array, yields the branch stored
    under its default key, and the loop of [Attribute.get] calls that
    branch for its text. *)
Theorem hash_attribute_default (fuel : nat) (this : Entity) (name : value)
    (k : string) (attr : Attribute) (content : list (string * evaluator))
    (dkey : string) (e : evaluator) (t : string) (env data : value)
    (s : store) :
  to_key name = Some k ->
  assoc_get (ent_attributes this) k = Some attr ->
  attr_value attr = hashLiteral content dkey ->
  assoc_get content dkey = Some e ->
  yields_text (S fuel) (this_locals this) env data e t ->
  array_of s (ent_index this) = [] ->
  getAttribute (S fuel) this name env data s = Ok (VStr t) s.
Proof.
  intros Hk Hattr Hvalue Hdefault Htext Hindex.
  assert (Hshifted : shifted (ent_index this) s = s).
  { unfold shifted. rewrite Hindex. reflexivity. }
  rewrite (getAttribute_declared _ _ _ _ _ _ _ _ Hk Hattr).
  rewrite Hshifted, Hindex, Hvalue. cbn [head default].
  assert (Hyield : invoke (call (S fuel)) (VExpr (hashLiteral content dkey))
                     (this_locals this) env data (CVal VUndef) s
                   = Ok (VExpr e, this_locals this) s).
  { cbn [invoke]. rewrite call_S. cbn [body].
    rewrite (hashLiteral_run _ _ _ _ _ _ _ _ VUndef (COwn []) s VUndef
               (this_locals this) s (VExpr e));
      [| reflexivity | reflexivity |].
    - unfold resolve_or_yield. rewrite this_locals_resolve. reflexivity.
    - unfold select, hash_get. cbn [truthy]. rewrite Hdefault. reflexivity. }
  rewrite (bind_Ok _ _ _ _ _ Hyield). cbn [Attribute_get_loop].
  rewrite (bind_Ok _ _ _ _ _ (shift_CRef (ent_index this) s)).
  rewrite Hshifted, Hindex. cbn [head default].
  assert (Hrun : invoke (call (S fuel)) (VExpr e) (this_locals this) env data
                   (CVal VUndef) s
                 = Ok (VStr t, this_locals this) s).
  { destruct e; exact (Htext s). }
  rewrite (bind_Ok _ _ _ _ _ Hrun). destruct fuel; reflexivity.
Qed.

Lemma hash_attribute_default_witness :
  to_key (VStr "kind") = Some "kind"%string /\
  assoc_get (ent_attributes titled) "kind"
    = Some (mkAttribute "kind" false one_or_other) /\
  attr_value (mkAttribute "kind" false one_or_other)
    = hashLiteral [ ("one"%string, stringLiteral (KString "A"));
                    ("other"%string, stringLiteral (KString "B")) ] "other" /\
  assoc_get [ ("one"%string, stringLiteral (KString "A"));
              ("other"%string, stringLiteral (KString "B")) ] "other"
    = Some (stringLiteral (KString "B")) /\
  yields_text 1 (this_locals titled) no_data no_data
    (stringLiteral (KString "B")) "B" /\
  array_of bare_store (ent_index titled) = [] /\
  getAttribute 1 titled (VStr "kind") no_data no_data bare_store
  = Ok (VStr "B") bare_store.
Proof.
  assert (H1 : to_key (VStr "kind") = Some "kind"%string) by reflexivity.
  assert (H2 : assoc_get (ent_attributes titled) "kind"
               = Some (mkAttribute "kind" false one_or_other))
    by (vm_compute; reflexivity).
  assert (H3 : attr_value (mkAttribute "kind" false one_or_other)
               = hashLiteral [ ("one"%string, stringLiteral (KString "A"));
                               ("other"%string, stringLiteral (KString "B")) ]
                   "other") by reflexivity.
  assert (H4 : assoc_get [ ("one"%string, stringLiteral (KString "A"));
                           ("other"%string, stringLiteral (KString "B")) ] "other"
               = Some (stringLiteral (KString "B"))) by (vm_compute; reflexivity).
  assert (H5 : yields_text 1 (this_locals titled) no_data no_data
                 (stringLiteral (KString "B")) "B") by (intros s; reflexivity).
  assert (H6 : array_of bare_store (ent_index titled) = [])
    by (vm_compute; reflexivity).
  split; [exact H1|]. split; [exact H2|]. split; [exact H3|]. split; [exact H4|].
  split; [exact H5|]. split; [exact H6|].
  exact (hash_attribute_default 0 titled (VStr "kind") "kind" _ _ _ _ "B"
           no_data no_data bare_store H1 H2 H3 H4 H5 H6).
Defined.

Lemma Attribute_get_literal (fuel : nat) (attr : Attribute) (this : Entity)
    (t : string) (env data : value) (s : store) :
  attr_value attr = stringLiteral (KString t) ->
  Attribute_get (call (S fuel)) (S fuel) attr (this_locals this) env data
    undefined s
  = Ok (VStr t) (shifted (ent_index this) s).
Proof.
  intros Hvalue. unfold Attribute_get. cbn [undefined].
  rewrite this_locals_this. cbn [of_option]. unfold bind at 1. unfold bind at 1.
  cbn [ret index_field].
  rewrite (bind_Ok _ _ _ _ _ (shift_CRef (ent_index this) s)).
  unfold Attribute_yield. rewrite Hvalue. reflexivity.
Qed.

Lemma insert_index_Permutation {A} (n : nat) (p : string * A)
    (l : list (nat * (string * A))) :
  (insert_index n p l).*2 ≡ₚ p :: l.*2.
Proof.
  induction l as [|[m q] r IH]; [reflexivity|]. simpl.
  destruct (n <=? m)%nat; [reflexivity|]. simpl.
  rewrite IH. apply Permutation_swap.
Qed.

(** [for (var i in o)] visits every key of [o] once. *)
Lemma for_in_Permutation {A} (o : list (string * A)) : for_in o ≡ₚ o.
Proof.
  unfold for_in. induction o as [|p r IH]; [reflexivity|]. simpl.
  destruct (index_of_key p.1) as [n|] eqn:Hp.
  - rewrite filter_cons_False by (rewrite Hp; discriminate).
    rewrite insert_index_Permutation. simpl. rewrite IH. reflexivity.
  - rewrite filter_cons_True by exact Hp.
    rewrite <- Permutation_middle. rewrite IH. reflexivity.
Qed.

Lemma each_attribute_literals (fuel : nat) (this : Entity)
    (todo : list (string * Attribute)) (env data : value) :
  Forall (fun p => exists t, attr_value p.2 = stringLiteral (KString t)) todo ->
  forall (acc : gmap string value) (s : store),
  exists result,
    each_attribute (call (S fuel)) (S fuel) this todo env data acc s
      = Ok result (Nat.iter (length todo) (shifted (ent_index this)) s) /\
    (forall id, Forall (fun p => attr_id p.2 ≠ id) todo ->
       result !! id = acc !! id) /\
    (forall id t,
       (exists p, p ∈ todo /\ attr_id p.2 = id) ->
       (forall p, p ∈ todo -> attr_id p.2 = id ->
          attr_value p.2 = stringLiteral (KString t)) ->
       result !! id = Some (VStr t)).
Proof.
  induction 1 as [|[k attr] rest [t Ht] _ IH]; intros acc s.
  - exists acc. split; [reflexivity|]. split; [reflexivity|].
    intros id t (p & Hp & _). inversion Hp.
  - simpl in Ht.
    destruct (IH (<[attr_id attr := VStr t]> acc) (shifted (ent_index this) s))
      as (result & Hrun & Hout & Hin).
    exists result. split; [|split].
    + cbn [each_attribute].
      rewrite (bind_Ok _ _ _ _ _ (Attribute_get_literal fuel attr this t env data
                                    s Ht)).
      rewrite Hrun. cbn [length]. rewrite Nat.iter_succ_r. reflexivity.
    + intros id Hid. inversion Hid as [|? ? Hne Hrest]; subst. simpl in Hne.
      rewrite (Hout id Hrest). apply lookup_insert_ne. exact Hne.
    + intros id t' Hsome Hall.
      destruct (decide (Exists (fun p => attr_id p.2 = id) rest)) as [Hex|Hno].
      * apply Exists_exists in Hex as (p & Hp & Hpid).
        apply (Hin id t').
        -- exists p. split; assumption.
        -- intros p' Hp' Hid'. apply Hall; [right; exact Hp' | exact Hid'].
      * apply not_Exists_Forall in Hno; [|intros ?; apply _].
        rewrite (Hout id Hno).
        destruct Hsome as (p & Hp & Hpid).
        apply elem_of_cons in Hp as [->|Hp].
        -- simpl in Hpid. subst id. rewrite lookup_insert_eq.
           pose proof (Hall (k, attr) ltac:(left) eq_refl) as Ht'.
           simpl in Ht'. congruence.
        -- exfalso. rewrite Forall_forall in Hno. exact (Hno p Hp Hpid).
Qed.

(** X13.  [getAttributes] on an entity all of whose attributes are string
    literals returns an object that holds, under the id of each attribute,
    its string, and nothing under any other name; and it shifts as many
    elements off the entity's [index] array as the entity has
    attributes. *)
Theorem getAttributes_of_literals (fuel : nat) (this : Entity)
    (env data : value) (s : store) :
  Forall (fun p => exists t, attr_value p.2 = stringLiteral (KString t))
    (ent_attributes this) ->
  exists result,
    getAttributes (S fuel) this env data s
      = Ok result
          (Nat.iter (length (ent_attributes this)) (shifted (ent_index this)) s) /\
    (forall id, Forall (fun p => attr_id p.2 ≠ id) (ent_attributes this) ->
       result !! id = None) /\
    (forall i p t,
       ent_attributes this !! i = Some p ->
       attr_value p.2 = stringLiteral (KString t) ->
       (forall j p', j ≠ i -> ent_attributes this !! j = Some p' ->
          attr_id p'.2 ≠ attr_id p.2) ->
       result !! attr_id p.2 = Some (VStr t)).
Proof.
  intros Hall.
  pose proof (for_in_Permutation (ent_attributes this)) as Hperm.
  assert (Hall' : Forall (fun p => exists t,
                            attr_value p.2 = stringLiteral (KString t))
                    (for_in (ent_attributes this))).
  { rewrite Hperm. exact Hall. }
  destruct (each_attribute_literals fuel this (for_in (ent_attributes this)) env
              data Hall' ∅ s) as (result & Hrun & Hout & Hin).
  exists result. split; [|split].
  - unfold getAttributes, Entity_getAttributes. rewrite Hrun.
    rewrite (Permutation_length Hperm). reflexivity.
  - intros id Hid. rewrite (Hout id); [apply lookup_empty|].
    rewrite Hperm. exact Hid.
  - intros i p t Hi Hp Hothers. apply (Hin (attr_id p.2) t).
    + exists p. split; [|reflexivity]. rewrite Hperm.
      apply list_elem_of_lookup. exists i. exact Hi.
    + intros p' Hp' Hid. rewrite Hperm in Hp'.
      apply list_elem_of_lookup in Hp' as (j & Hj).
      destruct (decide (j = i)) as [->|Hne]; [congruence|].
      exfalso. exact (Hothers j p' Hne Hj Hid).
Qed.

Lemma getAttributes_of_literals_witness :
  Forall (fun p => exists t, attr_value p.2 = stringLiteral (KString t))
    (ent_attributes items) /\
  exists result,
    getAttributes 1 items no_data no_data items_store
      = Ok result
          (Nat.iter (length (ent_attributes items)) (shifted (ent_index items))
             items_store) /\
    (forall id, Forall (fun p => attr_id p.2 ≠ id) (ent_attributes items) ->
       result !! id = None) /\
    (forall i p t,
       ent_attributes items !! i = Some p ->
       attr_value p.2 = stringLiteral (KString t) ->
       (forall j p', j ≠ i -> ent_attributes items !! j = Some p' ->
          attr_id p'.2 ≠ attr_id p.2) ->
       result !! attr_id p.2 = Some (VStr t)).
Proof.
  assert (H1 : Forall (fun p => exists t,
                         attr_value p.2 = stringLiteral (KString t))
                 (ent_attributes items)).
  { constructor; [exists "Items"%string; reflexivity | constructor]. }
  split; [exact H1|].
  exact (getAttributes_of_literals 0 items no_data no_data items_store H1).
Defined.

(** ** Operators and calls *)

(** X14.  An operator token the operator tables do not list is no
    compile-time error: the unary or binary expression compiles, with an
    operator that is not callable.  Evaluation then runs the operand, or
    both operands in order, and only afterwards throws a TypeError, in
    the store the operands left. *)
Theorem unknown_operator_fails_late :
  (forall token operand s e s' fuel l env data index s1 v l' s2,
     UnaryOperator token = None ->
     Expression operand s = Ok e s' ->
     invoke (call fuel) (VExpr e) l env data undefined s1 = Ok (v, l') s2 ->
     Expression (NUnaryExpression token operand) s
       = Ok (unaryExpression None e) s' /\
     call (S fuel) (unaryExpression None e) l env data index s1
       = Throw (TypeError NotAFunction) s2) /\
  (forall token lhs rhs s e1 s' e2 s'' fuel l env data index s1 x l1 s2 y l2 s3,
     BinaryOperator token = None ->
     Expression lhs s = Ok e1 s' ->
     Expression rhs s' = Ok e2 s'' ->
     invoke (call fuel) (VExpr e1) l env data undefined s1 = Ok (x, l1) s2 ->
     invoke (call fuel) (VExpr e2) l1 env data undefined s2 = Ok (y, l2) s3 ->
     Expression (NBinaryExpression lhs token rhs) s
       = Ok (binaryExpression e1 None e2) s'' /\
     call (S fuel) (binaryExpression e1 None e2) l env data index s1
       = Throw (TypeError NotAFunction) s3).
Proof.
  split.
  - intros token operand s e s' fuel l env data index s1 v l' s2 Htoken He Hrun.
    split.
    + change (Expression (NUnaryExpression token operand))
        with (UnaryExpression Expression token operand).
      unfold UnaryExpression. rewrite (bind_Ok _ _ _ _ _ He), Htoken. reflexivity.
    + rewrite call_S. cbn [body]. unfold unaryExpression_body.
      rewrite (bind_Ok _ _ _ _ _ Hrun). reflexivity.
  - intros token lhs rhs s e1 s' e2 s'' fuel l env data index s1 x l1 s2 y l2 s3
      Htoken He1 He2 Hrun1 Hrun2.
    split.
    + change (Expression (NBinaryExpression lhs token rhs))
        with (BinaryExpression Expression lhs token rhs).
      unfold BinaryExpression.
      rewrite (bind_Ok _ _ _ _ _ He1), (bind_Ok _ _ _ _ _ He2), Htoken.
      reflexivity.
    + rewrite call_S. cbn [body]. unfold binaryExpression_body.
      rewrite (bind_Ok _ _ _ _ _ Hrun1). cbn beta iota.
      rewrite (bind_Ok _ _ _ _ _ Hrun2). reflexivity.
Qed.

Lemma unknown_operator_fails_late_witness :
  (UnaryOperator "~" = None /\
   Expression (NNumber 1) empty_store = Ok (numberLiteral (KNumber 1)) empty_store /\
   invoke (call 1) (VExpr (numberLiteral (KNumber 1))) empty_locals no_data no_data
     undefined empty_store = Ok (VNum 1, empty_locals) empty_store /\
   Expression (NUnaryExpression "~" (NNumber 1)) empty_store
     = Ok (unaryExpression None (numberLiteral (KNumber 1))) empty_store /\
   call 2 (unaryExpression None (numberLiteral (KNumber 1))) empty_locals no_data
     no_data undefined empty_store
     = Throw (TypeError NotAFunction) empty_store) /\
  (BinaryOperator "**" = None /\
   Expression (NNumber 2) empty_store = Ok (numberLiteral (KNumber 2)) empty_store /\
   invoke (call 1) (VExpr (numberLiteral (KNumber 2))) empty_locals no_data no_data
     undefined empty_store = Ok (VNum 2, empty_locals) empty_store /\
   Expression (NBinaryExpression (NNumber 1) "**" (NNumber 2)) empty_store
     = Ok (binaryExpression (numberLiteral (KNumber 1)) None
             (numberLiteral (KNumber 2))) empty_store /\
   call 2 (binaryExpression (numberLiteral (KNumber 1)) None
             (numberLiteral (KNumber 2))) empty_locals no_data no_data undefined
     empty_store
     = Throw (TypeError NotAFunction) empty_store).
Proof.
  assert (H1 : UnaryOperator "~" = None) by (vm_compute; reflexivity).
  assert (H2 : Expression (NNumber 1) empty_store
               = Ok (numberLiteral (KNumber 1)) empty_store) by reflexivity.
  assert (H3 : invoke (call 1) (VExpr (numberLiteral (KNumber 1))) empty_locals
                 no_data no_data undefined empty_store
               = Ok (VNum 1, empty_locals) empty_store) by reflexivity.
  assert (H4 : BinaryOperator "**" = None) by (vm_compute; reflexivity).
  assert (H5 : Expression (NNumber 2) empty_store
               = Ok (numberLiteral (KNumber 2)) empty_store) by reflexivity.
  assert (H6 : invoke (call 1) (VExpr (numberLiteral (KNumber 2))) empty_locals
                 no_data no_data undefined empty_store
               = Ok (VNum 2, empty_locals) empty_store) by reflexivity.
  destruct unknown_operator_fails_late as [Hunary Hbinary].
  split.
  - split; [exact H1|]. split; [exact H2|]. split; [exact H3|].
    exact (Hunary "~"%string (NNumber 1) empty_store _ empty_store 1%nat
             empty_locals no_data no_data undefined empty_store _ _ empty_store
             H1 H2 H3).
  - split; [exact H4|]. split; [exact H5|]. split; [exact H6|].
    exact (Hbinary "**"%string (NNumber 1) (NNumber 2) empty_store _ empty_store
             _ empty_store 1%nat empty_locals no_data no_data undefined
             empty_store _ _ empty_store _ _ empty_store H4 H2 H5 H3 H6).
Defined.

Lemma invoke_non_function call_ f l env data index s :
  is_function f = false ->
  invoke call_ f l env data index s = Throw (TypeError NotAFunction) s.
Proof.
  intros Hf. destruct f; try reflexivity; try discriminate Hf.
  - destruct e; first [reflexivity | discriminate Hf].
  - unfold invoke. rewrite Hf. reflexivity.
Qed.

(** X15.  A call expression evaluates all its arguments, then its callee,
    and only then applies what the callee gave: when that is no function
    (an entity, an attribute, a string, ...) it throws a TypeError in the
    store the arguments and the callee left. *)
Theorem call_of_non_function (fuel : nat) (callee : evaluator)
    (args : list evaluator) (l : locals) (env data : value) (index : cursor)
    (s : store) (vs : list value) (l1 : locals) (s1 : store) (f : value)
    (l2 : locals) (s2 : store) :
  resolve_args (call fuel) args l env data s = Ok (vs, l1) s1 ->
  invoke (call fuel) (VExpr callee) l1 env data undefined s1 = Ok (f, l2) s2 ->
  is_function f = false ->
  call (S fuel) (callExpression callee args) l env data index s
  = Throw (TypeError NotAFunction) s2.
Proof.
  intros Hargs Hcallee Hf. rewrite call_S. cbn [body].
  unfold callExpression_body.
  rewrite (bind_Ok _ _ _ _ _ Hargs). cbn beta iota.
  rewrite (bind_Ok _ _ _ _ _ Hcallee). cbn beta iota.
  unfold bind. rewrite (invoke_non_function _ _ _ _ _ _ _ Hf). reflexivity.
Qed.

Lemma call_of_non_function_witness :
  resolve_args (call 1) [numberLiteral (KNumber 1)] empty_locals
    (VObj {[ "items"%string := VEntity items ]}) no_data items_store
    = Ok ([VNum 1], empty_locals) items_store /\
  invoke (call 1) (VExpr (identifier "items")) empty_locals
    (VObj {[ "items"%string := VEntity items ]}) no_data undefined items_store
    = Ok (VEntity items, empty_locals) items_store /\
  is_function (VEntity items) = false /\
  call 2 (callExpression (identifier "items") [numberLiteral (KNumber 1)])
    empty_locals (VObj {[ "items"%string := VEntity items ]}) no_data undefined
    items_store
  = Throw (TypeError NotAFunction) items_store.
Proof.
  assert (H1 : resolve_args (call 1) [numberLiteral (KNumber 1)] empty_locals
                 (VObj {[ "items"%string := VEntity items ]}) no_data items_store
               = Ok ([VNum 1], empty_locals) items_store)
    by (vm_compute; reflexivity).
  assert (H2 : invoke (call 1) (VExpr (identifier "items")) empty_locals
                 (VObj {[ "items"%string := VEntity items ]}) no_data undefined
                 items_store
               = Ok (VEntity items, empty_locals) items_store)
    by (vm_compute; reflexivity).
  assert (H3 : is_function (VEntity items) = false) by reflexivity.
  split; [exact H1|]. split; [exact H2|]. split; [exact H3|].
  exact (call_of_non_function 1 (identifier "items") [numberLiteral (KNumber 1)]
           empty_locals _ no_data undefined items_store _ _ _ _ _ _ H1 H2 H3).
Defined.

(** ** Member expressions *)

(** X16.  A property expression with a fixed name over an entity whose
    value holds a branch under that name yields the branch itself, not
    called, through [_yield]; and it leaves the caller's locals with
    [__resolve__] false and [__this__] bound to that entity. *)
Theorem property_of_entity (fuel : nat) (expression : evaluator) (k : string)
    (ent : Entity) (e : evaluator) (l : locals) (env data : value)
    (index : cursor) (s : store) (l1 : locals) (s1 : store) :
  invoke (call (S fuel)) (VExpr expression) l env data undefined s
    = Ok (VEntity ent, l1) s1 ->
  k ≠ ""%string ->
  declares (ent_value ent) k e ->
  call (S (S fuel)) (propertyExpression expression (Named (Some k))) l env data
    index s
  = Ok (VExpr e,
        locals_set (locals_set l1 "__resolve__" (VBool false)) "__this__"
          (VEntity ent)) s1.
Proof.
  intros Hrun Hk Hdecl. rewrite call_S. cbn [body].
  unfold propertyExpression_body. rewrite (bind_Ok _ _ _ _ _ Hrun).
  cbn beta iota. unfold Entity__yield, Entity__get. cbn [value_of_member].
  assert (Htruthy : truthy (VStr k) = true).
  { simpl. rewrite bool_decide_eq_false_2 by exact Hk. reflexivity. }
  pose proof (declared_selected (ent_value ent) (VStr k) k e s1 Htruthy eq_refl
                Hdecl) as Hsel.
  assert (Hyield : forall l', locals_get l' "__resolve__" = Some (VBool false) ->
            resolve_or_yield (call fuel) (VExpr e) l' env data (COwn []) s1
            = Ok (VExpr e, l') s1).
  { intros l' Hflag. unfold resolve_or_yield. rewrite Hflag. reflexivity. }
  pose (l2 := locals_set (locals_set l1 "__resolve__" (VBool false)) "__this__"
                (VEntity ent)).
  destruct (ent_value ent); try contradiction; cbn [invoke];
    rewrite call_S; cbn [body].
  - etrans;
      [apply (arrayLiteral_run _ _ _ _ _ _ _ _ (VStr k) (COwn []) s1 (VStr k) l2 s1
                (VExpr e)); [reflexivity | reflexivity | exact Hsel]|].
    apply Hyield. unfold locals_get, locals_set. simpl.
    rewrite lookup_insert_ne by discriminate. rewrite lookup_insert_eq.
    reflexivity.
  - etrans;
      [apply (hashLiteral_run _ _ _ _ _ _ _ _ (VStr k) (COwn []) s1 (VStr k) l2 s1
                (VExpr e)); [reflexivity | reflexivity | exact Hsel]|].
    apply Hyield. unfold locals_get, locals_set. simpl.
    rewrite lookup_insert_ne by discriminate. rewrite lookup_insert_eq.
    reflexivity.
Qed.

Lemma property_of_entity_witness :
  invoke (call 1) (VExpr (identifier "kinds")) empty_locals
    (VObj {[ "kinds"%string := VEntity kinds ]}) no_data undefined bare_store
    = Ok (VEntity kinds, empty_locals) bare_store /\
  "one"%string ≠ ""%string /\
  declares (ent_value kinds) "one" (stringLiteral (KString "A")) /\
  call 2 (propertyExpression (identifier "kinds") (Named (Some "one"%string)))
    empty_locals (VObj {[ "kinds"%string := VEntity kinds ]}) no_data undefined
    bare_store
  = Ok (VExpr (stringLiteral (KString "A")),
        locals_set (locals_set empty_locals "__resolve__" (VBool false))
          "__this__" (VEntity kinds)) bare_store.
Proof.
  assert (H1 : invoke (call 1) (VExpr (identifier "kinds")) empty_locals
                 (VObj {[ "kinds"%string := VEntity kinds ]}) no_data undefined
                 bare_store
               = Ok (VEntity kinds, empty_locals) bare_store)
    by (vm_compute; reflexivity).
  assert (H2 : "one"%string ≠ ""%string) by discriminate.
  assert (H3 : declares (ent_value kinds) "one" (stringLiteral (KString "A")))
    by (vm_compute; reflexivity).
  split; [exact H1|]. split; [exact H2|]. split; [exact H3|].
  exact (property_of_entity 0 (identifier "kinds") "one" kinds _ empty_locals _
           no_data undefined bare_store _ _ H1 H2 H3).
Defined.

(** X17.  A property expression over an [Attribute] always throws a
    TypeError: the closure calls [ret._yield], and the prototype of
    [Attribute] has [yield] and [get] but no [_yield]. *)
Theorem property_of_attribute_throws (fuel : nat) (expression : evaluator)
    (property : member) (a : Attribute) (l : locals) (env data : value)
    (index : cursor) (s : store) (l1 : locals) (s1 : store) :
  invoke (call fuel) (VExpr expression) l env data undefined s
    = Ok (VAttribute a, l1) s1 ->
  call (S fuel) (propertyExpression expression property) l env data index s
  = Throw (TypeError NotAFunction) s1.
Proof.
  intros Hrun. rewrite call_S. cbn [body]. unfold propertyExpression_body.
  rewrite (bind_Ok _ _ _ _ _ Hrun). reflexivity.
Qed.

Lemma property_of_attribute_throws_witness :
  invoke (call 1) (VExpr (variable "a")) empty_locals no_data
    (VObj {[ "a"%string := VAttribute (mkAttribute "kind" false one_or_other) ]})
    undefined bare_store
    = Ok (VAttribute (mkAttribute "kind" false one_or_other), empty_locals)
         bare_store /\
  call 2 (propertyExpression (variable "a") (Named (Some "one"%string)))
    empty_locals no_data
    (VObj {[ "a"%string := VAttribute (mkAttribute "kind" false one_or_other) ]})
    undefined bare_store
  = Throw (TypeError NotAFunction) bare_store.
Proof.
  assert (H1 : invoke (call 1) (VExpr (variable "a")) empty_locals no_data
                 (VObj {[ "a"%string
                          := VAttribute (mkAttribute "kind" false one_or_other) ]})
                 undefined bare_store
               = Ok (VAttribute (mkAttribute "kind" false one_or_other),
                     empty_locals) bare_store) by (vm_compute; reflexivity).
  split; [exact H1|].
  exact (property_of_attribute_throws 1 (variable "a")
           (Named (Some "one"%string)) _ empty_locals no_data _ undefined
           bare_store _ _ H1).
Defined.

(** X18.  An attribute expression with a fixed name over an entity that
    has the attribute, its value a string literal, returns that string;
    the caller's locals come back as the entity expression left them, since
    [getAttribute] runs on a fresh locals object, and the entity's [index]
    array loses its first element. *)
Theorem attribute_expression_reads (fuel : nat) (expression : evaluator)
    (k : string) (ent : Entity) (attr : Attribute) (t : string) (l : locals)
    (env data : value) (index : cursor) (s : store) (l1 : locals)
    (s1 : store) :
  invoke (call (S fuel)) (VExpr expression) l env data undefined s
    = Ok (VEntity ent, l1) s1 ->
  assoc_get (ent_attributes ent) k = Some attr ->
  attr_value attr = stringLiteral (KString t) ->
  call (S (S fuel)) (attributeExpression expression (Named (Some k))) l env data
    index s
  = Ok (VStr t, l1) (shifted (ent_index ent) s1).
Proof.
  intros Hrun Hattr Hvalue. rewrite call_S. cbn [body].
  unfold attributeExpression_body. rewrite (bind_Ok _ _ _ _ _ Hrun).
  cbn beta iota. cbn [value_of_member].
  assert (Hget : Entity_getAttribute (call (S fuel)) (S fuel) ent (VStr k) env
                   data s1
                 = Ok (VStr t) (shifted (ent_index ent) s1)).
  { pose proof (getAttribute_declared (S fuel) ent (VStr k) k attr env data s1
                  eq_refl Hattr) as Hdecl.
    unfold getAttribute in Hdecl. rewrite Hdecl, Hvalue. reflexivity. }
  rewrite (bind_Ok _ _ _ _ _ Hget). reflexivity.
Qed.

Lemma attribute_expression_reads_witness :
  invoke (call 1) (VExpr (identifier "items")) empty_locals
    (VObj {[ "items"%string := VEntity items ]}) no_data undefined items_store
    = Ok (VEntity items, empty_locals) items_store /\
  assoc_get (ent_attributes items) "title"
    = Some (mkAttribute "title" false (stringLiteral (KString "Items"))) /\
  attr_value (mkAttribute "title" false (stringLiteral (KString "Items")))
    = stringLiteral (KString "Items") /\
  call 2 (attributeExpression (identifier "items") (Named (Some "title"%string)))
    empty_locals (VObj {[ "items"%string := VEntity items ]}) no_data undefined
    items_store
  = Ok (VStr "Items", empty_locals) (shifted (ent_index items) items_store).
Proof.
  assert (H1 : invoke (call 1) (VExpr (identifier "items")) empty_locals
                 (VObj {[ "items"%string := VEntity items ]}) no_data undefined
                 items_store
               = Ok (VEntity items, empty_locals) items_store)
    by (vm_compute; reflexivity).
  assert (H2 : assoc_get (ent_attributes items) "title"
               = Some (mkAttribute "title" false
                         (stringLiteral (KString "Items"))))
    by (vm_compute; reflexivity).
  assert (H3 : attr_value (mkAttribute "title" false
                             (stringLiteral (KString "Items")))
               = stringLiteral (KString "Items")) by reflexivity.
  split; [exact H1|]. split; [exact H2|]. split; [exact H3|].
  exact (attribute_expression_reads 0 (identifier "items") "title" items _
           "Items" empty_locals _ no_data undefined items_store _ _ H1 H2 H3).
Defined.

(** ** Compilation and the store *)

Lemma respects_weaken (Rok Rthrow Rok' Rthrow' : store -> store -> Prop) {A}
    (m : M A) :
  (forall s s', Rok s s' -> Rok' s s') ->
  (forall s s', Rthrow s s' -> Rthrow' s s') ->
  respects Rok Rthrow m -> respects Rok' Rthrow' m.
Proof. intros H1 H2 Hm s. specialize (Hm s). destruct (m s); auto. Qed.

Lemma extends_refl (s : store) : extends s s.
Proof.
  split; [lia|]. split; [reflexivity|]. split; [reflexivity|]. intros d Hd. lia.
Qed.

Lemma extends_trans (s1 s2 s3 : store) :
  extends s1 s2 -> extends s2 s3 -> extends s1 s3.
Proof.
  intros (Hn12 & Ha12 & Hd12 & Hf12) (Hn23 & Ha23 & Hd23 & Hf23).
  split; [lia|]. split; [congruence|]. split.
  - intros d Hd. rewrite Hd23 by lia. apply Hd12. exact Hd.
  - intros d Hd. destruct (decide (d < st_next s2)%nat) as [Hlt|Hge].
    + rewrite Hd23 by exact Hlt. apply Hf12. lia.
    + apply Hf23. lia.
Qed.

Lemma respects_alloc_dirty : respects extends extends alloc_dirty.
Proof.
  intros s. unfold alloc_dirty. split; [simpl; lia|]. split; [reflexivity|]. split.
  - intros d Hd. unfold dirty_of. simpl. rewrite lookup_insert_ne by lia.
    reflexivity.
  - intros d Hd. simpl in Hd. assert (d = st_next s) as -> by lia.
    unfold dirty_of. simpl. rewrite lookup_insert_eq. reflexivity.
Qed.

Ltac ext_step :=
  first
    [ apply respects_ret; exact extends_refl
    | apply respects_throw; exact extends_refl
    | apply respects_host
    | apply respects_alloc_dirty
    | assumption
    | apply respects_bind; [exact extends_trans | exact extends_trans | | intros ?] ].

Lemma respects_Expression_bare (type : string) :
  respects extends extends (Expression_bare type).
Proof. unfold Expression_bare. repeat case_bool_decide; ext_step. Qed.

Lemma respects_hash_set content id e :
  respects extends extends (hash_set content id e).
Proof. unfold hash_set. repeat case_bool_decide; ext_step. Qed.

Lemma respects_read_default elem : respects extends extends (read_default elem).
Proof. unfold read_default. destruct (is_null _); ext_step. Qed.

Lemma respects_read_id elem : respects extends extends (read_id elem).
Proof. unfold read_id. destruct (is_null _); ext_step. Qed.

Lemma respects_ArrayLiteral_each (E : node -> M evaluator) (elems : list element) :
  Forall (fun e => respects extends extends (E (elem_node e))) elems ->
  forall i content d,
    respects extends extends (ArrayLiteral_each E elems i content d).
Proof.
  induction 1 as [|elem rest Helem _ IH]; intros i content d;
    cbn [ArrayLiteral_each]; [ext_step|].
  ext_step; [exact Helem|]. ext_step; [apply respects_read_default | apply IH].
Qed.

Lemma respects_HashLiteral_each (E : node -> M evaluator) (elems : list element) :
  Forall (fun e => respects extends extends (E (elem_node e))) elems ->
  forall i content d,
    respects extends extends (HashLiteral_each E elems i content d).
Proof.
  induction 1 as [|elem rest Helem _ IH]; intros i content d;
    cbn [HashLiteral_each]; [ext_step|].
  ext_step; [apply respects_read_id|]. ext_step; [exact Helem|].
  ext_step; [apply respects_hash_set | apply IH].
Qed.

Lemma respects_Expression_each (E : node -> M evaluator) (elems : list node) :
  Forall (fun n => respects extends extends (E n)) elems ->
  respects extends extends (Expression_each E elems).
Proof.
  induction 1 as [|elem rest Helem _ IH]; cbn [Expression_each]; [ext_step|].
  ext_step; [exact Helem|]. ext_step; [exact IH|]. ext_step.
Qed.

Lemma respects_member_of (E : node -> M evaluator) (computed : bool)
    (property : node) :
  respects extends extends (E property) ->
  respects extends extends (member_of E computed property).
Proof.
  intros H. unfold member_of. destruct computed.
  - ext_step; [exact H|]. ext_step.
  - destruct property; ext_step.
Qed.

(** Compiling an expression leaves the store as it was but for fresh
    [dirty] variables, all clear, whether it returns or throws. *)
Lemma respects_Expression (n : node) : respects extends extends (Expression n).
Proof.
  induction n using node_induction.
  - ext_step.
  - apply respects_Expression_bare.
  - ext_step.
  - ext_step.
  - ext_step.
  - ext_step.
  - ext_step.
  - ext_step.
  - apply respects_ArrayLiteral_each. assumption.
  - apply respects_HashLiteral_each. assumption.
  - change (Expression (NComplexString content))
      with (ComplexString Expression content).
    unfold ComplexString. ext_step; [ext_step|].
    ext_step; [apply respects_Expression_each; assumption|]. ext_step.
  - exact IHn.
  - change (Expression (NUnaryExpression operator n))
      with (UnaryExpression Expression operator n).
    unfold UnaryExpression. repeat ext_step.
  - change (Expression (NBinaryExpression n1 operator n2))
      with (BinaryExpression Expression n1 operator n2).
    unfold BinaryExpression. repeat ext_step.
  - change (Expression (NLogicalExpression n1 operator n2))
      with (LogicalExpression Expression n1 operator n2).
    unfold LogicalExpression. ext_step; [assumption|].
    destruct (operator_given operator); repeat ext_step.
  - change (Expression (NConditionalExpression n1 n2 n3))
      with (ConditionalExpression Expression n1 n2 n3).
    unfold ConditionalExpression. repeat ext_step.
  - change (Expression (NCallExpression n arguments))
      with (CallExpression Expression n arguments).
    unfold CallExpression. ext_step; [assumption|].
    ext_step; [apply respects_Expression_each; assumption|]. ext_step.
  - change (Expression (NPropertyExpression n1 computed n2))
      with (PropertyExpression Expression n1 computed n2).
    unfold PropertyExpression. ext_step; [assumption|].
    ext_step; [apply respects_member_of; assumption|]. ext_step.
  - change (Expression (NAttributeExpression n1 computed n2))
      with (AttributeExpression Expression n1 computed n2).
    unfold AttributeExpression. ext_step; [assumption|].
    ext_step; [apply respects_member_of; assumption|]. ext_step.
Qed.

(** X19.  [new Expression(node)], whether it returns or throws, leaves the
    store as it was but for [dirty] variables it allocated, each of them
    clear: it touches no [index] array and no [dirty] variable that
    existed. *)
Theorem Expression_only_adds_clear_markers (n : node) :
  respects extends extends (Expression n).
Proof. exact (respects_Expression n). Qed.

Lemma extends_pushes (a : nat) (s s' : store) : extends s s' -> pushes a s s'.
Proof.
  intros (Hn & Ha & Hd & _). split; [exact Hn|]. split; [exact Hd|].
  intros a' _. unfold array_of. rewrite Ha. reflexivity.
Qed.

Lemma extends_grows (s s' : store) : extends s s' -> grows s s'.
Proof.
  intros (Hn & Ha & Hd & _). split; [exact Hn|]. split; [exact Hd|].
  intros a' _. unfold array_of. rewrite Ha. reflexivity.
Qed.

Lemma pushes_refl (a : nat) (s : store) : pushes a s s.
Proof. split; [lia|]. split; intros; reflexivity. Qed.

Lemma pushes_trans (a : nat) (s1 s2 s3 : store) :
  pushes a s1 s2 -> pushes a s2 s3 -> pushes a s1 s3.
Proof.
  intros (Hn12 & Hd12 & Ha12) (Hn23 & Hd23 & Ha23).
  split; [lia|]. split.
  - intros d Hd. rewrite Hd23 by lia. apply Hd12. exact Hd.
  - intros a' Hne. rewrite Ha23 by exact Hne. apply Ha12. exact Hne.
Qed.

Lemma grows_refl (s : store) : grows s s.
Proof. split; [lia|]. split; intros; reflexivity. Qed.

Lemma grows_trans (s1 s2 s3 : store) : grows s1 s2 -> grows s2 s3 -> grows s1 s3.
Proof.
  intros (Hn12 & Hd12 & Ha12) (Hn23 & Hd23 & Ha23).
  split; [lia|]. split.
  - intros d Hd. rewrite Hd23 by lia. apply Hd12. exact Hd.
  - intros a Ha. rewrite Ha23 by lia. apply Ha12. exact Ha.
Qed.

Lemma respects_push (a : nat) (v : value) :
  respects (pushes a) (pushes a) (push a v).
Proof.
  intros s. unfold push. split; [simpl; lia|]. split; [intros; reflexivity|].
  intros a' Hne. apply array_of_set_array_ne. congruence.
Qed.

Lemma respects_push_index (a : nat) (index : list node) :
  respects (pushes a) (pushes a) (push_index a index).
Proof.
  induction index as [|ind rest IH]; cbn [push_index].
  - apply respects_ret. exact (pushes_refl a).
  - apply respects_bind; [exact (pushes_trans a) | exact (pushes_trans a) | |].
    + apply (respects_weaken extends extends); [exact (extends_pushes a)..|].
      apply respects_Expression.
    + intros e.
      apply respects_bind; [exact (pushes_trans a) | exact (pushes_trans a) | |].
      * apply respects_push.
      * intros _. exact IH.
Qed.

Lemma respects_set_attributes (attrs : list attr_node)
    (attributes : list (string * Attribute)) :
  respects extends extends (set_attributes attrs attributes).
Proof.
  revert attributes. induction attrs as [|attr rest IH]; intros attributes;
    cbn [set_attributes]; [ext_step|].
  ext_step.
  - unfold new_Attribute. ext_step; [apply respects_Expression | ext_step].
  - case_bool_decide; [ext_step | apply IH].
Qed.

Lemma push_index_Ok (a : nat) (index : list node) (s s' : store) (u : unit) :
  push_index a index s = Ok u s' ->
  exists es, Forall2 built_from index es /\
    array_of s' a = array_of s a ++ (VExpr <$> es).
Proof.
  revert s. induction index as [|ind rest IH]; intros s Hrun;
    cbn [push_index] in Hrun.
  - injection Hrun as _ <-. exists []. split; [constructor|].
    rewrite app_nil_r. reflexivity.
  - apply bind_inv_Ok in Hrun as (e & s1 & He & Hrun).
    apply bind_inv_Ok in Hrun as (u' & s2 & Hpush & Hrun).
    destruct (IH _ Hrun) as (es & Hes & Harr).
    exists (e :: es). split; [constructor; [exists s, s1; exact He | exact Hes]|].
    rewrite Harr. unfold push in Hpush. injection Hpush as _ <-.
    rewrite array_of_set_array.
    pose proof (respects_Expression ind s) as Hext. rewrite He in Hext.
    destruct Hext as (_ & Hsame & _).
    unfold array_of at 1. rewrite Hsame. fold (array_of s a).
    rewrite <- app_assoc. reflexivity.
Qed.

(** The stores [new Entity(node)] passes through, when it returns. *)
Lemma new_Entity_Ok id value index attrs local s e s' :
  new_Entity id value index attrs local s = Ok e s' ->
  exists v s1 s3 attributes,
    Expression value s = Ok v s1 /\
    push_index (st_next s1) index
      (mkStore (st_dirty s1) (<[st_next s1 := []]> (st_arrays s1))
         (S (st_next s1))) = Ok tt s3 /\
    set_attributes attrs [] s3 = Ok attributes s' /\
    e = mkEntity id v (st_next s1) attributes local.
Proof.
  intros Hrun. unfold new_Entity in Hrun.
  apply bind_inv_Ok in Hrun as (v & s1 & Hv & Hrun).
  apply bind_inv_Ok in Hrun as (a & s2 & Ha & Hrun).
  unfold alloc_array in Ha. injection Ha as <- <-.
  apply bind_inv_Ok in Hrun as ([] & s3 & Hp & Hrun).
  apply bind_inv_Ok in Hrun as (attributes & s4 & Hattrs & Hrun).
  injection Hrun as <- <-.
  exists v, s1, s3, attributes. auto.
Qed.

Lemma respects_new_Entity id value index attrs local :
  respects grows grows (new_Entity id value index attrs local).
Proof.
  intros s. unfold new_Entity. unfold bind at 1.
  pose proof (respects_Expression value s) as Hv.
  destruct (Expression value s) as [v s1|err s1| |]; try exact I;
    [|apply extends_grows; exact Hv].
  unfold bind at 1. unfold alloc_array at 1.
  set (s2 := mkStore (st_dirty s1) (<[st_next s1 := []]> (st_arrays s1))
               (S (st_next s1))).
  assert (H2 : grows s s2).
  { destruct Hv as (Hn & Ha & Hd & _). split; [simpl; lia|]. split.
    - intros d Hlt. exact (Hd d Hlt).
    - intros a Hlt. unfold array_of. simpl.
      rewrite lookup_insert_ne by lia. rewrite Ha. reflexivity. }
  assert (H3 : forall s3, pushes (st_next s1) s2 s3 -> grows s s3).
  { intros s3 (Hn & Hd & Ha). destruct H2 as (Hn2 & Hd2 & Ha2).
    destruct Hv as (Hn1 & _). split; [lia|]. split.
    - intros d Hlt. rewrite Hd by lia. apply Hd2. exact Hlt.
    - intros a Hlt. rewrite Ha by lia. apply Ha2. exact Hlt. }
  unfold bind at 1.
  pose proof (respects_push_index (st_next s1) index s2) as Hp.
  destruct (push_index (st_next s1) index s2) as [[] s3|err s3| |]; try exact I;
    [|exact (H3 _ Hp)].
  unfold bind at 1.
  pose proof (respects_set_attributes attrs [] s3) as Hattrs.
  destruct (set_attributes attrs [] s3) as [attributes s4|err s4| |];
    try exact I.
  - exact (grows_trans _ _ _ (H3 _ Hp) (extends_grows _ _ Hattrs)).
  - exact (grows_trans _ _ _ (H3 _ Hp) (extends_grows _ _ Hattrs)).
Qed.

Lemma respects_obj_set obj id v : respects grows grows (obj_set obj id v).
Proof.
  unfold obj_set. case_bool_decide;
    [apply respects_host | apply respects_ret; exact grows_refl].
Qed.

(** X20.  [compile], whether it returns or throws, changes no [dirty]
    variable and no [index] array that existed when it was called: what
    was compiled before keeps its state. *)
Theorem compile_keeps_earlier_state (ast : list definition) :
  forall obj, respects grows grows (compile ast obj).
Proof.
  induction ast as [|d rest IH]; intros obj.
  - apply respects_ret. exact grows_refl.
  - destruct d as [|type id|id value index attrs local|id args expression];
      cbn [compile].
    + apply respects_ret. exact grows_refl.
    + repeat case_bool_decide.
      * apply respects_throw. exact grows_refl.
      * apply respects_bind; [exact grows_trans | exact grows_trans | |].
        -- apply respects_obj_set.
        -- intros obj1. apply IH.
      * apply IH.
    + apply respects_bind; [exact grows_trans | exact grows_trans | |].
      * apply respects_new_Entity.
      * intros e.
        apply respects_bind; [exact grows_trans | exact grows_trans | |].
        -- apply respects_obj_set.
        -- intros obj1. apply IH.
    + apply respects_bind; [exact grows_trans | exact grows_trans | |].
      * unfold new_Macro.
        apply (respects_weaken extends extends); [exact extends_grows..|].
        ext_step; [apply respects_Expression | ext_step].
      * intros m.
        apply respects_bind; [exact grows_trans | exact grows_trans | |].
        -- apply respects_obj_set.
        -- intros obj1. apply IH.
Qed.

(** X21.  [new Entity(node)] gives the entity a fresh [index] array, and
    when it returns that array holds exactly the compiled expressions of
    [node.index], one for each index node, in order. *)
Theorem Entity_index_holds_closures (id : string) (value : node)
    (index : list node) (attrs : list attr_node) (local : bool) (s : store)
    (e : Entity) (s' : store) :
  new_Entity id value index attrs local s = Ok e s' ->
  (st_next s <= ent_index e < st_next s')%nat /\
  exists es,
    Forall2 built_from index es /\
    array_of s' (ent_index e) = VExpr <$> es.
Proof.
  intros Hrun.
  destruct (new_Entity_Ok _ _ _ _ _ _ _ _ Hrun)
    as (v & s1 & s3 & attributes & Hv & Hp & Hattrs & ->).
  cbn [ent_index].
  pose proof (respects_Expression value s) as H1. rewrite Hv in H1.
  pose proof (respects_push_index (st_next s1) index
                (mkStore (st_dirty s1) (<[st_next s1 := []]> (st_arrays s1))
                   (S (st_next s1)))) as H3.
  rewrite Hp in H3.
  pose proof (respects_set_attributes attrs [] s3) as H4. rewrite Hattrs in H4.
  destruct H1 as (Hn1 & _), H3 as (Hn3 & _), H4 as (Hn4 & Ha4 & _).
  simpl in Hn3. split; [lia|].
  destruct (push_index_Ok _ _ _ _ _ Hp) as (es & Hes & Harr).
  exists es. split; [exact Hes|].
  unfold array_of at 1. rewrite Ha4. fold (array_of s3 (st_next s1)).
  rewrite Harr. unfold array_of. simpl. rewrite lookup_insert_eq. reflexivity.
Qed.

Lemma Entity_index_holds_closures_witness :
  new_Entity "items" (NArray plural_elems) [NNumber 1]
    [AttrNode "title" false (NString "Items")] false empty_store
    = Ok items items_store /\
  (st_next empty_store <= ent_index items < st_next items_store)%nat /\
  exists es,
    Forall2 built_from [NNumber 1] es /\
    array_of items_store (ent_index items) = VExpr <$> es.
Proof.
  assert (H1 : new_Entity "items" (NArray plural_elems) [NNumber 1]
                 [AttrNode "title" false (NString "Items")] false empty_store
               = Ok items items_store) by (vm_compute; reflexivity).
  split; [exact H1|].
  exact (Entity_index_holds_closures "items" (NArray plural_elems) [NNumber 1]
           [AttrNode "title" false (NString "Items")] false empty_store items
           items_store H1).
Defined.

(** ** Compiling, then resolving *)

Lemma Expression_each_texts (texts : list string) (s : store) :
  Expression_each Expression (NString <$> texts) s
  = Ok ((fun t => stringLiteral (KString t)) <$> texts) s.
Proof.
  induction texts as [|t texts IH]; [reflexivity|].
  cbn [fmap list_fmap Expression_each].
  rewrite (bind_Ok _ _ s (stringLiteral (KString t)) s eq_refl).
  fold (fmap (M := list) NString texts).
  rewrite (bind_Ok _ _ _ _ _ IH). reflexivity.
Qed.

Lemma texts_yield (fuel : nat) (l : locals) (env data : value)
    (texts : list string) :
  Forall2 (yields_text (S fuel) l env data)
    ((fun t => stringLiteral (KString t)) <$> texts) texts.
Proof.
  induction texts as [|t texts IH]; constructor; [|exact IH].
  intros s. reflexivity.
Qed.

(** X22.  Compile, then resolve: an entity whose value is an interpolated
    string made of text spans only is stored under its id, and [get] on it
    returns the spans concatenated, at any fuel from 2 on, leaving the
    store as [compile] left it. *)
Theorem text_entity_round_trip (id : string) (texts : list string)
    (local : bool) (obj : gmap string value) (s : store) :
  id ≠ "__proto__"%string ->
  exists e s',
    compile [DEntity id (NComplexString (NString <$> texts)) [] [] local] obj s
      = Ok (<[id := VEntity e]> obj) s' /\
    forall fuel env data,
      get (2 + fuel) e env data undefined s' = Ok (VStr (join texts)) s'.
Proof.
  intros Hid.
  set (d := st_next s).
  set (lits := (fun t => stringLiteral (KString t)) <$> texts).
  set (s1 := mkStore (<[d := false]> (st_dirty s)) (st_arrays s) (S d)).
  set (s' := mkStore (st_dirty s1) (<[S d := []]> (st_arrays s1)) (S (S d))).
  exists (mkEntity id (complexString d lits) (S d) [] local), s'.
  assert (Hvalue : Expression (NComplexString (NString <$> texts)) s
                   = Ok (complexString d lits) s1).
  { change (Expression (NComplexString (NString <$> texts)))
      with (ComplexString Expression (NString <$> texts)).
    unfold ComplexString.
    rewrite (bind_Ok alloc_dirty _ s d s1 eq_refl).
    rewrite (bind_Ok _ _ _ _ _ (Expression_each_texts texts s1)). reflexivity. }
  split.
  - assert (Hent : new_Entity id (NComplexString (NString <$> texts)) [] []
                      local s
                    = Ok (mkEntity id (complexString d lits) (S d) [] local) s').
    { unfold new_Entity. rewrite (bind_Ok _ _ _ _ _ Hvalue). reflexivity. }
    cbn [compile]. rewrite (bind_Ok _ _ _ _ _ Hent).
    unfold obj_set. rewrite bool_decide_eq_false_2 by exact Hid. reflexivity.
  - intros fuel env data. unfold get, Entity_get, Entity__resolve, Entity__get.
    cbn [ent_value ent_index undefined invoke].
    assert (Hd : dirty_of s' d = false).
    { unfold dirty_of, s', s1. simpl. rewrite lookup_insert_eq. reflexivity. }
    assert (Hsame : set_dirty d false s' = s').
    { unfold set_dirty, s', s1. simpl. rewrite insert_insert_eq. reflexivity. }
    match goal with
    | |- bind (call _ _ ?l _ _ ?i) _ _ = _ =>
        assert (Hrun : call (2 + fuel) (complexString d lits) l env data i s'
                       = Ok (VStr (join texts), l) s')
    end.
    { change (2 + fuel)%nat with (S (S fuel)). rewrite call_S. cbn [body].
      unfold complexString_body. rewrite Hd. unfold bind.
      rewrite (parts_of_texts (S fuel) (S fuel) _ env data lits texts _
                 (texts_yield fuel _ env data texts)).
      rewrite set_dirty_twice, Hsame. reflexivity. }
    rewrite (bind_Ok _ _ _ _ _ Hrun). reflexivity.
Qed.

Lemma text_entity_round_trip_witness :
  "hello"%string ≠ "__proto__"%string /\
  exists e s',
    compile [DEntity "hello" (NComplexString (NString <$> ["Hello, "; "you"]%string))
               [] [] false] ∅ empty_store
      = Ok (<["hello"%string := VEntity e]> ∅) s' /\
    forall fuel env data,
      get (2 + fuel) e env data undefined s'
      = Ok (VStr (join ["Hello, "; "you"]%string)) s'.
Proof.
  assert (H1 : "hello"%string ≠ "__proto__"%string) by discriminate.
  split; [exact H1|].
  exact (text_entity_round_trip "hello" ["Hello, "; "you"]%string false ∅
           empty_store H1).
Defined.
